(** * RLP decoder of runtime/stdlib/rlp/rlp.go

    A shallow embedding of [ReadSize], [DecodeString] and [DecodeList].

    Go's [int] and [uint] are taken as 64-bit (the source sets
    [MaxLongLengthAllowed = math.MaxInt64]); they are modelled in [Z] with
    the wrap-around written out.  A byte is a [Byte.byte]; its numeric value
    is [byte_val].  A run-time panic of Go (index or slice bounds out of
    range) is an outcome of its own, [Panic], next to a returned value and a
    returned error. *)

From Stdlib Require Import ZArith List Bool Lia.
From Stdlib.Strings Require Import Byte.
From Stdlib.Strings Require String.
Import ListNotations.
Local Open Scope Z_scope.

(** ** Machine integers *)

Module GoInt.

Definition max_int : Z := 9223372036854775807.
Definition min_int : Z := -9223372036854775808.
Definition modulus : Z := 18446744073709551616.

(** Two's-complement reduction of a mathematical integer to [int]. *)
Definition wrap (z : Z) : Z := (z + 9223372036854775808) mod modulus - 9223372036854775808.

(** Reduction to [uint]. *)
Definition uwrap (z : Z) : Z := z mod modulus.

Definition add (a b : Z) : Z := wrap (a + b).
Definition sub (a b : Z) : Z := wrap (a - b).
Definition usub (a b : Z) : Z := uwrap (a - b).

(** The conversion [int(u)] of a [uint]. *)
Definition of_uint (u : Z) : Z := wrap u.

Definition in_range (z : Z) : Prop := min_int <= z <= max_int.

End GoInt.

(** ** Bytes and slices *)

Definition byte_val (b : byte) : Z := Z.of_N (Byte.to_N b).

(** Subtraction on [byte] (uint8) values. *)
Definition byte_sub (a b : Z) : Z := (a - b) mod 256.

(** [len(inp)]. *)
Definition len {A} (l : list A) : Z := Z.of_nat (length l).

(** A buffer Go can hold.  The length of a slice is an [int]; as the bytes
    live in an address space well below [2^63] bytes, the length stays at
    least 8 below the largest [int]. *)
Definition buf_ok {A} (l : list A) : Prop := len l <= GoInt.max_int - 8.

(** ** Outcomes *)

Inductive error : Type :=
| ErrEmptyInput
| ErrInvalidStartIndex
| ErrIncompleteInput
| ErrNonCanonicalInput
| ErrDataSizeTooLarge
| ErrListSizeMismatch
| ErrInputContainsExtraBytes
| ErrTypeMismatch.

Inductive outcome (A : Type) : Type :=
| Ok (a : A)
| Err (e : error)
| Panic.

Arguments Ok {A} a.
Arguments Err {A} e.
Arguments Panic {A}.

Definition bind {A B} (m : outcome A) (k : A -> outcome B) : outcome B :=
  match m with
  | Ok a => k a
  | Err e => Err e
  | Panic => Panic
  end.

Notation "x <- m ;; k" := (bind m (fun x => k))
  (at level 61, m at next level, right associativity).

(** [inp[i]]: panics unless [0 <= i < len(inp)]. *)
Definition index (inp : list byte) (i : Z) : outcome byte :=
  if (0 <=? i) && (i <? len inp)
  then match nth_error inp (Z.to_nat i) with
       | Some b => Ok b
       | None => Panic
       end
  else Panic.

(** [inp[lo:hi]]: panics unless [0 <= lo <= hi <= len(inp)] (the buffer's
    capacity is taken to be its length). *)
Definition slice (inp : list byte) (lo hi : Z) : outcome (list byte) :=
  if (0 <=? lo) && (lo <=? hi) && (hi <=? len inp)
  then Ok (firstn (Z.to_nat (hi - lo)) (skipn (Z.to_nat lo) inp))
  else Panic.

(** [inp[lo:]]. *)
Definition slice_from (inp : list byte) (lo : Z) : outcome (list byte) :=
  slice inp lo (len inp).

(** The built-in [copy(dst, src)]: overwrites the first
    [min(len(dst), len(src))] elements of [dst]. *)
Definition copy (dst src : list byte) : list byte :=
  firstn (length dst) src ++ skipn (length src) dst.

(** [binary.BigEndian.Uint64]: the value of the bytes read as base-256
    digits, most significant first (on the 8-byte scratch area). *)
Definition BigEndian_Uint64 (b : list byte) : Z :=
  fold_left (fun acc x => acc * 256 + byte_val x) b 0.

(** ** Constants of the package *)

Definition ByteRangeEnd : Z := 0x7f.
Definition ShortStringRangeStart : Z := 0x80.
Definition ShortStringRangeEnd : Z := 0xb7.
Definition LongStringRangeStart : Z := 0xb8.
Definition LongStringRangeEnd : Z := 0xbf.
Definition ShortListRangeStart : Z := 0xc0.
Definition ShortListRangeEnd : Z := 0xf7.
Definition LongListRangeStart : Z := 0xf8.
Definition MaxShortLengthAllowed : Z := 55.
Definition MaxLongLengthAllowed : Z := GoInt.max_int.

(** ** ReadSize *)

(** The two assignments to [bytesToReadForLen] and [isString] before the
    long-form part; both start at their zero values. *)
Definition long_form_kind (firstByte : Z) : Z * bool :=
  let st := (0, false) in
  let st :=
    if (firstByte >=? LongStringRangeStart) && (firstByte <=? LongStringRangeEnd)
    then (byte_sub firstByte ShortStringRangeEnd, true)
    else st in
  if firstByte >=? LongListRangeStart
  then (byte_sub firstByte ShortListRangeEnd, false)
  else st.

Definition ReadSize (inp : list byte) (startIndex : Z) : outcome (bool * Z * Z) :=
  if len inp =? 0 then Err ErrEmptyInput
  else if startIndex >=? len inp then Err ErrInvalidStartIndex
  else
    fb <- index inp startIndex ;;
    let firstByte := byte_val fb in
    let startIndex := GoInt.add startIndex 1 in
    if firstByte <=? ByteRangeEnd
    then Ok (true, GoInt.sub startIndex 1, 1)
    else if firstByte <=? ShortStringRangeEnd
    then
      let strLen := byte_sub firstByte ShortStringRangeStart in
      Ok (true, startIndex, GoInt.of_uint strLen)
    else if (firstByte >=? ShortListRangeStart) && (firstByte <=? ShortListRangeEnd)
    then
      let strLen := byte_sub firstByte ShortListRangeStart in
      Ok (false, startIndex, GoInt.of_uint strLen)
    else
      let '(bytesToReadForLen, isString) := long_form_kind firstByte in
      if startIndex >=? len inp then Err ErrIncompleteInput
      else if bytesToReadForLen =? 1
      then
        lb <- index inp startIndex ;;
        let strLen := byte_val lb in
        let startIndex := GoInt.add startIndex 1 in
        if strLen <=? MaxShortLengthAllowed then Err ErrNonCanonicalInput
        else Ok (isString, startIndex, GoInt.of_uint strLen)
      else
        let lenData := repeat x00 8 in
        let start := GoInt.of_uint (GoInt.usub 8 bytesToReadForLen) in
        z <- index inp startIndex ;;
        if byte_val z =? 0 then Err ErrNonCanonicalInput
        else
          let endIndex := GoInt.add startIndex (GoInt.of_uint bytesToReadForLen) in
          if endIndex >? len inp then Err ErrIncompleteInput
          else
            dst <- slice_from lenData start ;;
            src <- slice inp startIndex endIndex ;;
            let lenData := firstn (Z.to_nat start) lenData ++ copy dst src in
            let startIndex := GoInt.add startIndex (GoInt.of_uint bytesToReadForLen) in
            let strLen := GoInt.uwrap (BigEndian_Uint64 lenData) in
            if strLen <=? MaxShortLengthAllowed then Err ErrNonCanonicalInput
            else if strLen >? MaxLongLengthAllowed then Err ErrDataSizeTooLarge
            else Ok (isString, startIndex, GoInt.of_uint strLen).

(** ** DecodeString *)

Definition DecodeString (inp : list byte) (startIndex : Z) : outcome (list byte) :=
  r <- ReadSize inp startIndex ;;
  let '(isString, dataStartIndex, dataSize) := r in
  if negb isString then Err ErrTypeMismatch
  else if (dataSize =? 1) && (startIndex =? dataStartIndex)
  then
    if len inp >? 1 then Err ErrInputContainsExtraBytes
    else
      b <- index inp dataStartIndex ;;
      Ok [b]
  else
    let dataEndIndex := GoInt.add dataStartIndex dataSize in
    if dataEndIndex >? len inp then Err ErrIncompleteInput
    else if len inp >? dataEndIndex then Err ErrInputContainsExtraBytes
    else slice inp dataStartIndex dataEndIndex.

(** ** DecodeList *)

(** The state of the [for] loop: [itemStartIndex], [bytesRead], [retList]. *)
Definition loop_state : Type := Z * Z * list (list byte).

(** The loop [for bytesRead < listDataSize { ... }].  [fuel] bounds the
    number of iterations; [None] means the bound was reached. *)
Fixpoint DecodeList_loop (fuel : nat) (inp : list byte) (listDataSize : Z)
    (st : loop_state) : option (outcome loop_state) :=
  let '(itemStartIndex, bytesRead, retList) := st in
  if bytesRead <? listDataSize
  then
    match fuel with
    | O => None
    | S fuel' =>
        match ReadSize inp itemStartIndex with
        | Ok (_, itemDataStartIndex, itemSize) =>
            let itemEndIndex := GoInt.add itemDataStartIndex itemSize in
            if itemEndIndex >? len inp then Some (Err ErrIncompleteInput)
            else
              match slice inp itemDataStartIndex itemEndIndex with
              | Ok item =>
                  DecodeList_loop fuel' inp listDataSize
                    (itemEndIndex,
                     GoInt.add bytesRead (GoInt.sub itemEndIndex itemStartIndex),
                     retList ++ [item])
              | Err e => Some (Err e)
              | Panic => Some Panic
              end
        | Err e => Some (Err e)
        | Panic => Some Panic
        end
    end
  else Some (Ok st).

Definition DecodeList_fuel (fuel : nat) (inp : list byte) (startIndex : Z)
    : option (outcome (list (list byte))) :=
  match ReadSize inp startIndex with
  | Ok (isString, dataStartIndex, listDataSize) =>
      if isString then Some (Err ErrTypeMismatch)
      else
        match DecodeList_loop fuel inp listDataSize (dataStartIndex, 0, []) with
        | Some (Ok (itemStartIndex, bytesRead, retList)) =>
            if negb (bytesRead =? listDataSize) then Some (Err ErrListSizeMismatch)
            else if len inp >? itemStartIndex then Some (Err ErrInputContainsExtraBytes)
            else Some (Ok retList)
        | Some (Err e) => Some (Err e)
        | Some Panic => Some Panic
        | None => None
        end
  | Err e => Some (Err e)
  | Panic => Some Panic
  end.

(** Every iteration that does not leave the loop moves [itemStartIndex]
    forward by at least one byte, so [len(inp) + 1] iterations are enough
    (see [DecodeList_loop_total]). *)
Definition DecodeList (inp : list byte) (startIndex : Z)
    : option (outcome (list (list byte))) :=
  DecodeList_fuel (S (length inp)) inp startIndex.

(** ** What the spec says about an item header *)

(** [l[lo:hi]] as a total function (the value [slice] returns when it does
    not panic). *)
Definition seg (l : list byte) (lo hi : Z) : list byte :=
  firstn (Z.to_nat (hi - lo)) (skipn (Z.to_nat lo) l).

(** The byte at offset [i], if any. *)
Definition byte_at (l : list byte) (i : Z) : option byte :=
  if 0 <=? i then nth_error l (Z.to_nat i) else None.

(** Value of a big-endian run of length bytes. *)
Definition be_value (l : list byte) : Z :=
  fold_left (fun acc x => acc * 256 + byte_val x) l 0.

(** Number of header bytes of an item, by its tag (table of section 3 of the
    spec): the tag byte, and for the long forms the length bytes after it. *)
Definition header_size (f : Z) : Z :=
  if f <=? 0xb7 then 1
  else if f <=? 0xbf then 1 + (f - 0xb7)
  else if f <=? 0xf7 then 1
  else 1 + (f - 0xf7).

(** The descriptor section 4.1 of the spec assigns to the item that begins
    at offset [s] of [B]: [item_at B s is_string payload_start payload_len]. *)
Inductive item_at (B : list byte) (s : Z) : bool -> Z -> Z -> Prop :=
| item_single fb :
    byte_at B s = Some fb -> byte_val fb <= 0x7f ->
    item_at B s true s 1
| item_short_string fb :
    byte_at B s = Some fb -> 0x80 <= byte_val fb <= 0xb7 ->
    item_at B s true (s + 1) (byte_val fb - 0x80)
| item_short_list fb :
    byte_at B s = Some fb -> 0xc0 <= byte_val fb <= 0xf7 ->
    item_at B s false (s + 1) (byte_val fb - 0xc0)
| item_long fb is_string n lb :
    byte_at B s = Some fb ->
    (is_string = true /\ 0xb8 <= byte_val fb <= 0xbf /\ n = byte_val fb - 0xb7) \/
    (is_string = false /\ 0xf8 <= byte_val fb /\ n = byte_val fb - 0xf7) ->
    s + 1 + n <= len B ->
    byte_at B (s + 1) = Some lb -> byte_val lb <> 0 ->
    55 < be_value (seg B (s + 1) (s + 1 + n)) <= GoInt.max_int ->
    item_at B s is_string (s + 1 + n) (be_value (seg B (s + 1) (s + 1 + n))).

(** The sub-items that fill [B] from offset [c] up to offset [c']:
    [sub_items B c hs es c'] lists, in order, the header bytes [hs] and the
    payload bytes [es] of each of them.  A single-byte item has no header
    bytes of its own: the byte is its payload. *)
Inductive sub_items (B : list byte) : Z -> list (list byte) -> list (list byte) -> Z -> Prop :=
| sub_items_nil c : sub_items B c [] [] c
| sub_items_cons c k ds sz hs es c' :
    item_at B c k ds sz ->
    ds + sz <= len B ->
    sub_items B (ds + sz) hs es c' ->
    sub_items B c (seg B c ds :: hs) (seg B ds (ds + sz) :: es) c'.

(** Header bytes and payload bytes put back together, item by item. *)
Definition interleave (hs es : list (list byte)) : list byte :=
  concat (map (fun p => fst p ++ snd p) (combine hs es)).

(** ** The prefix reader as the spec writes it

    Section 4.1 of the spec, step by step, on mathematical integers.  Reading
    [B[s]] at an offset outside the buffer has no meaning there; it is the
    outcome [Panic] here. *)

Definition read_prefix_long (B : list byte) (is_string : bool) (c n : Z)
    : outcome (bool * Z * Z) :=
  if len B <=? c then Err ErrIncompleteInput
  else
    match byte_at B c with
    | None => Panic
    | Some lb =>
        if n =? 1
        then
          if byte_val lb <=? 55 then Err ErrNonCanonicalInput
          else Ok (is_string, c + 1, byte_val lb)
        else if byte_val lb =? 0 then Err ErrNonCanonicalInput
        else if len B <? c + n then Err ErrIncompleteInput
        else
          let L := be_value (seg B c (c + n)) in
          if L <=? 55 then Err ErrNonCanonicalInput
          else if GoInt.max_int <? L then Err ErrDataSizeTooLarge
          else Ok (is_string, c + n, L)
    end.

Definition read_prefix (B : list byte) (s : Z) : outcome (bool * Z * Z) :=
  if len B =? 0 then Err ErrEmptyInput
  else if len B <=? s then Err ErrInvalidStartIndex
  else
    match byte_at B s with
    | None => Panic
    | Some fb =>
        let f := byte_val fb in
        let c := s + 1 in
        if f <=? 0x7f then Ok (true, s, 1)
        else if f <=? 0xb7 then Ok (true, c, f - 0x80)
        else if f <=? 0xbf then read_prefix_long B true c (f - 0xb7)
        else if f <=? 0xf7 then Ok (false, c, f - 0xc0)
        else read_prefix_long B false c (f - 0xf7)
    end.

(** ** The standard RLP encoding rules

    The package has no encoder; these definitions follow the rules the spec
    refers to (section 3 and the glossary: the single shortest well-formed
    encoding). *)

Definition byte_of (z : Z) : byte :=
  match Byte.of_N (Z.to_N z) with
  | Some b => b
  | None => x00
  end.

(** The shortest big-endian representation of a length, at most [fuel] bytes. *)
Fixpoint be_bytes_aux (fuel : nat) (z : Z) (acc : list byte) : list byte :=
  match fuel with
  | O => acc
  | S fuel' =>
      if z <=? 0 then acc
      else be_bytes_aux fuel' (z / 256) (byte_of (z mod 256) :: acc)
  end.

Definition be_bytes (z : Z) : list byte := be_bytes_aux 8 z [].

Definition rlp_string_header (payload : list byte) : list byte :=
  let L := len payload in
  match payload with
  | [b] =>
      if byte_val b <=? 0x7f then [] else [byte_of (0x80 + L)]
  | _ =>
      if L <=? 55 then [byte_of (0x80 + L)]
      else byte_of (0xb7 + len (be_bytes L)) :: be_bytes L
  end.

Definition rlp_encode_string (payload : list byte) : list byte :=
  rlp_string_header payload ++ payload.

Definition rlp_list_header (L : Z) : list byte :=
  if L <=? 55 then [byte_of (0xc0 + L)]
  else byte_of (0xf7 + len (be_bytes L)) :: be_bytes L.

(** A list whose already encoded members are [items]. *)
Definition rlp_encode_list (items : list (list byte)) : list byte :=
  rlp_list_header (len (concat items)) ++ concat items.

(** An item that fills its buffer [w], and its payload [e]. *)
Definition whole_item (w e : list byte) : Prop :=
  exists k ds sz,
    ReadSize w 0 = Ok (k, ds, sz) /\ ds + sz = len w /\ e = seg w ds (len w).

(** ** ByteValueToByte (runtime/interpreter/conversion.go)

    The interpreter's [Value] interface and its implementations are declared
    outside the files at hand.  A value is modelled by what the type switch
    of [ByteValueToByte] observes of it: that its type implements
    [BigNumberValue], with the result of [ToBigInt()]; or that it implements
    [NumberValue] only, with the result of [ToInt()], a Go [int]; or
    neither. *)

Module Interpreter.

Inductive Value : Type :=
| BigNumberValue (ToBigInt : Z)
| NumberValue (ToInt : Z)
| OtherValue.

Inductive conversion_error : Type :=
| ErrNotInByteRange   (* "value is not in byte range (0-255)" *)
| ErrNotAnInteger.    (* "value is not an integer" *)

Definition MaxUint8 : Z := 255.

(** [big.Int.IsUint64]. *)
Definition IsUint64 (x : Z) : bool := (0 <=? x) && (x <? GoInt.modulus).

(** The conversion [byte(i)] of an integer: its low eight bits. *)
Definition to_byte (i : Z) : byte := byte_of (i mod 256).

Definition ByteValueToByte (element : Value) : byte + conversion_error :=
  match element with
  | BigNumberValue bigInt =>
      if negb (IsUint64 bigInt) then inr ErrNotInByteRange
      else
        let integer := GoInt.uwrap bigInt in
        if integer >? MaxUint8 then inr ErrNotInByteRange
        else inl (to_byte integer)
  | NumberValue integer =>
      if (integer <? 0) || (integer >? MaxUint8) then inr ErrNotInByteRange
      else inl (to_byte integer)
  | OtherValue => inr ErrNotAnInteger
  end.

End Interpreter.

(** ** StringValueDeclarationOrderedMap (generated ordered map of package sema)

    The map lives in Go's memory: [pairs] maps a key to a pointer to a
    [Pair], and the elements of [list] hold the same pointers, in insertion
    order.  A pointer is an index into the [heap] of pairs; a new pair is put
    at the end of the heap.  The element of [container/list] that holds a
    pair is identified with the pointer to the pair ([element.Value] is the
    pair and [pair.element] is the element).  [list.Init], called by [Clear],
    empties the list and leaves the links of the elements it drops as they
    were: [dropped] keeps the lists emptied so far.  An operation returns
    [None] where it would follow a pointer to no pair. *)

Module Sema.

Section OrderedMap.

(** [ValueDeclaration], and its zero value [nil]. *)
Variable V : Type.
Variable nilV : V.

Definition ptr : Type := nat.

Record Pair : Type := { Key : String.string; Value : V }.

Record OrderedMap : Type := {
  heap : list Pair;
  pairs : list (String.string * ptr);
  list_ : list ptr;
  dropped : list (list ptr)
}.

(** A Go map as a list of bindings without repeated keys. *)
Fixpoint map_get (m : list (String.string * ptr)) (key : String.string) : option ptr :=
  match m with
  | [] => None
  | (k, p) :: m' => if String.eqb key k then Some p else map_get m' key
  end.

Definition map_delete (m : list (String.string * ptr)) (key : String.string)
    : list (String.string * ptr) :=
  filter (fun e => negb (String.eqb key (fst e))) m.

Definition map_set (m : list (String.string * ptr)) (key : String.string) (p : ptr)
    : list (String.string * ptr) :=
  (key, p) :: map_delete m key.

(** [list.Remove]: takes the element out of the list. *)
Fixpoint list_remove (p : ptr) (l : list ptr) : list ptr :=
  match l with
  | [] => []
  | q :: l' => if Nat.eqb q p then l' else q :: list_remove p l'
  end.

(** The element after [p] in the list [l], if any. *)
Fixpoint list_next (p : ptr) (l : list ptr) : option ptr :=
  match l with
  | [] => None
  | q :: l' => if Nat.eqb q p then hd_error l' else list_next p l'
  end.

(** The element before [p] in the list [l], if any. *)
Fixpoint list_prev (p : ptr) (l : list ptr) : option ptr :=
  match l with
  | [] => None
  | q :: l' =>
      match l' with
      | [] => None
      | r :: _ => if Nat.eqb r p then Some q else list_prev p l'
      end
  end.

(** The list whose links the element [p] has: the first of [chains] that
    holds it, none for an element taken out by [list.Remove]. *)
Fixpoint chain_of (p : ptr) (chains : list (list ptr)) : list ptr :=
  match chains with
  | [] => []
  | c :: cs => if existsb (Nat.eqb p) c then c else chain_of p cs
  end.

(** [pair.Value = value] through the pointer [p]. *)
Fixpoint heap_set_value (h : list Pair) (p : ptr) (value : V) : list Pair :=
  match h, p with
  | [], _ => []
  | pr :: h', O => {| Key := Key pr; Value := value |} :: h'
  | pr :: h', S p' => pr :: heap_set_value h' p' value
  end.

Definition NewStringValueDeclarationOrderedMap (h : list Pair) : OrderedMap :=
  {| heap := h; pairs := []; list_ := []; dropped := [] |}.

Definition Clear (om : OrderedMap) : OrderedMap :=
  {| heap := heap om; pairs := []; list_ := [];
     dropped := list_ om :: dropped om |}.

Definition Get (om : OrderedMap) (key : String.string) : option (V * bool) :=
  match map_get (pairs om) key with
  | Some p =>
      match nth_error (heap om) p with
      | Some pr => Some (Value pr, true)
      | None => None
      end
  | None => Some (nilV, false)
  end.

Definition GetPair (om : OrderedMap) (key : String.string) : option ptr :=
  map_get (pairs om) key.

Definition Set_ (om : OrderedMap) (key : String.string) (value : V)
    : option (V * bool * OrderedMap) :=
  match map_get (pairs om) key with
  | Some p =>
      match nth_error (heap om) p with
      | Some pr =>
          Some (Value pr, true,
                {| heap := heap_set_value (heap om) p value;
                   pairs := pairs om;
                   list_ := list_ om;
                   dropped := dropped om |})
      | None => None
      end
  | None =>
      let p := length (heap om) in
      Some (nilV, false,
            {| heap := heap om ++ [{| Key := key; Value := value |}];
               pairs := map_set (pairs om) key p;
               list_ := list_ om ++ [p];
               dropped := dropped om |})
  end.

Definition Delete (om : OrderedMap) (key : String.string)
    : option (V * bool * OrderedMap) :=
  match map_get (pairs om) key with
  | None => Some (nilV, false, om)
  | Some p =>
      match nth_error (heap om) p with
      | Some pr =>
          Some (Value pr, true,
                {| heap := heap om;
                   pairs := map_delete (pairs om) key;
                   list_ := list_remove p (list_ om);
                   dropped := dropped om |})
      | None => None
      end
  end.

Definition Len (om : OrderedMap) : Z := len (pairs om).

(** [nil] is [None]. *)
Definition Oldest (om : OrderedMap) : option ptr := hd_error (list_ om).

Definition Newest (om : OrderedMap) : option ptr :=
  match list_ om with
  | [] => None
  | p :: l => Some (last l p)
  end.

(** [pair.element.Next()] and [pair.element.Prev()].  An element of the list
    has its neighbours there.  An element dropped by [Clear] still has the
    neighbours it had in the list that was emptied, and an element taken out
    by [Delete] has none. *)
Definition Next (om : OrderedMap) (p : ptr) : option ptr :=
  list_next p (chain_of p (list_ om :: dropped om)).

Definition Prev (om : OrderedMap) (p : ptr) : option ptr :=
  list_prev p (chain_of p (list_ om :: dropped om)).

(** The loop [for pair := om.Oldest(); pair != nil; pair = pair.Next()] of
    [Foreach], from the pair [cur] on, with a function [f] that does not touch
    the map and whose effect is a change of a state [A].  [fuel] bounds the
    number of iterations; the outer [None] means the bound was reached, the
    inner one a pointer to no pair. *)
Fixpoint Foreach_loop {A : Type} (fuel : nat) (om : OrderedMap)
    (f : String.string -> V -> A -> A) (cur : option ptr) (a : A)
    : option (option A) :=
  match cur with
  | None => Some (Some a)
  | Some p =>
      match fuel with
      | O => None
      | S fuel' =>
          match nth_error (heap om) p with
          | Some pr =>
              Foreach_loop fuel' om f (Next om p) (f (Key pr) (Value pr) a)
          | None => Some None
          end
      end
  end.

Definition Foreach {A : Type} (om : OrderedMap)
    (f : String.string -> V -> A -> A) (a : A) : option (option A) :=
  Foreach_loop (S (length (list_ om))) om f (Oldest om) a.

(** [ForeachWithError]: [f] may return an error [E], which ends the loop. *)
Fixpoint ForeachWithError_loop {A E : Type} (fuel : nat) (om : OrderedMap)
    (f : String.string -> V -> A -> A + E) (cur : option ptr) (a : A)
    : option (option (A + E)) :=
  match cur with
  | None => Some (Some (inl a))
  | Some p =>
      match fuel with
      | O => None
      | S fuel' =>
          match nth_error (heap om) p with
          | Some pr =>
              match f (Key pr) (Value pr) a with
              | inl a' => ForeachWithError_loop fuel' om f (Next om p) a'
              | inr err => Some (Some (inr err))
              end
          | None => Some None
          end
      end
  end.

Definition ForeachWithError {A E : Type} (om : OrderedMap)
    (f : String.string -> V -> A -> A + E) (a : A) : option (option (A + E)) :=
  ForeachWithError_loop (S (length (list_ om))) om f (Oldest om) a.

(** The pairs of the map in the order of its list, read from the heap. *)
Fixpoint read_pairs (h : list Pair) (l : list ptr) : option (list (String.string * V)) :=
  match l with
  | [] => Some []
  | p :: l' =>
      match nth_error h p, read_pairs h l' with
      | Some pr, Some es => Some ((Key pr, Value pr) :: es)
      | _, _ => None
      end
  end.

Definition entries (om : OrderedMap) : option (list (String.string * V)) :=
  read_pairs (heap om) (list_ om).

(** The map and the list hold the same pairs, each once, each in the heap
    and under its own key. *)
Definition in_sync (om : OrderedMap) : Prop :=
  NoDup (map fst (pairs om)) /\
  NoDup (list_ om) /\
  (forall k p, In (k, p) (pairs om) ->
     In p (list_ om) /\ exists pr, nth_error (heap om) p = Some pr /\ Key pr = k) /\
  (forall p, In p (list_ om) -> exists k, In (k, p) (pairs om)).

(** The pair a pointer leads to, as key and value; [nil] leads to none. *)
Definition pair_at (om : OrderedMap) (o : option ptr) : option (String.string * V) :=
  match o with
  | Some p =>
      match nth_error (heap om) p with
      | Some pr => Some (Key pr, Value pr)
      | None => None
      end
  | None => None
  end.

(** What a list of pairs gives for a key: the value of the first pair with
    that key and [true], or [nil] and [false]. *)
Definition lookup (es : list (String.string * V)) (key : String.string) : V * bool :=
  match find (fun e => String.eqb key (fst e)) es with
  | Some e => (snd e, true)
  | None => (nilV, false)
  end.

(** Folding [f] over pairs in order, until it reports an error. *)
Fixpoint fold_until {A E : Type} (f : String.string -> V -> A -> A + E)
    (es : list (String.string * V)) (a : A) : A + E :=
  match es with
  | [] => inl a
  | (k, v) :: es' =>
      match f k v a with
      | inl a' => fold_until f es' a'
      | inr err => inr err
      end
  end.

End OrderedMap.

Arguments Key {V} _.
Arguments Value {V} _.
Arguments heap {V} _.
Arguments pairs {V} _.
Arguments list_ {V} _.
Arguments dropped {V} _.
Arguments heap_set_value {V} _ _ _.
Arguments NewStringValueDeclarationOrderedMap {V} _.
Arguments Clear {V} _.
Arguments Get {V} _ _ _.
Arguments GetPair {V} _ _.
Arguments Set_ {V} _ _ _ _.
Arguments Delete {V} _ _ _.
Arguments Len {V} _.
Arguments Oldest {V} _.
Arguments Newest {V} _.
Arguments Next {V} _ _.
Arguments Prev {V} _ _.
Arguments Foreach_loop {V A} _ _ _ _ _.
Arguments Foreach {V A} _ _ _.
Arguments ForeachWithError_loop {V A E} _ _ _ _ _.
Arguments ForeachWithError {V A E} _ _ _.
Arguments read_pairs {V} _ _.
Arguments entries {V} _.
Arguments in_sync {V} _.
Arguments pair_at {V} _ _.
Arguments lookup {V} _ _ _.
Arguments fold_until {V A E} _ _ _.

End Sema.

(** ** The scenarios of the package's tests, run on the embedding *)

Example ReadSize_empty : ReadSize [] 0 = Err ErrEmptyInput.
Proof. reflexivity. Qed.

Example ReadSize_long_258 : ReadSize [xb9; x01; x02] 0 = Ok (true, 3, 258).
Proof. vm_compute. reflexivity. Qed.

Example ReadSize_too_large :
  ReadSize [xbf; xff; xff; xff; xff; xff; xff; xff; xff] 0 = Err ErrDataSizeTooLarge.
Proof. vm_compute. reflexivity. Qed.

Example DecodeString_dog :
  DecodeString [x83; x64; x6f; x67] 0 = Ok [x64; x6f; x67].
Proof. vm_compute. reflexivity. Qed.

Example DecodeString_dog_short :
  DecodeString [x83; x64; x6f] 0 = Err ErrIncompleteInput.
Proof. vm_compute. reflexivity. Qed.

Example DecodeList_size_mismatch :
  DecodeList [xcf; x87; x41; x42; x43; x44; x45; x46; x47;
              x87; x48; x49; x4a; x4b; x4c; x4d; x4e] 0
  = Some (Err ErrListSizeMismatch).
Proof. vm_compute. reflexivity. Qed.

(** The table of [TestRLPReadSize], in its order. *)
Example ReadSize_test_table :
  map (fun t => ReadSize (fst t) (snd t))
    [ ([], 0); ([x00], 1); ([x00], 0); ([x01], 0); ([x7f], 0);
      ([x80], 0); ([x81], 0); ([xb7], 0);
      ([xb8; x01], 0); ([xb8; x37], 0); ([xb8], 0);
      ([xb8; x38], 0); ([xb8; x39], 0); ([xb8; xff], 0);
      ([xb9; x01; x02], 0); ([xb9; x01], 0); ([xb8; x00; xff], 0);
      ([xba; x01; x00; x00], 0);
      ([xbf; x7f; xff; xff; xff; xff; xff; xff; xff], 0);
      ([xbf; xff; xff; xff; xff; xff; xff; xff; xff], 0);
      ([xc0], 0); ([xc1], 0); ([xf7], 0);
      ([xf8; x01], 0); ([xf8; x37], 0); ([xf8], 0);
      ([xf8; x38], 0); ([xf8; x39], 0); ([xf8; xff], 0);
      ([xf9; x01; x00], 0); ([xf9; x01], 0); ([xf8; x00; xff], 0);
      ([xfa; x01; x00; x00], 0);
      ([xff; x7f; xff; xff; xff; xff; xff; xff; xff], 0);
      ([xff; xff; xff; xff; xff; xff; xff; xff; xff], 0) ]
  = [ Err ErrEmptyInput; Err ErrInvalidStartIndex;
      Ok (true, 0, 1); Ok (true, 0, 1); Ok (true, 0, 1);
      Ok (true, 1, 0); Ok (true, 1, 1); Ok (true, 1, 55);
      Err ErrNonCanonicalInput; Err ErrNonCanonicalInput; Err ErrIncompleteInput;
      Ok (true, 2, 56); Ok (true, 2, 57); Ok (true, 2, 255);
      Ok (true, 3, 258); Err ErrIncompleteInput; Err ErrNonCanonicalInput;
      Ok (true, 4, 65536);
      Ok (true, 9, 9223372036854775807);
      Err ErrDataSizeTooLarge;
      Ok (false, 1, 0); Ok (false, 1, 1); Ok (false, 1, 55);
      Err ErrNonCanonicalInput; Err ErrNonCanonicalInput; Err ErrIncompleteInput;
      Ok (false, 2, 56); Ok (false, 2, 57); Ok (false, 2, 255);
      Ok (false, 3, 256); Err ErrIncompleteInput; Err ErrNonCanonicalInput;
      Ok (false, 4, 65536);
      Ok (false, 9, MaxLongLengthAllowed);
      Err ErrDataSizeTooLarge ].
Proof. vm_compute. reflexivity. Qed.

(** Cases of [TestDecodeString]. *)
Example DecodeString_test_cases :
  map (fun b => DecodeString b 0)
    [ [x80]; [xc0]; [x41]; [x41; x01]; [x83; x64; x6f; x67]; [x83];
      [x83; x64; x6f]; [x83; x64; x6f; x67; x01] ]
  = [ Ok []; Err ErrTypeMismatch; Ok [x41]; Err ErrInputContainsExtraBytes;
      Ok [x64; x6f; x67]; Err ErrIncompleteInput; Err ErrIncompleteInput;
      Err ErrInputContainsExtraBytes ].
Proof. vm_compute. reflexivity. Qed.

(** Cases of [TestDecodeList]. *)
Example DecodeList_test_cases :
  map (fun b => DecodeList b 0)
    [ [xc0]; [x80]; [xc1; xc0]; [xc3; xc0; xc0; xc0]; [xc1; x41];
      [xd0; x87; x41; x42; x43; x44; x45; x46; x47;
            x87; x48; x49; x4a; x4b; x4c; x4d; x4e];
      [xcf; x87; x41; x42; x43; x44; x45; x46; x47;
            x87; x48; x49; x4a; x4b; x4c; x4d; x4e];
      [xd0; x87; x41; x42; x43; x44; x45; x46; x47;
            x87; x48; x49; x4a; x4b; x4c; x4d; x4e; x01];
      [xce; x82; x41; x42; x82; x43; x44; x82; x45; x46; x80;
            x82; x47; x48; x80] ]
  = [ Some (Ok []); Some (Err ErrTypeMismatch); Some (Ok [[]]);
      Some (Ok [[]; []; []]); Some (Ok [[x41]]);
      Some (Ok [[x41; x42; x43; x44; x45; x46; x47];
                [x48; x49; x4a; x4b; x4c; x4d; x4e]]);
      Some (Err ErrListSizeMismatch);
      Some (Err ErrInputContainsExtraBytes);
      Some (Ok [[x41; x42]; [x43; x44]; [x45; x46]; []; [x47; x48]; []]) ].
Proof. vm_compute. reflexivity. Qed.

Example rlp_encode_string_dog :
  rlp_encode_string [x64; x6f; x67] = [x83; x64; x6f; x67].
Proof. vm_compute. reflexivity. Qed.

Example rlp_list_header_256 : rlp_list_header 256 = [xf9; x01; x00].
Proof. vm_compute. reflexivity. Qed.

(** ** Machine arithmetic *)

Lemma wrap_id z : GoInt.in_range z -> GoInt.wrap z = z.
Proof.
  unfold GoInt.in_range, GoInt.wrap, GoInt.min_int, GoInt.max_int, GoInt.modulus.
  intros H. rewrite Z.mod_small by lia. lia.
Qed.

Lemma wrap_range z : GoInt.in_range (GoInt.wrap z).
Proof.
  unfold GoInt.in_range, GoInt.wrap, GoInt.min_int, GoInt.max_int, GoInt.modulus.
  pose proof (Z.mod_pos_bound (z + 9223372036854775808) 18446744073709551616).
  lia.
Qed.

(** A sum of two non-negative [int]s that is too large comes out negative. *)
Lemma wrap_overflow a b :
  0 <= a <= GoInt.max_int -> 0 <= b <= GoInt.max_int ->
  GoInt.max_int < a + b -> GoInt.add a b < 0.
Proof.
  unfold GoInt.add, GoInt.wrap, GoInt.max_int, GoInt.modulus. intros Ha Hb Hab.
  replace (a + b + 9223372036854775808)
    with (a + b - 9223372036854775808 + 1 * 18446744073709551616) by lia.
  rewrite Z.mod_add by lia. rewrite Z.mod_small by lia. lia.
Qed.

Lemma add_id a b : GoInt.in_range (a + b) -> GoInt.add a b = a + b.
Proof. apply wrap_id. Qed.

Lemma sub_id a b : GoInt.in_range (a - b) -> GoInt.sub a b = a - b.
Proof. apply wrap_id. Qed.

Lemma of_uint_id u : GoInt.in_range u -> GoInt.of_uint u = u.
Proof. apply wrap_id. Qed.

Lemma uwrap_id u : 0 <= u < GoInt.modulus -> GoInt.uwrap u = u.
Proof. intros H. unfold GoInt.uwrap. apply Z.mod_small. exact H. Qed.

Lemma byte_val_range b : 0 <= byte_val b < 256.
Proof.
  unfold byte_val. pose proof (Byte.to_N_bounded b) as H. lia.
Qed.

Lemma byte_of_val b : byte_of (byte_val b) = b.
Proof.
  unfold byte_of, byte_val. rewrite N2Z.id. rewrite Byte.of_to_N. reflexivity.
Qed.

Lemma byte_sub_id a b : 0 <= a - b < 256 -> byte_sub a b = a - b.
Proof. intros H. unfold byte_sub. apply Z.mod_small. exact H. Qed.

(** ** Indexing and slicing *)

Lemma len_nonneg {A} (l : list A) : 0 <= len l.
Proof. unfold len. lia. Qed.

Lemma len_app {A} (l1 l2 : list A) : len (l1 ++ l2) = len l1 + len l2.
Proof. unfold len. rewrite length_app. lia. Qed.

Lemma index_inv l i b :
  index l i = Ok b -> 0 <= i < len l /\ byte_at l i = Some b.
Proof.
  unfold index, byte_at.
  destruct (Z.leb_spec 0 i); simpl; [|discriminate].
  destruct (Z.ltb_spec i (len l)); simpl; [|discriminate].
  destruct (nth_error l (Z.to_nat i)) eqn:E; [|discriminate].
  intros [= ->]. split; [lia | reflexivity].
Qed.

Lemma index_in_range l i :
  0 <= i < len l -> exists b, index l i = Ok b /\ byte_at l i = Some b.
Proof.
  intros H. unfold index, byte_at.
  destruct (Z.leb_spec 0 i); [|lia].
  destruct (Z.ltb_spec i (len l)); [|lia]. simpl.
  destruct (nth_error l (Z.to_nat i)) eqn:E.
  - eauto.
  - apply nth_error_None in E. unfold len in *. lia.
Qed.

Lemma index_out_of_range l i : i < 0 -> index l i = Panic.
Proof.
  intros H. unfold index. destruct (Z.leb_spec 0 i); [lia | reflexivity].
Qed.

Lemma byte_at_range l i b : byte_at l i = Some b -> 0 <= i < len l.
Proof.
  unfold byte_at. destruct (Z.leb_spec 0 i); [|discriminate].
  intros E. assert (nth_error l (Z.to_nat i) <> None) as N by congruence.
  apply nth_error_Some in N. unfold len. lia.
Qed.

Lemma slice_in_range l lo hi :
  0 <= lo <= hi -> hi <= len l -> slice l lo hi = Ok (seg l lo hi).
Proof.
  intros H1 H2. unfold slice.
  destruct (Z.leb_spec 0 lo); [|lia].
  destruct (Z.leb_spec lo hi); [|lia].
  destruct (Z.leb_spec hi (len l)); [|lia]. reflexivity.
Qed.

Lemma slice_inv l lo hi x :
  slice l lo hi = Ok x -> 0 <= lo <= hi /\ hi <= len l /\ x = seg l lo hi.
Proof.
  unfold slice.
  destruct (Z.leb_spec 0 lo); simpl; [|discriminate].
  destruct (Z.leb_spec lo hi); simpl; [|discriminate].
  destruct (Z.leb_spec hi (len l)); simpl; [|discriminate].
  intros [= <-]. repeat split; lia.
Qed.

Lemma slice_not_Err l lo hi e : slice l lo hi <> Err e.
Proof. unfold slice. destruct (_ && _); discriminate. Qed.

Lemma slice_negative_end l lo hi : hi < lo -> slice l lo hi = Panic.
Proof.
  intros H. unfold slice.
  destruct (Z.leb_spec lo hi); [lia|]. rewrite andb_false_r. reflexivity.
Qed.

Lemma firstn_plus {A} (n m : nat) (l : list A) :
  firstn (n + m) l = firstn n l ++ firstn m (skipn n l).
Proof.
  revert l. induction n as [|n IH]; intros l; simpl.
  - reflexivity.
  - destruct l as [|a l]; simpl.
    + rewrite firstn_nil. reflexivity.
    + rewrite IH. reflexivity.
Qed.

Lemma skipn_plus {A} (n m : nat) (l : list A) :
  skipn (n + m) l = skipn m (skipn n l).
Proof.
  revert l. induction n as [|n IH]; intros l; simpl.
  - reflexivity.
  - destruct l as [|a l]; simpl.
    + rewrite skipn_nil. reflexivity.
    + apply IH.
Qed.

Lemma seg_app l a b c :
  0 <= a <= b -> b <= c -> seg l a b ++ seg l b c = seg l a c.
Proof.
  intros H1 H2. unfold seg.
  replace (Z.to_nat (c - a)) with (Z.to_nat (b - a) + Z.to_nat (c - b))%nat by lia.
  rewrite firstn_plus. f_equal. f_equal.
  rewrite <- skipn_plus. f_equal. lia.
Qed.

Lemma seg_full l : seg l 0 (len l) = l.
Proof.
  unfold seg, len. simpl. rewrite Z.sub_0_r, Nat2Z.id. apply firstn_all.
Qed.

Lemma seg_empty l a : seg l a a = [].
Proof. unfold seg. rewrite Z.sub_diag. reflexivity. Qed.

Lemma len_seg l lo hi :
  0 <= lo <= hi -> hi <= len l -> len (seg l lo hi) = hi - lo.
Proof.
  intros H1 H2. unfold seg, len in *.
  rewrite length_firstn, length_skipn. lia.
Qed.

Lemma nth_error_skipn_hd {A} (l : list A) (n : nat) (x : A) :
  nth_error l n = Some x -> exists t, skipn n l = x :: t.
Proof.
  revert l. induction n as [|n IH]; intros [|a l]; simpl; try discriminate.
  - intros [= ->]. eauto.
  - apply IH.
Qed.

Lemma seg_head l i j b :
  byte_at l i = Some b -> i < j ->
  seg l i j = b :: seg l (i + 1) j.
Proof.
  intros Hb Hij. pose proof (byte_at_range _ _ _ Hb) as Hr.
  unfold byte_at in Hb. destruct (Z.leb_spec 0 i); [|lia].
  destruct (nth_error_skipn_hd _ _ _ Hb) as [t Ht].
  unfold seg. rewrite Ht.
  replace (Z.to_nat (j - i)) with (S (Z.to_nat (j - (i + 1)))) by lia.
  simpl. f_equal. f_equal.
  replace (Z.to_nat (i + 1)) with (Z.to_nat i + 1)%nat by lia.
  rewrite skipn_plus, Ht. reflexivity.
Qed.

Lemma seg_one l i b : byte_at l i = Some b -> seg l i (i + 1) = [b].
Proof.
  intros Hb. rewrite (seg_head l i (i + 1) b Hb) by lia.
  rewrite seg_empty. reflexivity.
Qed.

(** ** Big-endian length fields *)

Lemma BigEndian_Uint64_be_value l : BigEndian_Uint64 l = be_value l.
Proof. reflexivity. Qed.

Lemma len_cons {A} (x : A) (l : list A) : len (x :: l) = len l + 1.
Proof. unfold len. simpl length. lia. Qed.

Lemma be_fold_acc l a :
  fold_left (fun acc x => acc * 256 + byte_val x) l a
  = a * 256 ^ len l + be_value l.
Proof.
  unfold be_value. revert a. induction l as [|x l IH]; intros a.
  - cbn [fold_left]. change (len (@nil byte)) with 0. lia.
  - cbn [fold_left]. rewrite IH. rewrite (IH (0 * 256 + byte_val x)).
    rewrite len_cons. rewrite Z.pow_add_r by (pose proof (len_nonneg l); lia).
    ring.
Qed.

Lemma be_value_cons x l :
  be_value (x :: l) = byte_val x * 256 ^ len l + be_value l.
Proof.
  unfold be_value at 1. cbn [fold_left]. rewrite be_fold_acc. lia.
Qed.

Lemma be_value_snoc l x : be_value (l ++ [x]) = be_value l * 256 + byte_val x.
Proof. unfold be_value. rewrite fold_left_app. reflexivity. Qed.

Lemma be_value_bound l : 0 <= be_value l < 256 ^ len l.
Proof.
  induction l as [|x l IH].
  - unfold be_value, len. simpl. lia.
  - rewrite be_value_cons. pose proof (byte_val_range x).
    rewrite len_cons. rewrite Z.pow_add_r by (pose proof (len_nonneg l); lia).
    nia.
Qed.

Lemma be_value_zeros k l : be_value (repeat x00 k ++ l) = be_value l.
Proof.
  induction k as [|k IH]; simpl; [reflexivity|].
  rewrite be_value_cons. rewrite IH. change (byte_val x00) with 0. lia.
Qed.

Lemma be_value_single x : be_value [x] = byte_val x.
Proof. reflexivity. Qed.

Lemma firstn_repeat_le {A} (x : A) (k m : nat) :
  (k <= m)%nat -> firstn k (repeat x m) = repeat x k.
Proof.
  revert m. induction k as [|k IH]; intros m H; [reflexivity|].
  destruct m as [|m]; [lia|]. simpl. rewrite IH by lia. reflexivity.
Qed.

Lemma skipn_repeat_le {A} (x : A) (k m : nat) :
  skipn k (repeat x m) = repeat x (m - k).
Proof.
  revert m. induction k as [|k IH]; intros m.
  - simpl. rewrite Nat.sub_0_r. reflexivity.
  - destruct m as [|m]; [reflexivity|]. simpl. apply IH.
Qed.

(** The 8-byte scratch area of [ReadSize]: copying [n] length bytes into its
    lower part and reading it back gives the value of these bytes. *)
Lemma scratch_area n src :
  0 <= n <= 8 -> len src = n ->
  exists dst,
    slice_from (repeat x00 8) (8 - n) = Ok dst /\
    BigEndian_Uint64 (firstn (Z.to_nat (8 - n)) (repeat x00 8) ++ copy dst src)
    = be_value src.
Proof.
  intros Hn Hs. unfold slice_from.
  change (len (repeat x00 8)) with 8.
  rewrite slice_in_range by (change (len (repeat x00 8)) with 8; lia).
  eexists. split; [reflexivity|].
  rewrite BigEndian_Uint64_be_value.
  rewrite firstn_repeat_le by lia. rewrite be_value_zeros.
  unfold copy, seg. rewrite skipn_repeat_le.
  rewrite firstn_repeat_le by lia. rewrite repeat_length.
  unfold len in Hs.
  rewrite firstn_all2 by lia. rewrite skipn_all2 by (rewrite repeat_length; lia).
  rewrite app_nil_r. reflexivity.
Qed.

(** ** ReadSize computes the spec's prefix reader *)

Lemma long_form_kind_string f :
  0xb8 <= f <= 0xbf -> long_form_kind f = (f - 0xb7, true).
Proof.
  intros H. unfold long_form_kind, LongStringRangeStart, LongStringRangeEnd,
    LongListRangeStart, ShortStringRangeEnd.
  rewrite !Z.geb_leb.
  destruct (Z.leb_spec 0xb8 f); [|lia].
  destruct (Z.leb_spec f 0xbf); [|lia].
  destruct (Z.leb_spec 0xf8 f); [lia|].
  simpl. rewrite byte_sub_id by lia. reflexivity.
Qed.

Lemma long_form_kind_list f :
  0xf8 <= f <= 0xff -> long_form_kind f = (f - 0xf7, false).
Proof.
  intros H. unfold long_form_kind, LongStringRangeStart, LongStringRangeEnd,
    LongListRangeStart, ShortListRangeEnd.
  rewrite !Z.geb_leb.
  destruct (Z.leb_spec 0xf8 f); [|lia].
  cbv beta zeta iota. rewrite byte_sub_id by lia. reflexivity.
Qed.

Lemma in_range_intro z :
  -9223372036854775808 <= z <= 9223372036854775807 -> GoInt.in_range z.
Proof. intros H. exact H. Qed.

Lemma buf_ok_len {A} (l : list A) : buf_ok l -> len l <= 9223372036854775799.
Proof. intros H. exact H. Qed.

Ltac int_range := apply in_range_intro; lia.

Lemma ReadSize_long_part B s f n k :
  buf_ok B -> 0 <= s < len B -> 1 <= n <= 8 ->
  long_form_kind f = (n, k) ->
  (let '(bytesToReadForLen, isString) := long_form_kind f in
   if s + 1 >=? len B then Err ErrIncompleteInput
   else if bytesToReadForLen =? 1
   then
     bind (index B (s + 1)) (fun lb =>
     let strLen := byte_val lb in
     let startIndex := GoInt.add (s + 1) 1 in
     if strLen <=? MaxShortLengthAllowed then Err ErrNonCanonicalInput
     else Ok (isString, startIndex, GoInt.of_uint strLen))
   else
     let lenData := repeat x00 8 in
     let start := GoInt.of_uint (GoInt.usub 8 bytesToReadForLen) in
     bind (index B (s + 1)) (fun z =>
     if byte_val z =? 0 then Err ErrNonCanonicalInput
     else
       let endIndex := GoInt.add (s + 1) (GoInt.of_uint bytesToReadForLen) in
       if endIndex >? len B then Err ErrIncompleteInput
       else
         bind (slice_from lenData start) (fun dst =>
         bind (slice B (s + 1) endIndex) (fun src =>
         let lenData := firstn (Z.to_nat start) lenData ++ copy dst src in
         let startIndex := GoInt.add (s + 1) (GoInt.of_uint bytesToReadForLen) in
         let strLen := GoInt.uwrap (BigEndian_Uint64 lenData) in
         if strLen <=? MaxShortLengthAllowed then Err ErrNonCanonicalInput
         else if strLen >? MaxLongLengthAllowed then Err ErrDataSizeTooLarge
         else Ok (isString, startIndex, GoInt.of_uint strLen)))))
  = read_prefix_long B k (s + 1) n.
Proof.
  intros Hok Hs Hn Ek. apply buf_ok_len in Hok.
  rewrite Ek. cbv beta iota zeta. unfold read_prefix_long.
  unfold MaxShortLengthAllowed, MaxLongLengthAllowed.
  rewrite Z.geb_leb.
  destruct (Z.leb_spec (len B) (s + 1)); [reflexivity|].
  destruct (index_in_range B (s + 1)) as (lb & Hi1 & Hb1); [lia|].
  rewrite Hi1, Hb1. unfold bind at 1 2. pose proof (byte_val_range lb).
  rewrite (of_uint_id n) by int_range.
  destruct (Z.eqb_spec n 1) as [->|Hn1].
  - rewrite add_id by int_range. rewrite of_uint_id by int_range. reflexivity.
  - destruct (Z.eqb_spec (byte_val lb) 0); [reflexivity|].
    rewrite (add_id (s + 1) n) by int_range.
    rewrite Z.gtb_ltb.
    destruct (Z.ltb_spec (len B) (s + 1 + n)); [reflexivity|].
    unfold GoInt.usub. rewrite uwrap_id by (unfold GoInt.modulus; lia).
    rewrite of_uint_id by int_range.
    destruct (scratch_area n (seg B (s + 1) (s + 1 + n))) as (dst & Hd & Hv);
      [lia | rewrite len_seg; lia |].
    rewrite Hd. rewrite slice_in_range by lia. unfold bind.
    rewrite Hv. cbv zeta.
    pose proof (be_value_bound (seg B (s + 1) (s + 1 + n))) as Hbd.
    rewrite len_seg in Hbd by lia.
    assert (256 ^ (s + 1 + n - (s + 1)) <= 256 ^ 8) as Hp
      by (apply Z.pow_le_mono_r; lia).
    change (256 ^ 8) with 18446744073709551616 in Hp.
    rewrite uwrap_id by (unfold GoInt.modulus; lia).
    destruct (Z.leb_spec (be_value (seg B (s + 1) (s + 1 + n))) 55); [reflexivity|].
    rewrite Z.gtb_ltb. unfold GoInt.max_int.
    destruct (Z.ltb_spec 9223372036854775807 (be_value (seg B (s + 1) (s + 1 + n))));
      [reflexivity|].
    rewrite of_uint_id by int_range. reflexivity.
Qed.

Theorem ReadSize_read_prefix B s :
  buf_ok B -> ReadSize B s = read_prefix B s.
Proof.
  intros Hok. pose proof (buf_ok_len _ Hok) as Hlen.
  unfold ReadSize, read_prefix.
  destruct (Z.eqb_spec (len B) 0) as [|Hne]; [reflexivity|].
  rewrite Z.geb_leb.
  destruct (Z.leb_spec (len B) s) as [|Hlt]; [reflexivity|].
  destruct (Z_lt_le_dec s 0) as [Hneg|Hpos].
  { rewrite index_out_of_range by lia. unfold byte_at.
    destruct (Z.leb_spec 0 s); [lia|]. reflexivity. }
  destruct (index_in_range B s) as (fb & Hi & Hb); [lia|].
  rewrite Hi, Hb. unfold bind at 1. pose proof (byte_val_range fb) as Hf.
  cbv zeta.
  rewrite (add_id s 1) by int_range.
  rewrite (sub_id (s + 1) 1) by int_range.
  unfold ByteRangeEnd, ShortStringRangeEnd, ShortStringRangeStart,
    ShortListRangeStart, ShortListRangeEnd.
  destruct (Z.leb_spec (byte_val fb) 0x7f).
  { replace (s + 1 - 1) with s by lia. reflexivity. }
  destruct (Z.leb_spec (byte_val fb) 0xb7).
  { rewrite byte_sub_id, of_uint_id by (try int_range; lia). reflexivity. }
  rewrite Z.geb_leb.
  destruct (Z.leb_spec (byte_val fb) 0xbf).
  { destruct (Z.leb_spec 0xc0 (byte_val fb)); [lia|]. cbv beta iota. simpl andb.
    cbv iota.
    apply (ReadSize_long_part B s (byte_val fb) (byte_val fb - 0xb7) true);
      try assumption; try lia.
    apply long_form_kind_string; lia. }
  destruct (Z.leb_spec 0xc0 (byte_val fb)); [|lia].
  destruct (Z.leb_spec (byte_val fb) 0xf7).
  { simpl andb. cbv iota.
    rewrite byte_sub_id, of_uint_id by (try int_range; lia). reflexivity. }
  simpl andb. cbv iota.
  apply (ReadSize_long_part B s (byte_val fb) (byte_val fb - 0xf7) false);
    try assumption; try lia.
  apply long_form_kind_list; lia.
Qed.

(** ** The prefix reader and the item descriptor *)

Lemma item_at_bounds B s k ds sz :
  item_at B s k ds sz ->
  0 <= s < len B /\ s <= ds <= len B /\ 0 <= sz <= GoInt.max_int /\ s < ds + sz.
Proof.
  intros H; destruct H;
    match goal with Hb : byte_at B s = Some ?fb |- _ =>
      pose proof (byte_at_range _ _ _ Hb); pose proof (byte_val_range fb)
    end; unfold GoInt.max_int in *; lia.
Qed.

(** The header bytes of the item at [s] and its tag. *)
Lemma item_at_tag B s k ds sz :
  item_at B s k ds sz ->
  exists fb, byte_at B s = Some fb /\
    ds = (if byte_val fb <=? 0x7f then s else s + header_size (byte_val fb)).
Proof.
  intros H; destruct H;
    match goal with Hb : byte_at B s = Some ?fb |- _ =>
      exists fb; split; [exact Hb|]; pose proof (byte_val_range fb)
    end; unfold header_size;
    repeat match goal with
    | |- context [?a <=? ?b] => destruct (Z.leb_spec a b)
    end; lia.
Qed.

(** The four shapes of an item, as one case distinction. *)
Lemma item_at_cases B s k ds sz :
  item_at B s k ds sz ->
  exists fb, byte_at B s = Some fb /\
    ((byte_val fb <= 0x7f /\ k = true /\ ds = s /\ sz = 1) \/
     (0x80 <= byte_val fb <= 0xb7 /\ k = true /\ ds = s + 1 /\
      sz = byte_val fb - 0x80) \/
     (0xc0 <= byte_val fb <= 0xf7 /\ k = false /\ ds = s + 1 /\
      sz = byte_val fb - 0xc0) \/
     (exists n lb base,
        ((k = true /\ base = 0xb7 /\ byte_val fb <= 0xbf) \/
         (k = false /\ base = 0xf7 /\ 0xf8 <= byte_val fb)) /\
        byte_val fb = base + n /\ 1 <= n <= 8 /\
        ds = s + 1 + n /\ ds <= len B /\
        byte_at B (s + 1) = Some lb /\ byte_val lb <> 0 /\
        sz = be_value (seg B (s + 1) (s + 1 + n)) /\
        55 < sz <= GoInt.max_int)).
Proof.
  intros H. destruct H as [fb Hb Hf|fb Hb Hf|fb Hb Hf|fb k n lb Hb Hk Hn Hlb Hnz Hv];
    exists fb; (split; [exact Hb|]); pose proof (byte_val_range fb).
  - left. repeat split; lia.
  - right; left. repeat split; lia.
  - right; right; left. repeat split; lia.
  - right; right; right.
    destruct Hk as [(-> & Hr & ->)|(-> & Hr & ->)].
    + exists (byte_val fb - 0xb7), lb, 0xb7.
      split; [left; repeat split; lia|]. repeat split; try assumption; lia.
    + exists (byte_val fb - 0xf7), lb, 0xf7.
      split; [right; repeat split; lia|]. repeat split; try assumption; lia.
Qed.

Lemma read_prefix_sound B s k ds sz :
  read_prefix B s = Ok (k, ds, sz) -> item_at B s k ds sz.
Proof.
  unfold read_prefix. intros H.
  destruct (Z.eqb_spec (len B) 0) as [|Hne]; [discriminate|].
  destruct (Z.leb_spec (len B) s) as [|Hlt]; [discriminate|].
  destruct (byte_at B s) as [fb|] eqn:Hb; [|discriminate].
  cbv zeta in H. pose proof (byte_val_range fb) as Hf.
  assert (forall k0 n,
            1 <= n <= 8 ->
            (k0 = true /\ 0xb8 <= byte_val fb <= 0xbf /\ n = byte_val fb - 0xb7) \/
            (k0 = false /\ 0xf8 <= byte_val fb /\ n = byte_val fb - 0xf7) ->
            read_prefix_long B k0 (s + 1) n = Ok (k, ds, sz) ->
            item_at B s k ds sz) as Hl.
  { intros k0 n Hn Hk. unfold read_prefix_long.
    destruct (Z.leb_spec (len B) (s + 1)) as [|Hlt1]; [discriminate|].
    destruct (byte_at B (s + 1)) as [lb|] eqn:Hlb; [|discriminate].
    pose proof (byte_val_range lb) as Hlbr.
    destruct (Z.eqb_spec n 1) as [->|Hn1].
    - destruct (Z.leb_spec (byte_val lb) 55); [discriminate|].
      intros [= <- <- <-].
      replace (byte_val lb) with (be_value (seg B (s + 1) (s + 1 + 1)))
        by (rewrite (seg_one _ _ _ Hlb); reflexivity).
      eapply item_long; eauto; try lia.
      rewrite (seg_one _ _ _ Hlb), be_value_single. unfold GoInt.max_int. lia.
    - destruct (Z.eqb_spec (byte_val lb) 0); [discriminate|].
      destruct (Z.ltb_spec (len B) (s + 1 + n)); [discriminate|]. cbv zeta.
      destruct (Z.leb_spec (be_value (seg B (s + 1) (s + 1 + n))) 55);
        [discriminate|].
      destruct (Z.ltb_spec GoInt.max_int (be_value (seg B (s + 1) (s + 1 + n))));
        [discriminate|].
      intros [= <- <- <-]. eapply item_long; eauto; lia. }
  destruct (Z.leb_spec (byte_val fb) 0x7f).
  { injection H as <- <- <-. eapply item_single; eauto. }
  destruct (Z.leb_spec (byte_val fb) 0xb7).
  { injection H as <- <- <-. eapply item_short_string; eauto. lia. }
  destruct (Z.leb_spec (byte_val fb) 0xbf).
  { apply (Hl true (byte_val fb - 0xb7)); [lia | left; repeat split; lia | exact H]. }
  destruct (Z.leb_spec (byte_val fb) 0xf7).
  { injection H as <- <- <-. eapply item_short_list; eauto. lia. }
  apply (Hl false (byte_val fb - 0xf7)); [lia | right; repeat split; lia | exact H].
Qed.

(** The descriptor [ReadSize] returns is the one the spec assigns. *)
Lemma ReadSize_sound B s k ds sz :
  buf_ok B -> ReadSize B s = Ok (k, ds, sz) -> item_at B s k ds sz.
Proof.
  intros Hok H. rewrite ReadSize_read_prefix in H by exact Hok.
  apply read_prefix_sound. exact H.
Qed.

Lemma read_prefix_complete B s k ds sz :
  item_at B s k ds sz -> read_prefix B s = Ok (k, ds, sz).
Proof.
  intros H. pose proof (item_at_bounds _ _ _ _ _ H) as (Hs & _).
  unfold read_prefix.
  destruct (Z.eqb_spec (len B) 0) as [|Hne]; [lia|].
  destruct (Z.leb_spec (len B) s) as [|Hlt]; [lia|].
  destruct H as [fb Hb Hf|fb Hb Hf|fb Hb Hf|fb k n lb Hb Hk Hn Hlb Hnz Hv];
    rewrite Hb; cbv zeta; pose proof (byte_val_range fb).
  - destruct (Z.leb_spec (byte_val fb) 0x7f); [reflexivity|lia].
  - destruct (Z.leb_spec (byte_val fb) 0x7f); [lia|].
    destruct (Z.leb_spec (byte_val fb) 0xb7); [reflexivity|lia].
  - destruct (Z.leb_spec (byte_val fb) 0x7f); [lia|].
    destruct (Z.leb_spec (byte_val fb) 0xb7); [lia|].
    destruct (Z.leb_spec (byte_val fb) 0xbf); [lia|].
    destruct (Z.leb_spec (byte_val fb) 0xf7); [reflexivity|lia].
  - assert (read_prefix_long B k (s + 1) n
            = Ok (k, s + 1 + n, be_value (seg B (s + 1) (s + 1 + n)))) as Hl.
    { unfold read_prefix_long.
      pose proof (byte_at_range _ _ _ Hlb).
      destruct (Z.leb_spec (len B) (s + 1)); [lia|]. rewrite Hlb.
      destruct (Z.eqb_spec n 1) as [->|Hn1].
      - rewrite (seg_one _ _ _ Hlb), be_value_single in *.
        destruct (Z.leb_spec (byte_val lb) 55); [lia|]. reflexivity.
      - destruct (Z.eqb_spec (byte_val lb) 0); [lia|].
        destruct (Z.ltb_spec (len B) (s + 1 + n)); [lia|]. cbv zeta.
        destruct (Z.leb_spec (be_value (seg B (s + 1) (s + 1 + n))) 55); [lia|].
        destruct (Z.ltb_spec GoInt.max_int (be_value (seg B (s + 1) (s + 1 + n))));
          [lia|]. reflexivity. }
    destruct (Z.leb_spec (byte_val fb) 0x7f); [lia|].
    destruct (Z.leb_spec (byte_val fb) 0xb7); [lia|].
    destruct Hk as [(-> & Hr & ->)|(-> & Hr & ->)].
    + destruct (Z.leb_spec (byte_val fb) 0xbf); [exact Hl|lia].
    + destruct (Z.leb_spec (byte_val fb) 0xbf); [lia|].
      destruct (Z.leb_spec (byte_val fb) 0xf7); [lia|exact Hl].
Qed.

(** [ReadSize] returns a descriptor exactly when the spec assigns it. *)
Lemma ReadSize_item_at B s k ds sz :
  buf_ok B -> (ReadSize B s = Ok (k, ds, sz) <-> item_at B s k ds sz).
Proof.
  intros Hok. split.
  - apply ReadSize_sound. exact Hok.
  - intros H. rewrite ReadSize_read_prefix by exact Hok.
    apply read_prefix_complete. exact H.
Qed.

Lemma read_prefix_no_panic B s : 0 <= s -> read_prefix B s <> Panic.
Proof.
  intros Hs. unfold read_prefix.
  destruct (Z.eqb_spec (len B) 0) as [|Hne]; [discriminate|].
  destruct (Z.leb_spec (len B) s) as [|Hlt]; [discriminate|].
  destruct (index_in_range B s) as (fb & _ & Hb); [lia|]. rewrite Hb. cbv zeta.
  assert (forall k n, read_prefix_long B k (s + 1) n <> Panic) as Hl.
  { intros k n. unfold read_prefix_long.
    destruct (Z.leb_spec (len B) (s + 1)) as [|Hlt1]; [discriminate|].
    destruct (index_in_range B (s + 1)) as (lb & _ & Hlb); [lia|]. rewrite Hlb.
    repeat match goal with
    | |- context [if ?c then _ else _] => destruct c
    end; discriminate. }
  repeat match goal with
  | |- (if ?c then _ else _) <> _ => destruct c
  end; try discriminate; apply Hl.
Qed.

(** Under [0 <= startIndex] every buffer access of [ReadSize] is in range. *)
Lemma ReadSize_no_panic B s : buf_ok B -> 0 <= s -> ReadSize B s <> Panic.
Proof.
  intros Hok Hs. rewrite ReadSize_read_prefix by exact Hok.
  apply read_prefix_no_panic. exact Hs.
Qed.

Lemma ReadSize_negative_start B s :
  B <> [] -> s < 0 -> ReadSize B s = Panic.
Proof.
  intros HB Hs. unfold ReadSize.
  destruct (Z.eqb_spec (len B) 0) as [E|_].
  { destruct B; [congruence | rewrite len_cons in E; pose proof (len_nonneg B); lia]. }
  rewrite Z.geb_leb. pose proof (len_nonneg B).
  destruct (Z.leb_spec (len B) s); [lia|].
  rewrite index_out_of_range by exact Hs. reflexivity.
Qed.

Lemma buf_ok_small {A} (l : list A) : (length l <= 1000)%nat -> buf_ok l.
Proof. intros H. unfold buf_ok, len, GoInt.max_int. lia. Qed.

(** ** The loop of DecodeList *)

Lemma loop_step_end ds sz (B item : list byte) :
  0 <= sz <= GoInt.max_int -> ds <= len B -> buf_ok B ->
  slice B ds (GoInt.add ds sz) = Ok item ->
  GoInt.add ds sz = ds + sz /\ ds + sz <= len B /\ item = seg B ds (ds + sz).
Proof.
  intros Hsz Hds Hok Hsl. apply slice_inv in Hsl as (H1 & H2 & ->).
  destruct (Z_le_gt_dec (ds + sz) GoInt.max_int) as [Hle|Hgt].
  - rewrite add_id in * by (unfold GoInt.in_range, GoInt.min_int; unfold GoInt.max_int in *; lia).
    repeat split; lia.
  - pose proof (wrap_overflow ds sz) as Ho.
    unfold buf_ok in Hok. lia.
Qed.

Lemma DecodeList_loop_sound fuel B L : forall c br acc c' br' acc',
  buf_ok B -> 0 <= br <= c -> c <= len B ->
  DecodeList_loop fuel B L (c, br, acc) = Some (Ok (c', br', acc')) ->
  exists hs es,
    acc' = acc ++ es /\ sub_items B c hs es c' /\
    br' = br + (c' - c) /\ c <= c' <= len B /\ L <= br'.
Proof.
  induction fuel as [|fuel IH]; intros c br acc c' br' acc' Hok Hbr Hc H.
  - simpl in H. destruct (Z.ltb_spec br L); [discriminate|].
    injection H as <- <- <-. exists [], []. rewrite app_nil_r.
    repeat split; try lia. constructor.
  - simpl in H. destruct (Z.ltb_spec br L).
    2:{ injection H as <- <- <-. exists [], []. rewrite app_nil_r.
        repeat split; try lia. constructor. }
    destruct (ReadSize B c) as [[[k ds] sz]| |] eqn:Hr; try discriminate.
    apply ReadSize_sound in Hr; [|exact Hok].
    pose proof (item_at_bounds _ _ _ _ _ Hr) as (Hb1 & Hb2 & Hb3 & Hb4).
    rewrite Z.gtb_ltb in H.
    destruct (Z.ltb_spec (len B) (GoInt.add ds sz)); [discriminate|].
    destruct (slice B ds (GoInt.add ds sz)) as [item| |] eqn:Hsl; try discriminate.
    destruct (loop_step_end ds sz B item) as (He & Hle & ->); try assumption; try lia.
    rewrite He in H. pose proof (buf_ok_len _ Hok).
    rewrite sub_id in H by int_range. rewrite add_id in H by int_range.
    apply IH in H; try assumption; try lia.
    destruct H as (hs & es & -> & Hs & -> & Hcc & HL).
    exists (seg B c ds :: hs), (seg B ds (ds + sz) :: es).
    rewrite <- app_assoc. repeat split; try lia.
    econstructor; eauto.
Qed.

(** The loop ends within [len(inp) - itemStartIndex + 1] iterations. *)
Lemma DecodeList_loop_total fuel B L : forall c br acc,
  buf_ok B -> 0 <= br <= c -> c <= len B ->
  len B - c < Z.of_nat fuel ->
  exists r, DecodeList_loop fuel B L (c, br, acc) = Some r.
Proof.
  induction fuel as [|fuel IH]; intros c br acc Hok Hbr Hc Hf; [lia|].
  simpl. destruct (Z.ltb_spec br L); [|eauto].
  destruct (ReadSize B c) as [[[k ds] sz]| |] eqn:Hr; eauto.
  apply ReadSize_sound in Hr; [|exact Hok].
  pose proof (item_at_bounds _ _ _ _ _ Hr) as (Hb1 & Hb2 & Hb3 & Hb4).
  destruct (GoInt.add ds sz >? len B); eauto.
  destruct (slice B ds (GoInt.add ds sz)) as [item| |] eqn:Hsl; eauto.
  destruct (loop_step_end ds sz B item) as (He & Hle & ->); try assumption; try lia.
  rewrite He. pose proof (buf_ok_len _ Hok).
  rewrite sub_id by int_range. rewrite add_id by int_range.
  apply IH; try assumption; lia.
Qed.

(** More fuel does not change a result. *)
Lemma DecodeList_loop_fuel_mono fuel B L : forall st r k,
  DecodeList_loop fuel B L st = Some r ->
  DecodeList_loop (fuel + k) B L st = Some r.
Proof.
  induction fuel as [|fuel IH]; intros [[c br] acc] r k H.
  - simpl in H. destruct (br <? L) eqn:E; [discriminate|].
    destruct k; simpl; rewrite E; exact H.
  - simpl in H |- *. destruct (br <? L); [|exact H].
    destruct (ReadSize B c) as [[[k0 ds] sz]| |]; try exact H.
    destruct (GoInt.add ds sz >? len B); [exact H|].
    destruct (slice B ds (GoInt.add ds sz)); try exact H.
    apply IH. exact H.
Qed.

(** [DecodeList] always returns: an outcome exists for every buffer and
    every start index. *)
Lemma DecodeList_total B s : buf_ok B -> exists r, DecodeList B s = Some r.
Proof.
  intros Hok. unfold DecodeList, DecodeList_fuel.
  destruct (ReadSize B s) as [[[k ds] sz]| |] eqn:Hr; eauto.
  destruct k; eauto.
  apply ReadSize_sound in Hr; [|exact Hok].
  pose proof (item_at_bounds _ _ _ _ _ Hr) as (Hb1 & Hb2 & Hb3 & Hb4).
  destruct (DecodeList_loop_total (S (length B)) B sz ds 0 []) as [r Hl];
    try assumption; try lia.
  { unfold len in *. lia. }
  rewrite Hl. destruct r as [[[c' br'] acc']| |]; eauto.
  destruct (negb _); eauto. destruct (_ >? _); eauto.
Qed.

Lemma DecodeList_fuel_mono fuel B s r k :
  DecodeList_fuel fuel B s = Some r -> DecodeList_fuel (fuel + k) B s = Some r.
Proof.
  unfold DecodeList_fuel.
  destruct (ReadSize B s) as [[[k0 ds] sz]| |]; try (intros H; exact H).
  destruct k0; [intros H; exact H|].
  destruct (DecodeList_loop fuel B sz (ds, 0, [])) as [o|] eqn:E; [|discriminate].
  rewrite (DecodeList_loop_fuel_mono _ _ _ _ _ k E). intros H; exact H.
Qed.

(** ** Running the loop over sub-items that are there *)

Lemma sub_items_count B c0 hs es c :
  sub_items B c0 hs es c -> c0 <= len B ->
  Z.of_nat (length es) <= c - c0 /\ c <= len B.
Proof.
  intros H. induction H as [c|c k ds sz hs es c' Hi Hle Hs IH]; intros Hc.
  - simpl. lia.
  - pose proof (item_at_bounds _ _ _ _ _ Hi) as (Hb1 & Hb2 & Hb3 & Hb4).
    destruct IH as (IH1 & IH2); [lia|]. simpl length. lia.
Qed.

Lemma DecodeList_loop_prefix B L c0 hs es c :
  sub_items B c0 hs es c -> buf_ok B ->
  forall fuel br acc,
    0 <= br <= c0 -> br + (c - c0) <= L ->
    DecodeList_loop (length es + fuel) B L (c0, br, acc)
    = DecodeList_loop fuel B L (c, br + (c - c0), acc ++ es).
Proof.
  intros H Hok. pose proof (buf_ok_len _ Hok) as Hlen.
  induction H as [c|c k ds sz hs es c' Hi Hle Hs IH]; intros fuel br acc Hbr HL.
  - simpl. rewrite app_nil_r. replace (br + (c - c)) with br by lia. reflexivity.
  - pose proof (item_at_bounds _ _ _ _ _ Hi) as (Hb1 & Hb2 & Hb3 & Hb4).
    destruct (sub_items_count _ _ _ _ _ Hs) as (Hn & Hc'); [lia|].
    cbn [length Nat.add DecodeList_loop].
    destruct (Z.ltb_spec br L); [|lia].
    apply ReadSize_item_at in Hi; [|exact Hok]. rewrite Hi.
    rewrite add_id by int_range. rewrite Z.gtb_ltb.
    destruct (Z.ltb_spec (len B) (ds + sz)); [lia|].
    rewrite slice_in_range by lia.
    rewrite sub_id by int_range. rewrite add_id by int_range.
    rewrite IH by lia. rewrite <- app_assoc. simpl app.
    replace (br + (ds + sz - c) + (c' - (ds + sz))) with (br + (c' - c)) by lia.
    reflexivity.
Qed.

(** With the sub-items up to [c] read and list payload still expected, the
    loop turns to the item at [c]. *)
Ltac loop_reaches Hok Hr Hs :=
  let Hi := fresh "Hi" in
  pose proof (ReadSize_sound _ _ _ _ _ Hok Hr) as Hi;
  let Hb1 := fresh "Hb" in let Hb2 := fresh "Hb" in
  pose proof (item_at_bounds _ _ _ _ _ Hi) as (Hb1 & Hb2 & _);
  let Hn := fresh "Hn" in let Hc := fresh "Hc" in
  destruct (sub_items_count _ _ _ _ _ Hs) as (Hn & Hc); [lia|];
  unfold DecodeList, DecodeList_fuel; rewrite Hr;
  match type of Hs with
  | sub_items ?B ?ds ?hs ?es ?c =>
      replace (S (length B)) with (length es + S (length B - length es))%nat
        by (unfold len in *; lia);
      rewrite (DecodeList_loop_prefix B _ ds hs es c Hs Hok) by lia;
      cbn [DecodeList_loop]
  end.

Lemma DecodeList_error_at B s ds L hs es c e :
  buf_ok B -> ReadSize B s = Ok (false, ds, L) ->
  sub_items B ds hs es c -> c - ds < L ->
  ReadSize B c = Err e ->
  DecodeList B s = Some (Err e).
Proof.
  intros Hok Hr Hs HL He. loop_reaches Hok Hr Hs.
  destruct (Z.ltb_spec (0 + (c - ds)) L); [|lia].
  rewrite He. reflexivity.
Qed.

Lemma DecodeList_incomplete_at B s ds L hs es c k ds' sz' :
  buf_ok B -> ReadSize B s = Ok (false, ds, L) ->
  sub_items B ds hs es c -> c - ds < L ->
  ReadSize B c = Ok (k, ds', sz') ->
  len B < ds' + sz' <= GoInt.max_int ->
  DecodeList B s = Some (Err ErrIncompleteInput).
Proof.
  intros Hok Hr Hs HL Hc Hend. loop_reaches Hok Hr Hs.
  destruct (Z.ltb_spec (0 + (c - ds)) L); [|lia].
  rewrite Hc. pose proof (len_nonneg B).
  rewrite add_id by (unfold GoInt.in_range, GoInt.min_int; lia).
  rewrite Z.gtb_ltb. destruct (Z.ltb_spec (len B) (ds' + sz')); [reflexivity|lia].
Qed.

Lemma ReadSize_truncated_header B s fb :
  buf_ok B -> byte_at B s = Some fb ->
  0xb8 <= byte_val fb <= 0xbf \/ 0xf8 <= byte_val fb ->
  len B < s + header_size (byte_val fb) ->
  (forall lb, byte_at B (s + 1) = Some lb -> byte_val lb <> 0) ->
  ReadSize B s = Err ErrIncompleteInput.
Proof.
  intros Hok Hb Hf Hlen Hnz. rewrite ReadSize_read_prefix by exact Hok.
  pose proof (byte_at_range _ _ _ Hb) as Hs. pose proof (byte_val_range fb).
  unfold read_prefix.
  destruct (Z.eqb_spec (len B) 0) as [|Hne]; [lia|].
  destruct (Z.leb_spec (len B) s) as [|Hlt]; [lia|].
  rewrite Hb. cbv zeta.
  assert (forall k n, len B < s + 1 + n ->
            read_prefix_long B k (s + 1) n = Err ErrIncompleteInput) as Hl.
  { intros k n Hn. unfold read_prefix_long.
    destruct (Z.leb_spec (len B) (s + 1)) as [|Hlt1]; [reflexivity|].
    destruct (index_in_range B (s + 1)) as (lb & _ & Hlb); [lia|]. rewrite Hlb.
    specialize (Hnz lb Hlb).
    destruct (Z.eqb_spec n 1); [lia|].
    destruct (Z.eqb_spec (byte_val lb) 0); [lia|].
    destruct (Z.ltb_spec (len B) (s + 1 + n)); [reflexivity|lia]. }
  revert Hlen. unfold header_size.
  destruct (Z.leb_spec (byte_val fb) 0x7f); [lia|].
  destruct (Z.leb_spec (byte_val fb) 0xb7); [lia|].
  destruct (Z.leb_spec (byte_val fb) 0xbf); [intros; apply Hl; lia|].
  destruct (Z.leb_spec (byte_val fb) 0xf7); [lia|].
  intros; apply Hl; lia.
Qed.

(** ** What an accepted buffer looks like *)

Lemma DecodeString_accept_inv B p :
  buf_ok B -> DecodeString B 0 = Ok p ->
  (exists fb, B = [fb] /\ byte_val fb <= 0x7f /\ p = [fb]) \/
  (exists ds L, item_at B 0 true ds L /\ 0 < ds /\ ds + L = len B /\
                p = seg B ds (len B)).
Proof.
  intros Hok H. unfold DecodeString, bind in H.
  destruct (ReadSize B 0) as [[[k ds] sz]| |] eqn:Hr; try discriminate.
  apply ReadSize_sound in Hr; [|exact Hok].
  pose proof (item_at_bounds _ _ _ _ _ Hr) as (Hb1 & Hb2 & Hb3 & Hb4).
  destruct k; simpl negb in H; cbv iota in H; [|discriminate].
  destruct ((sz =? 1) && (0 =? ds)) eqn:E.
  - apply andb_true_iff in E as [E1 E2]. apply Z.eqb_eq in E1, E2. subst.
    rewrite Z.gtb_ltb in H. destruct (Z.ltb_spec 1 (len B)); [discriminate|].
    destruct (index B 0) as [b| |] eqn:Hi; try discriminate.
    apply index_inv in Hi as [_ Hb]. injection H as <-.
    left. exists b.
    destruct (item_at_cases _ _ _ _ _ Hr) as (fb & Hf & Hc).
    assert (fb = b) by congruence. subst fb.
    assert (byte_val b <= 0x7f) by
      (destruct Hc as [?|[?|[?|(n & lb & base & ? & ? & ? & ? & _)]]]; lia).
    split; [|split; [assumption|reflexivity]].
    destruct B as [|x [|y B]]; unfold byte_at in Hb; simpl in Hb; try discriminate.
    + congruence.
    + rewrite !len_cons in *. pose proof (len_nonneg B). lia.
  - rewrite !Z.gtb_ltb in H.
    destruct (Z.ltb_spec (len B) (GoInt.add ds sz)); [discriminate|].
    destruct (Z.ltb_spec (GoInt.add ds sz) (len B)); [discriminate|].
    destruct (loop_step_end ds sz B p) as (He & Hle & ->); try assumption; try lia.
    right. exists ds, sz. rewrite He in *.
    assert (ds + sz = len B) as Hend by lia. rewrite Hend.
    repeat split; try assumption.
    apply andb_false_iff in E. rewrite !Z.eqb_neq in E.
    destruct (item_at_cases _ _ _ _ _ Hr) as (fb & Hf & Hc).
    destruct Hc as [?|[?|[?|(n & lb & base & ? & ? & ? & ? & _)]]]; lia.
Qed.

Lemma DecodeList_accept_inv B s es :
  buf_ok B -> DecodeList B s = Some (Ok es) ->
  exists ds L hs,
    item_at B s false ds L /\ ds + L = len B /\ sub_items B ds hs es (len B).
Proof.
  intros Hok H. unfold DecodeList, DecodeList_fuel in H.
  destruct (ReadSize B s) as [[[k ds] sz]| |] eqn:Hr; try discriminate.
  apply ReadSize_sound in Hr; [|exact Hok].
  pose proof (item_at_bounds _ _ _ _ _ Hr) as (Hb1 & Hb2 & Hb3 & Hb4).
  destruct k; [discriminate|].
  destruct (DecodeList_loop (S (length B)) B sz (ds, 0, []))
    as [[[[c' br'] acc']| |]|] eqn:Hl; try discriminate.
  apply DecodeList_loop_sound in Hl; try assumption; try lia.
  destruct Hl as (hs & es' & -> & Hs & -> & Hc & HL).
  destruct (Z.eqb_spec (0 + (c' - ds)) sz); simpl negb in H; cbv iota in H;
    [|discriminate].
  rewrite Z.gtb_ltb in H. destruct (Z.ltb_spec c' (len B)); [discriminate|].
  injection H as <-. simpl app.
  assert (c' = len B) by lia. subst c'.
  exists ds, sz, hs. repeat split; try assumption. lia.
Qed.

Lemma sub_items_concat B c hs es c' :
  sub_items B c hs es c' -> 0 <= c ->
  c <= c' /\ length hs = length es /\ interleave hs es = seg B c c'.
Proof.
  intros H. induction H as [c|c k ds sz hs es c' Hi Hle Hs IH]; intros Hc.
  - repeat split; try lia. unfold interleave. simpl. rewrite seg_empty. reflexivity.
  - pose proof (item_at_bounds _ _ _ _ _ Hi) as (Hb1 & Hb2 & Hb3 & Hb4).
    destruct IH as (IH1 & IH2 & IH3); [lia|].
    repeat split; try lia.
    + simpl. congruence.
    + unfold interleave in *. simpl. rewrite IH3.
      rewrite seg_app by lia. rewrite seg_app by lia. reflexivity.
Qed.

(** ** The encoder's length bytes *)

Lemma be_value_pos x t : byte_val x <> 0 -> 0 < be_value (x :: t).
Proof.
  intros H. rewrite be_value_cons.
  pose proof (byte_val_range x). pose proof (be_value_bound t).
  assert (0 < 256 ^ len t) by (apply Z.pow_pos_nonneg; [lia | apply len_nonneg]).
  nia.
Qed.

Lemma be_bytes_aux_be_value l : forall fuel acc,
  (length l <= fuel)%nat ->
  (forall x t, l = x :: t -> byte_val x <> 0) ->
  be_bytes_aux fuel (be_value l) acc = l ++ acc.
Proof.
  induction l as [|x l IH] using rev_ind; intros fuel acc Hlen Hhd.
  - destruct fuel; reflexivity.
  - rewrite length_app in Hlen. simpl in Hlen.
    destruct fuel as [|fuel]; [lia|].
    rewrite be_value_snoc. pose proof (byte_val_range x) as Hx.
    assert (0 < be_value l * 256 + byte_val x) as Hpos.
    { destruct l as [|y t].
      - specialize (Hhd x [] eq_refl). change (be_value []) with 0. lia.
      - specialize (Hhd y (t ++ [x]) eq_refl).
        pose proof (be_value_pos y t Hhd). lia. }
    cbn [be_bytes_aux].
    destruct (Z.leb_spec (be_value l * 256 + byte_val x) 0); [lia|].
    replace ((be_value l * 256 + byte_val x) / 256) with (be_value l)
      by (symmetry; rewrite Z.div_add_l by lia; rewrite Z.div_small by lia; lia).
    replace ((be_value l * 256 + byte_val x) mod 256) with (byte_val x)
      by (symmetry; rewrite Z.add_comm, Z.mod_add by lia; apply Z.mod_small; lia).
    rewrite byte_of_val. rewrite IH.
    + rewrite <- app_assoc. reflexivity.
    + lia.
    + intros y t ->. apply (Hhd y (t ++ [x])). reflexivity.
Qed.

(** The shortest representation of the value of length bytes without a
    leading zero is these bytes. *)
Lemma be_bytes_be_value l :
  (length l <= 8)%nat -> (forall x t, l = x :: t -> byte_val x <> 0) ->
  be_bytes (be_value l) = l.
Proof.
  intros H1 H2. unfold be_bytes. rewrite be_bytes_aux_be_value by assumption.
  apply app_nil_r.
Qed.

(** The header bytes of a long-form item are the encoder's header. *)
Lemma long_header_bytes B s fb lb n base :
  byte_at B s = Some fb -> byte_at B (s + 1) = Some lb -> byte_val lb <> 0 ->
  byte_val fb = base + n -> 1 <= n <= 8 -> s + 1 + n <= len B ->
  let L := be_value (seg B (s + 1) (s + 1 + n)) in
  byte_of (base + len (be_bytes L)) :: be_bytes L = seg B s (s + 1 + n).
Proof.
  intros Hb Hlb Hnz Hf Hn Hle L. subst L.
  pose proof (byte_at_range _ _ _ Hb).
  rewrite be_bytes_be_value.
  - rewrite len_seg by lia.
    replace (base + (s + 1 + n - (s + 1))) with (byte_val fb) by lia.
    rewrite byte_of_val. symmetry. apply seg_head; [exact Hb | lia].
  - assert (len (seg B (s + 1) (s + 1 + n)) = n) as E by (rewrite len_seg; lia).
    unfold len in E. lia.
  - intros x t E. rewrite (seg_head B (s + 1) (s + 1 + n) lb Hlb) in E by lia.
    injection E as <- _. exact Hnz.
Qed.

Lemma list_header_of_item B ds L :
  item_at B 0 false ds L -> rlp_list_header L = seg B 0 ds.
Proof.
  intros H. unfold rlp_list_header.
  destruct (item_at_cases _ _ _ _ _ H) as (fb & Hb & Hc).
  pose proof (byte_val_range fb).
  destruct Hc as [(_ & Hk & _)|[(_ & Hk & _)|[(Hf & _ & -> & ->)|
    (n & lb & base & Hk & Hf & Hn & -> & Hle & Hlb & Hnz & -> & Hv)]]];
    try discriminate.
  - destruct (Z.leb_spec (byte_val fb - 192) 55); [|lia].
    replace (192 + (byte_val fb - 192)) with (byte_val fb) by lia.
    rewrite byte_of_val. symmetry. apply seg_one. assumption.
  - destruct (Z.leb_spec (be_value (seg B (0 + 1) (0 + 1 + n))) 55); [lia|].
    destruct Hk as [(Hk & _)|(_ & -> & _)]; [discriminate|].
    eapply long_header_bytes; eauto; lia.
Qed.

Lemma rlp_string_header_general p :
  (len p <> 1 \/ exists b, p = [b] /\ 0x7f < byte_val b) ->
  rlp_string_header p =
  if len p <=? 55 then [byte_of (0x80 + len p)]
  else byte_of (0xb7 + len (be_bytes (len p))) :: be_bytes (len p).
Proof.
  intros H. unfold rlp_string_header.
  destruct p as [|b [|b' t]]; try reflexivity.
  destruct H as [H|(b0 & E & Hb)].
  - exfalso. apply H. reflexivity.
  - injection E as ->.
    destruct (Z.leb_spec (byte_val b0) 0x7f); [lia|]. reflexivity.
Qed.

Lemma len_one_inv (p : list byte) : len p = 1 -> exists b, p = [b].
Proof.
  destruct p as [|b [|b' t]]; intros H.
  - discriminate.
  - eauto.
  - rewrite !len_cons in H. pose proof (len_nonneg t). lia.
Qed.

(** ** Where a panic can come from *)

Lemma DecodeString_no_panic B s :
  buf_ok B -> 0 <= s -> DecodeString B s <> Panic.
Proof.
  intros Hok Hs. unfold DecodeString, bind.
  destruct (ReadSize B s) as [[[k ds] sz]| |] eqn:Hr; try discriminate.
  { pose proof (ReadSize_sound _ _ _ _ _ Hok Hr) as Hi.
    pose proof (item_at_bounds _ _ _ _ _ Hi) as (Hb1 & Hb2 & Hb3 & Hb4).
    destruct (negb k); [discriminate|].
    destruct ((sz =? 1) && (s =? ds)) eqn:E.
    - apply andb_true_iff in E as [_ E]. apply Z.eqb_eq in E. subst ds.
      destruct (len B >? 1); [discriminate|].
      destruct (index_in_range B s) as (b & Hi' & _); [lia|]. rewrite Hi'.
      discriminate.
    - rewrite !Z.gtb_ltb.
      destruct (Z.ltb_spec (len B) (GoInt.add ds sz)); [discriminate|].
      destruct (Z.ltb_spec (GoInt.add ds sz) (len B)); [discriminate|].
      assert (GoInt.add ds sz = len B) as -> by lia.
      rewrite slice_in_range by lia. discriminate. }
  exfalso. exact (ReadSize_no_panic B s Hok Hs Hr).
Qed.

(** With a non-negative start index, the loop of [DecodeList] panics only
    at a sub-item whose end index [itemDataStartIndex + itemSize] is beyond
    the largest [int]. *)
Lemma DecodeList_loop_panic_inv fuel B L : forall c br acc,
  buf_ok B -> 0 <= br <= c -> c <= len B ->
  DecodeList_loop fuel B L (c, br, acc) = Some Panic ->
  exists c1 k ds sz,
    c <= c1 /\ item_at B c1 k ds sz /\ GoInt.max_int < ds + sz.
Proof.
  induction fuel as [|fuel IH]; intros c br acc Hok Hbr Hc H.
  - simpl in H. destruct (br <? L); discriminate.
  - simpl in H. destruct (Z.ltb_spec br L); [|discriminate].
    destruct (ReadSize B c) as [[[k ds] sz]| |] eqn:Hr; try discriminate.
    2:{ exfalso. apply (ReadSize_no_panic B c Hok); [lia | exact Hr]. }
    apply ReadSize_sound in Hr; [|exact Hok].
    pose proof (item_at_bounds _ _ _ _ _ Hr) as (Hb1 & Hb2 & Hb3 & Hb4).
    rewrite Z.gtb_ltb in H.
    destruct (Z.ltb_spec (len B) (GoInt.add ds sz)); [discriminate|].
    destruct (Z_le_gt_dec (ds + sz) GoInt.max_int) as [Hle|Hgt].
    + pose proof (buf_ok_len _ Hok). unfold GoInt.max_int in *.
      rewrite (add_id ds sz) in * by int_range.
      rewrite slice_in_range in H by lia.
      rewrite sub_id in H by int_range. rewrite add_id in H by int_range.
      apply IH in H; try assumption; try lia.
      destruct H as (c1 & k1 & ds1 & sz1 & Hc1 & Hi1 & Ho1).
      exists c1, k1, ds1, sz1. repeat split; try assumption. lia.
    + exists c, k, ds, sz. repeat split; try assumption; lia.
Qed.

Lemma DecodeList_panic_inv B s :
  buf_ok B -> 0 <= s -> DecodeList B s = Some Panic ->
  exists c k ds sz, item_at B c k ds sz /\ GoInt.max_int < ds + sz.
Proof.
  intros Hok Hs H. unfold DecodeList, DecodeList_fuel in H.
  destruct (ReadSize B s) as [[[k ds] sz]| |] eqn:Hr; try discriminate.
  2:{ exfalso. exact (ReadSize_no_panic B s Hok Hs Hr). }
  destruct k; [discriminate|].
  apply ReadSize_sound in Hr; [|exact Hok].
  pose proof (item_at_bounds _ _ _ _ _ Hr) as (Hb1 & Hb2 & Hb3 & Hb4).
  destruct (DecodeList_loop (S (length B)) B sz (ds, 0, []))
    as [[[[c' br'] acc']| |]|] eqn:Hl; try discriminate.
  - destruct (negb (br' =? sz)); [discriminate|].
    destruct (len B >? c'); discriminate.
  - apply DecodeList_loop_panic_inv in Hl; try assumption; try lia.
    destruct Hl as (c1 & k1 & ds1 & sz1 & _ & Hi1 & Ho1).
    exists c1, k1, ds1, sz1. split; assumption.
Qed.

(** ** The short-string form of a single byte *)

(** [ReadSize] takes the tag [0x81] as a string of one byte whatever that
    byte is; so does [DecodeString]. *)
Lemma DecodeString_short_single b :
  DecodeString [x81; b] 0 = Ok [b].
Proof.
  unfold DecodeString, bind.
  replace (ReadSize [x81; b] 0) with (@Ok (bool * Z * Z) (true, 1, 1))
    by (symmetry; apply ReadSize_item_at;
        [apply buf_ok_small; simpl; lia
        | apply (item_short_string [x81; b] 0 x81); [reflexivity | vm_compute; split; discriminate]]).
  reflexivity.
Qed.

Lemma DecodeString_single b :
  byte_val b <= 0x7f -> DecodeString [b] 0 = Ok [b].
Proof.
  intros Hb. unfold DecodeString, bind.
  replace (ReadSize [b] 0) with (@Ok (bool * Z * Z) (true, 0, 1))
    by (symmetry; apply ReadSize_item_at;
        [apply buf_ok_small; simpl; lia
        | apply (item_single [b] 0 b); [reflexivity | exact Hb]]).
  reflexivity.
Qed.

(** ** The claims *)

(** C1 (as the code has it): every element [DecodeList] returns is the
    payload of one sub-item, without the sub-item's header bytes (for a
    single-byte sub-item the payload is the byte itself): the buffer is a list
    item whose payload is filled, in order and up to the end of the buffer,
    by sub-items with payloads [es].  On [0xC1 0xC0] the result has one
    element, the empty slice. *)
Theorem C1_DecodeList_elements_are_payloads :
  (forall B es,
      buf_ok B -> DecodeList B 0 = Some (Ok es) ->
      exists ds L hs,
        item_at B 0 false ds L /\ ds + L = len B /\
        sub_items B ds hs es (len B)) /\
  DecodeList [xc1; xc0] 0 = Some (Ok [[]]).
Proof.
  split.
  - intros B es Hok H. apply DecodeList_accept_inv; assumption.
  - vm_compute. reflexivity.
Qed.

Lemma C1_DecodeList_elements_are_payloads_witness :
  exists ds L hs,
    item_at [xc2; x80; x41] 0 false ds L /\ ds + L = len [xc2; x80; x41] /\
    sub_items [xc2; x80; x41] ds hs [[]; [x41]] (len [xc2; x80; x41]).
Proof.
  apply (proj1 C1_DecodeList_elements_are_payloads [xc2; x80; x41] [[]; [x41]]).
  - unfold buf_ok, len, GoInt.max_int. simpl. lia.
  - vm_compute. reflexivity.
Defined.

(** C1, as stated, fails on [0xC1 0xC0]: the element returned is not [0xC0]. *)
Lemma C1_nested_empty_list_counterexample :
  DecodeList [xc1; xc0] 0 <> Some (Ok [[xc0]]).
Proof. vm_compute. discriminate. Qed.

(** C2 (as the code has it): a buffer [DecodeString] accepts, other than the
    short-string form [0x81 b] of a single byte [b <= 0x7F], is the standard
    encoding of the payload returned; a buffer [DecodeList] accepts is the
    standard list header for its payload followed by the sub-items in order,
    each the header bytes of the sub-item and then the element returned for
    it. *)
Theorem C2_round_trip_of_accepted_buffers :
  (forall B p,
      buf_ok B -> DecodeString B 0 = Ok p ->
      ~ (exists b, B = [x81; b] /\ byte_val b <= 0x7f) ->
      rlp_encode_string p = B) /\
  (forall B es,
      buf_ok B -> DecodeList B 0 = Some (Ok es) ->
      exists ds L hs,
        item_at B 0 false ds L /\ sub_items B ds hs es (len B) /\
        length hs = length es /\
        rlp_list_header (len (interleave hs es)) ++ interleave hs es = B).
Proof.
  split.
  - intros B p Hok H Hex. unfold rlp_encode_string.
    destruct (DecodeString_accept_inv B p Hok H)
      as [(fb & -> & Hf & ->)|(ds & L & Hi & Hds & Hend & ->)].
    { unfold rlp_string_header.
      destruct (Z.leb_spec (byte_val fb) 0x7f); [reflexivity|lia]. }
    pose proof (item_at_bounds _ _ _ _ _ Hi) as (Hb1 & Hb2 & Hb3 & Hb4).
    assert (len (seg B ds (len B)) = L) as Hlen by (rewrite len_seg; lia).
    assert (rlp_string_header (seg B ds (len B)) = seg B 0 ds) as Hh.
    2:{ rewrite Hh, seg_app by lia. apply seg_full. }
    destruct (item_at_cases _ _ _ _ _ Hi) as (fb & Hb & Hc).
    pose proof (byte_val_range fb).
    destruct Hc as [(_ & _ & -> & _)|[(Hf & _ & -> & ->)|[(_ & Hk & _)|
      (n & lb & base & Hk & Hf & Hn & -> & Hle & Hlb & Hnz & -> & Hv)]]];
      try lia; try discriminate.
    + rewrite rlp_string_header_general.
      * rewrite Hlen. destruct (Z.leb_spec (byte_val fb - 128) 55); [|lia].
        replace (128 + (byte_val fb - 128)) with (byte_val fb) by lia.
        rewrite byte_of_val. symmetry. apply seg_one. exact Hb.
      * destruct (Z.eq_dec (byte_val fb - 128) 1) as [E1|E1]; [|left; lia].
        right. destruct (len_one_inv (seg B (0 + 1) (len B))) as [b Eb]; [lia|].
        exists b. split; [exact Eb|].
        destruct (Z_le_gt_dec (byte_val b) 0x7f) as [Hle|Hgt]; [|lia].
        exfalso. apply Hex. exists b. split; [|exact Hle].
        rewrite <- (seg_full B). rewrite <- (seg_app B 0 (0 + 1) (len B)) by lia.
        rewrite Eb. rewrite (seg_one _ _ _ Hb).
        replace fb with (byte_of (byte_val fb)) by apply byte_of_val.
        replace (byte_val fb) with 129 by lia. reflexivity.
    + rewrite rlp_string_header_general by (left; lia).
      rewrite Hlen.
      destruct (Z.leb_spec (be_value (seg B (0 + 1) (0 + 1 + n))) 55); [lia|].
      destruct Hk as [(_ & -> & _)|(Hk & _)]; [|discriminate].
      eapply long_header_bytes; eauto; lia.
  - intros B es Hok H.
    destruct (DecodeList_accept_inv B 0 es Hok H) as (ds & L & hs & Hi & Hend & Hs).
    pose proof (item_at_bounds _ _ _ _ _ Hi) as (Hb1 & Hb2 & Hb3 & Hb4).
    destruct (sub_items_concat _ _ _ _ _ Hs) as (Hc1 & Hc2 & Hc3); [lia|].
    exists ds, L, hs. repeat split; try assumption.
    rewrite Hc3. rewrite len_seg by lia.
    replace (len B - ds) with L by lia.
    rewrite (list_header_of_item B ds L Hi).
    rewrite seg_app by lia. apply seg_full.
Qed.

Lemma C2_round_trip_of_accepted_buffers_witness :
  rlp_encode_string [x64; x6f; x67] = [x83; x64; x6f; x67] /\
  exists ds L hs,
    item_at [xc2; x80; x41] 0 false ds L /\
    sub_items [xc2; x80; x41] ds hs [[]; [x41]] (len [xc2; x80; x41]) /\
    length hs = length [[]; [x41]] /\
    rlp_list_header (len (interleave hs [[]; [x41]])) ++ interleave hs [[]; [x41]]
    = [xc2; x80; x41].
Proof.
  split.
  - apply (proj1 C2_round_trip_of_accepted_buffers [x83; x64; x6f; x67] [x64; x6f; x67]).
    + unfold buf_ok, len, GoInt.max_int. simpl. lia.
    + vm_compute. reflexivity.
    + intros (b & E & _). discriminate E.
  - apply (proj2 C2_round_trip_of_accepted_buffers [xc2; x80; x41] [[]; [x41]]).
    + unfold buf_ok, len, GoInt.max_int. simpl. lia.
    + vm_compute. reflexivity.
Defined.

(** C2, as stated, fails on both decoders: [0x81 0x05] is accepted with
    payload [0x05], whose standard encoding is [0x05]; [0xC1 0xC0] is accepted with
    the one element [[]], and the list of these elements encodes to [0xC0]. *)
Lemma C2_round_trip_counterexample :
  (DecodeString [x81; x05] 0 = Ok [x05] /\
   rlp_encode_string [x05] <> [x81; x05]) /\
  (DecodeList [xc1; xc0] 0 = Some (Ok [[]]) /\
   rlp_encode_list [[]] <> [xc1; xc0]).
Proof.
  repeat split; try (vm_compute; reflexivity); vm_compute; discriminate.
Qed.

(** C3: a list whose sub-item declares a payload of [2^63 - 1] bytes makes
    [itemDataStartIndex + itemSize] wrap to a negative end index; the check
    against [len(inp)] passes and the slice expression is out of range. *)
Theorem C3_DecodeList_panics_on_wrapped_end :
  DecodeList [xc9; xbf; x7f; xff; xff; xff; xff; xff; xff; xff] 0 = Some Panic.
Proof. vm_compute. reflexivity. Qed.

(** C4: the two buffers [0x81 0x05] and [0x05] are both accepted by
    [DecodeString], with the same payload; nested in a list, [0xC2 0x81 0x05] and
    [0xC1 0x05] are both accepted by [DecodeList], with the same elements. *)
Theorem C4_short_form_of_single_byte_accepted :
  DecodeString [x81; x05] 0 = Ok [x05] /\
  DecodeString [x05] 0 = Ok [x05] /\
  DecodeList [xc2; x81; x05] 0 = Some (Ok [[x05]]) /\
  DecodeList [xc1; x05] 0 = Some (Ok [[x05]]).
Proof. repeat split; vm_compute; reflexivity. Qed.

(** C5: when the end index wraps, [DecodeString] reports extra bytes, not
    an incomplete input, and [DecodeList] does not return an error at all. *)
Theorem C5_wrapped_end_is_not_IncompleteInput :
  GoInt.add 9 9223372036854775807 < 0 /\
  DecodeString [xbf; x7f; xff; xff; xff; xff; xff; xff; xff] 0
  = Err ErrInputContainsExtraBytes /\
  DecodeList [xc9; xbf; x7f; xff; xff; xff; xff; xff; xff; xff] 0 <> Some (Err ErrIncompleteInput).
Proof.
  split; [vm_compute; reflexivity|]. split; [vm_compute; reflexivity|].
  vm_compute. discriminate.
Qed.

(** C6: on every successful return of [ReadSize] the item header (the tag
    byte and the length bytes after it) lies within the buffer, and the
    payload start is the tag's own offset for a single-byte item and the end
    of the header otherwise; that the payload fits is not promised: on the
    9-byte buffer [0xBF 0x7F 0xFF 0xFF 0xFF 0xFF 0xFF 0xFF 0xFF] the result is
    [(true, 9, 2^63 - 1)], whose payload would end far past the buffer. *)
Theorem C6_ReadSize_header_within_buffer :
  (forall B s k ds sz,
      buf_ok B -> ReadSize B s = Ok (k, ds, sz) ->
      exists fb,
        byte_at B s = Some fb /\ 0 <= s /\
        s + header_size (byte_val fb) <= len B /\
        ds = (if byte_val fb <=? 0x7f then s else s + header_size (byte_val fb))) /\
  (let B := [xbf; x7f; xff; xff; xff; xff; xff; xff; xff] in
   ReadSize B 0 = Ok (true, 9, 9223372036854775807) /\
   len B = 9 /\ ~ 9 + 9223372036854775807 <= len B).
Proof.
  split.
  - intros B s k ds sz Hok H. apply ReadSize_sound in H; [|exact Hok].
    pose proof (item_at_bounds _ _ _ _ _ H) as (Hs & Hd & _).
    destruct (item_at_tag _ _ _ _ _ H) as (fb & Hb & Hds).
    exists fb. repeat split; try assumption; try lia.
    pose proof (byte_val_range fb). revert Hds. unfold header_size.
    repeat match goal with
    | |- context [?a <=? ?b] => destruct (Z.leb_spec a b)
    end; lia.
  - cbv zeta. split; [vm_compute; reflexivity|].
    split; [reflexivity|]. unfold len. simpl. lia.
Qed.

Lemma C6_ReadSize_header_within_buffer_witness :
  exists fb,
    byte_at [xb9; x01; x02] 0 = Some fb /\ 0 <= 0 /\
    0 + header_size (byte_val fb) <= len [xb9; x01; x02] /\
    3 = (if byte_val fb <=? 0x7f then 0 else 0 + header_size (byte_val fb)).
Proof.
  apply (proj1 C6_ReadSize_header_within_buffer [xb9; x01; x02] 0 true 3 258).
  - unfold buf_ok, len, GoInt.max_int. simpl. lia.
  - vm_compute. reflexivity.
Defined.

(** A list whose declared payload runs past the end of the buffer, while the
    sub-items that are there fill the buffer: the loop of [DecodeList] asks
    the prefix reader for an item at index [len(inp)] and returns its
    [InvalidStartIndex]; the declared payload length is never compared with
    the buffer. *)
Lemma DecodeList_truncated_payload B s ds L hs es :
  buf_ok B -> ReadSize B s = Ok (false, ds, L) ->
  sub_items B ds hs es (len B) -> len B - ds < L ->
  DecodeList B s = Some (Err ErrInvalidStartIndex).
Proof.
  intros Hok Hr Hs HL.
  apply (DecodeList_error_at B s ds L hs es (len B)); try assumption.
  pose proof (ReadSize_sound _ _ _ _ _ Hok Hr) as Hi.
  pose proof (item_at_bounds _ _ _ _ _ Hi) as (Hb1 & _).
  unfold ReadSize. destruct (Z.eqb_spec (len B) 0); [lia|].
  rewrite Z.geb_leb. destruct (Z.leb_spec (len B) (len B)); [reflexivity|lia].
Qed.

(** C7: on [0xC1], a list whose declared payload of one byte lies past the
    end of the buffer, [DecodeList] returns [InvalidStartIndex], not
    [IncompleteInput]; the same happens when the sub-items that are there
    fill the buffer, as on [0xC2 0x41].  The other ways of running past the
    end are reported as [IncompleteInput]: a string payload cut short
    ([0x83]), a header cut short ([0xF8]) and a list cut inside a sub-item
    ([0xC3 0x82 0x41]). *)
Theorem C7_truncated_list_is_InvalidStartIndex :
  DecodeList [xc1] 0 = Some (Err ErrInvalidStartIndex) /\
  DecodeList [xc1] 0 <> Some (Err ErrIncompleteInput) /\
  DecodeList [xc2; x41] 0 = Some (Err ErrInvalidStartIndex) /\
  DecodeString [x83] 0 = Err ErrIncompleteInput /\
  DecodeList [xf8] 0 = Some (Err ErrIncompleteInput) /\
  DecodeList [xc3; x82; x41] 0 = Some (Err ErrIncompleteInput).
Proof.
  split; [vm_compute; reflexivity|].
  split; [vm_compute; discriminate|].
  repeat split; vm_compute; reflexivity.
Qed.

(** C8: for a start index within the buffer, [ReadSize] returns exactly
    [(true, s, 1)] if and only if the byte at [s] is at most [0x7F]. *)
Theorem C8_single_byte_slot B s :
  buf_ok B -> 0 <= s < len B ->
  (ReadSize B s = Ok (true, s, 1) <->
   exists fb, byte_at B s = Some fb /\ byte_val fb <= 0x7f).
Proof.
  intros Hok Hs. rewrite ReadSize_item_at by exact Hok. split.
  - intros H. inversion H; subst; try lia. eauto.
  - intros (fb & Hb & Hf). eapply item_single; eauto.
Qed.

Lemma C8_single_byte_slot_witness :
  ReadSize [x83; x41; x42; x43] 1 = Ok (true, 1, 1) <->
  exists fb, byte_at [x83; x41; x42; x43] 1 = Some fb /\ byte_val fb <= 0x7f.
Proof.
  apply (C8_single_byte_slot [x83; x41; x42; x43] 1).
  - unfold buf_ok, len, GoInt.max_int. simpl. lia.
  - unfold len. simpl. lia.
Defined.

(** C9: the list [0xC8 0x83 0x41 0x42 0x43 0x83 0x45 0x46 0x47] decodes to
    the two elements [0x41 0x42 0x43] and [0x45 0x46 0x47]. *)
Theorem C9_DecodeList_two_strings :
  DecodeList [xc8; x83; x41; x42; x43; x83; x45; x46; x47] 0
  = Some (Ok [[x41; x42; x43]; [x45; x46; x47]]).
Proof. vm_compute. reflexivity. Qed.

(** C10: [ReadSize] reports an empty buffer as [EmptyInput] and a start
    index at or beyond the end as [InvalidStartIndex]; with a non-negative
    start index none of its buffer accesses is out of range; with a negative
    start index on a non-empty buffer the read [inp[startIndex]] is out of
    range, in [ReadSize] and so in [DecodeString] and [DecodeList]. *)
Theorem C10_start_index_precondition :
  (forall s, ReadSize [] s = Err ErrEmptyInput) /\
  (forall B s, B <> [] -> len B <= s -> ReadSize B s = Err ErrInvalidStartIndex) /\
  (forall B s, buf_ok B -> 0 <= s -> ReadSize B s <> Panic) /\
  (forall B s, B <> [] -> s < 0 ->
     ReadSize B s = Panic /\ DecodeString B s = Panic /\
     DecodeList B s = Some Panic).
Proof.
  repeat split.
  - intros B s HB Hs. unfold ReadSize.
    destruct (Z.eqb_spec (len B) 0) as [E|_].
    { destruct B; [congruence | rewrite len_cons in E; pose proof (len_nonneg B); lia]. }
    rewrite Z.geb_leb. destruct (Z.leb_spec (len B) s); [reflexivity|lia].
  - intros B s. apply ReadSize_no_panic.
  - apply ReadSize_negative_start; assumption.
  - unfold DecodeString. rewrite ReadSize_negative_start by assumption. reflexivity.
  - unfold DecodeList, DecodeList_fuel.
    rewrite ReadSize_negative_start by assumption. reflexivity.
Qed.

Lemma C10_start_index_precondition_witness :
  (ReadSize [x41] 1 = Err ErrInvalidStartIndex) /\
  (ReadSize [xb8] 0 <> Panic) /\
  (ReadSize [x41] (-1) = Panic /\ DecodeString [x41] (-1) = Panic /\
   DecodeList [x41] (-1) = Some Panic).
Proof.
  destruct C10_start_index_precondition as (_ & H2 & H3 & H4).
  split; [|split].
  - apply (H2 [x41] 1); [discriminate | unfold len; simpl; lia].
  - apply (H3 [xb8] 0); [unfold buf_ok, len, GoInt.max_int; simpl; lia | lia].
  - apply (H4 [x41] (-1)); [discriminate | lia].
Defined.

(** ** No wrap-around in the prefix reader, and where a panic can be *)

(** X1: On a buffer of at most [MaxInt64 - 8] bytes [ReadSize] returns, for every
    start index, negative ones included, what the reading of section 4.1 of
    the spec on mathematical integers returns: none of its additions,
    subtractions and conversions wraps, and the 8-byte scratch area reads
    back the value of the length bytes. *)
Theorem ReadSize_computes_read_prefix B s :
  buf_ok B -> ReadSize B s = read_prefix B s.
Proof.
  intros Hok. apply ReadSize_read_prefix. exact Hok.
Qed.

Lemma ReadSize_computes_read_prefix_witness :
  ReadSize [xba; x01; x00; x00] 0 = read_prefix [xba; x01; x00; x00] 0.
Proof.
  apply (ReadSize_computes_read_prefix [xba; x01; x00; x00] 0).
  unfold buf_ok, len, GoInt.max_int. simpl. lia.
Defined.

(** X2: With a non-negative start index [DecodeString] does not panic, and
    [DecodeList] panics only if some item of the buffer has its end index
    [payload start + payload length] beyond the largest [int]. *)
Theorem decoders_panic_only_on_wrapped_end B s :
  buf_ok B -> 0 <= s ->
  DecodeString B s <> Panic /\
  (DecodeList B s = Some Panic ->
   exists c k ds sz, ReadSize B c = Ok (k, ds, sz) /\ GoInt.max_int < ds + sz).
Proof.
  intros Hok Hs. split; [apply DecodeString_no_panic; assumption|].
  intros H. destruct (DecodeList_panic_inv B s Hok Hs H) as (c & k & ds & sz & Hi & Ho).
  exists c, k, ds, sz. split; [|exact Ho]. apply ReadSize_item_at; assumption.
Qed.

Lemma decoders_panic_only_on_wrapped_end_witness :
  DecodeString [xc9; xbf; x7f; xff; xff; xff; xff; xff; xff; xff] 0 <> Panic /\
  (DecodeList [xc9; xbf; x7f; xff; xff; xff; xff; xff; xff; xff] 0 = Some Panic ->
   exists c k ds sz,
     ReadSize [xc9; xbf; x7f; xff; xff; xff; xff; xff; xff; xff] c = Ok (k, ds, sz) /\
     GoInt.max_int < ds + sz).
Proof.
  apply (decoders_panic_only_on_wrapped_end
           [xc9; xbf; x7f; xff; xff; xff; xff; xff; xff; xff] 0).
  - unfold buf_ok, len, GoInt.max_int. simpl. lia.
  - lia.
Defined.

(** ** Further properties of the prefix reader *)

(** X3: What [ReadSize] returns on success is bounded: the payload starts at or
    after the start index and within the buffer, and the payload length is a
    non-negative [int]; a length read from a long-form header exceeds 55. *)
Theorem ReadSize_result_bounds B s k ds sz :
  buf_ok B -> ReadSize B s = Ok (k, ds, sz) ->
  0 <= s < len B /\ s <= ds <= len B /\ ds <= s + 9 /\
  0 <= sz <= MaxLongLengthAllowed /\
  (s + 1 < ds -> MaxShortLengthAllowed < sz).
Proof.
  intros Hok H. apply ReadSize_sound in H; [|exact Hok].
  pose proof (item_at_bounds _ _ _ _ _ H) as (Hb1 & Hb2 & Hb3 & Hb4).
  unfold MaxLongLengthAllowed, MaxShortLengthAllowed.
  destruct (item_at_cases _ _ _ _ _ H) as (fb & Hb & Hc).
  pose proof (byte_val_range fb).
  repeat split; try lia;
    destruct Hc as [?|[?|[?|(n & lb & base & ? & ? & ? & ? & ? & ? & ? & ? & ?)]]];
    lia.
Qed.

Lemma ReadSize_result_bounds_witness :
  0 <= 0 < len [xb9; x01; x02] /\ 0 <= 3 <= len [xb9; x01; x02] /\ 3 <= 0 + 9 /\
  0 <= 258 <= MaxLongLengthAllowed /\
  (0 + 1 < 3 -> MaxShortLengthAllowed < 258).
Proof.
  apply (ReadSize_result_bounds [xb9; x01; x02] 0 true 3 258).
  - unfold buf_ok, len, GoInt.max_int. simpl. lia.
  - vm_compute. reflexivity.
Defined.

Lemma read_prefix_at_long_tag B s fb :
  byte_at B s = Some fb ->
  0xb8 <= byte_val fb <= 0xbf \/ 0xf8 <= byte_val fb ->
  read_prefix B s
  = read_prefix_long B (byte_val fb <=? 0xbf) (s + 1) (header_size (byte_val fb) - 1).
Proof.
  intros Hb Hf. pose proof (byte_at_range _ _ _ Hb). pose proof (byte_val_range fb).
  unfold read_prefix, header_size.
  destruct (Z.eqb_spec (len B) 0) as [|Hne]; [lia|].
  destruct (Z.leb_spec (len B) s) as [|Hlt]; [lia|].
  rewrite Hb. cbv zeta.
  destruct (Z.leb_spec (byte_val fb) 0x7f); [lia|].
  destruct (Z.leb_spec (byte_val fb) 0xb7); [lia|].
  destruct (Z.leb_spec (byte_val fb) 0xbf).
  - f_equal. lia.
  - destruct (Z.leb_spec (byte_val fb) 0xf7); [lia|]. f_equal. lia.
Qed.

Lemma read_prefix_err_inv B s e :
  read_prefix B s = Err e ->
  e <> ErrEmptyInput -> e <> ErrInvalidStartIndex ->
  exists fb, byte_at B s = Some fb /\
             (0xb8 <= byte_val fb <= 0xbf \/ 0xf8 <= byte_val fb).
Proof.
  unfold read_prefix. intros H H1 H2.
  destruct (Z.eqb_spec (len B) 0) as [|Hne]; [congruence|].
  destruct (Z.leb_spec (len B) s) as [|Hlt]; [congruence|].
  destruct (byte_at B s) as [fb|]; [|discriminate].
  exists fb. split; [reflexivity|]. cbv zeta in H.
  pose proof (byte_val_range fb).
  destruct (Z.leb_spec (byte_val fb) 0x7f); [discriminate|].
  destruct (Z.leb_spec (byte_val fb) 0xb7); [discriminate|].
  destruct (Z.leb_spec (byte_val fb) 0xbf); [lia|].
  destruct (Z.leb_spec (byte_val fb) 0xf7); [discriminate|]. lia.
Qed.

(** Two or more length bytes without a leading zero encode at least 256. *)
Lemma be_value_lower B c n lb :
  byte_at B c = Some lb -> byte_val lb <> 0 -> 2 <= n -> c + n <= len B ->
  256 <= be_value (seg B c (c + n)).
Proof.
  intros Hb Hnz Hn Hle. pose proof (byte_at_range _ _ _ Hb).
  rewrite (seg_head B c (c + n) lb Hb) by lia. rewrite be_value_cons.
  rewrite len_seg by lia.
  pose proof (be_value_bound (seg B (c + 1) (c + n))).
  pose proof (byte_val_range lb).
  assert (256 ^ 1 <= 256 ^ (c + n - (c + 1))) by (apply Z.pow_le_mono_r; lia).
  change (256 ^ 1) with 256 in *. nia.
Qed.

(** The value of [n <= 8] length bytes against the largest [int]. *)
Lemma be_value_vs_max_int B c n lb :
  byte_at B c = Some lb -> 1 <= n <= 8 -> c + n <= len B ->
  (GoInt.max_int < be_value (seg B c (c + n)) <-> n = 8 /\ 0x80 <= byte_val lb).
Proof.
  intros Hb Hn Hle. pose proof (byte_at_range _ _ _ Hb).
  rewrite (seg_head B c (c + n) lb Hb) by lia. rewrite be_value_cons.
  rewrite len_seg by lia.
  pose proof (be_value_bound (seg B (c + 1) (c + n))) as Hr.
  rewrite len_seg in Hr by lia.
  pose proof (byte_val_range lb).
  replace (c + n - (c + 1)) with (n - 1) in * by lia.
  unfold GoInt.max_int.
  destruct (Z.eq_dec n 8) as [->|Hn8].
  - change (256 ^ (8 - 1)) with 72057594037927936 in *. lia.
  - assert (256 ^ (n - 1) <= 256 ^ 6) as Hp by (apply Z.pow_le_mono_r; lia).
    change (256 ^ 6) with 281474976710656 in Hp.
    assert (0 < 256 ^ (n - 1)) by (apply Z.pow_pos_nonneg; lia).
    split; [|lia]. intros Hgt. exfalso. nia.
Qed.

(** X4: [ReadSize] reports a non-canonical input exactly at a long-form tag whose
    single length byte is at most 55, or whose first of several length bytes
    is zero. *)
Theorem ReadSize_NonCanonical_iff B s :
  buf_ok B ->
  (ReadSize B s = Err ErrNonCanonicalInput <->
   exists fb lb,
     byte_at B s = Some fb /\ byte_at B (s + 1) = Some lb /\
     (0xb8 <= byte_val fb <= 0xbf \/ 0xf8 <= byte_val fb) /\
     (if header_size (byte_val fb) =? 2
      then byte_val lb <= MaxShortLengthAllowed
      else byte_val lb = 0)).
Proof.
  intros Hok. rewrite ReadSize_read_prefix by exact Hok.
  unfold MaxShortLengthAllowed. split.
  - intros H.
    destruct (read_prefix_err_inv _ _ _ H) as (fb & Hb & Hf); try discriminate.
    rewrite (read_prefix_at_long_tag B s fb Hb Hf) in H.
    pose proof (byte_val_range fb) as Hr.
    assert (1 <= header_size (byte_val fb) - 1 <= 8) as Hn
      by (unfold header_size;
          repeat match goal with
          | |- context [?a <=? ?b] => destruct (Z.leb_spec a b)
          end; lia).
    unfold read_prefix_long in H.
    destruct (Z.leb_spec (len B) (s + 1)) as [|Hlt1]; [discriminate|].
    destruct (byte_at B (s + 1)) as [lb|] eqn:Hlb; [|discriminate].
    exists fb, lb. repeat split; try assumption.
    destruct (Z.eqb_spec (header_size (byte_val fb) - 1) 1) as [E|E].
    + destruct (Z.eqb_spec (header_size (byte_val fb)) 2); [|lia].
      destruct (Z.leb_spec (byte_val lb) 55); [assumption|discriminate].
    + destruct (Z.eqb_spec (header_size (byte_val fb)) 2); [lia|].
      destruct (Z.eqb_spec (byte_val lb) 0); [assumption|].
      destruct (Z.ltb_spec (len B) (s + 1 + (header_size (byte_val fb) - 1)));
        [discriminate|]. cbv zeta in H.
      pose proof (be_value_lower B (s + 1) (header_size (byte_val fb) - 1) lb Hlb)
        as Hlow.
      destruct (Z.leb_spec
        (be_value (seg B (s + 1) (s + 1 + (header_size (byte_val fb) - 1)))) 55);
        [lia|].
      destruct (GoInt.max_int <? _); discriminate.
  - intros (fb & lb & Hb & Hlb & Hf & Hc).
    rewrite (read_prefix_at_long_tag B s fb Hb Hf).
    pose proof (byte_at_range _ _ _ Hlb).
    unfold read_prefix_long.
    destruct (Z.leb_spec (len B) (s + 1)) as [|Hlt1]; [lia|]. rewrite Hlb.
    destruct (Z.eqb_spec (header_size (byte_val fb)) 2) as [E|E].
    + destruct (Z.eqb_spec (header_size (byte_val fb) - 1) 1); [|lia].
      destruct (Z.leb_spec (byte_val lb) 55); [reflexivity|lia].
    + destruct (Z.eqb_spec (header_size (byte_val fb) - 1) 1); [lia|].
      destruct (Z.eqb_spec (byte_val lb) 0); [reflexivity|lia].
Qed.

Lemma ReadSize_NonCanonical_iff_witness :
  ReadSize [xb9; x00; xff] 0 = Err ErrNonCanonicalInput <->
  exists fb lb,
    byte_at [xb9; x00; xff] 0 = Some fb /\
    byte_at [xb9; x00; xff] (0 + 1) = Some lb /\
    (0xb8 <= byte_val fb <= 0xbf \/ 0xf8 <= byte_val fb) /\
    (if header_size (byte_val fb) =? 2
     then byte_val lb <= MaxShortLengthAllowed
     else byte_val lb = 0).
Proof.
  apply (ReadSize_NonCanonical_iff [xb9; x00; xff] 0).
  unfold buf_ok, len, GoInt.max_int. simpl. lia.
Defined.

(** X5: [ReadSize] reports a data size too large exactly at a tag with eight
    length bytes, all of them in the buffer, the first at least [0x80]. *)
Theorem ReadSize_DataSizeTooLarge_iff B s :
  buf_ok B ->
  (ReadSize B s = Err ErrDataSizeTooLarge <->
   exists fb lb,
     byte_at B s = Some fb /\ byte_at B (s + 1) = Some lb /\
     (byte_val fb = 0xbf \/ byte_val fb = 0xff) /\
     0x80 <= byte_val lb /\ s + 9 <= len B).
Proof.
  intros Hok. rewrite ReadSize_read_prefix by exact Hok. split.
  - intros H.
    destruct (read_prefix_err_inv _ _ _ H) as (fb & Hb & Hf); try discriminate.
    rewrite (read_prefix_at_long_tag B s fb Hb Hf) in H.
    pose proof (byte_val_range fb) as Hr.
    assert (1 <= header_size (byte_val fb) - 1 <= 8 /\
            (header_size (byte_val fb) - 1 = 8 ->
             byte_val fb = 0xbf \/ byte_val fb = 0xff)) as (Hn & Hn8)
      by (unfold header_size;
          repeat match goal with
          | |- context [?a <=? ?b] => destruct (Z.leb_spec a b)
          end; lia).
    unfold read_prefix_long in H.
    destruct (Z.leb_spec (len B) (s + 1)) as [|Hlt1]; [discriminate|].
    destruct (byte_at B (s + 1)) as [lb|] eqn:Hlb; [|discriminate].
    destruct (Z.eqb_spec (header_size (byte_val fb) - 1) 1) as [E|E].
    { destruct (byte_val lb <=? 55); discriminate. }
    destruct (Z.eqb_spec (byte_val lb) 0); [discriminate|].
    destruct (Z.ltb_spec (len B) (s + 1 + (header_size (byte_val fb) - 1)));
      [discriminate|]. cbv zeta in H.
    destruct (_ <=? 55); [discriminate|].
    destruct (Z.ltb_spec GoInt.max_int
      (be_value (seg B (s + 1) (s + 1 + (header_size (byte_val fb) - 1)))))
      as [Hgt|]; [|discriminate].
    apply (be_value_vs_max_int B (s + 1) _ lb Hlb) in Hgt; try lia.
    exists fb, lb. repeat split; try assumption; try lia; tauto.
  - intros (fb & lb & Hb & Hlb & Hf & Hl & Hlen).
    assert (header_size (byte_val fb) - 1 = 8) as En
      by (unfold header_size;
          repeat match goal with
          | |- context [?a <=? ?b] => destruct (Z.leb_spec a b)
          end; lia).
    rewrite (read_prefix_at_long_tag B s fb Hb) by lia.
    unfold read_prefix_long. rewrite En.
    destruct (Z.leb_spec (len B) (s + 1)) as [|Hlt1]; [lia|]. rewrite Hlb.
    change (8 =? 1) with false. cbv iota.
    destruct (Z.eqb_spec (byte_val lb) 0); [lia|].
    destruct (Z.ltb_spec (len B) (s + 1 + 8)); [lia|]. cbv zeta.
    pose proof (proj2 (be_value_vs_max_int B (s + 1) 8 lb Hlb ltac:(lia) ltac:(lia))
                  (conj eq_refl Hl)) as Hgt.
    unfold GoInt.max_int in *.
    destruct (Z.leb_spec (be_value (seg B (s + 1) (s + 1 + 8))) 55); [lia|].
    destruct (Z.ltb_spec 9223372036854775807 (be_value (seg B (s + 1) (s + 1 + 8))));
      [reflexivity|lia].
Qed.

Lemma ReadSize_DataSizeTooLarge_iff_witness :
  ReadSize [xff; x80; x00; x00; x00; x00; x00; x00; x00] 0 = Err ErrDataSizeTooLarge <->
  exists fb lb,
    byte_at [xff; x80; x00; x00; x00; x00; x00; x00; x00] 0 = Some fb /\
    byte_at [xff; x80; x00; x00; x00; x00; x00; x00; x00] (0 + 1) = Some lb /\
    (byte_val fb = 0xbf \/ byte_val fb = 0xff) /\
    0x80 <= byte_val lb /\
    0 + 9 <= len [xff; x80; x00; x00; x00; x00; x00; x00; x00].
Proof.
  apply (ReadSize_DataSizeTooLarge_iff [xff; x80; x00; x00; x00; x00; x00; x00; x00] 0).
  unfold buf_ok, len, GoInt.max_int. simpl. lia.
Defined.

(** X6: [ReadSize] reports an incomplete input exactly at a long-form tag that
    is the last byte of the buffer, or whose several length bytes, the first
    of them not zero, run past the end of the buffer. *)
Theorem ReadSize_IncompleteInput_iff B s :
  buf_ok B ->
  (ReadSize B s = Err ErrIncompleteInput <->
   exists fb,
     byte_at B s = Some fb /\
     (0xb8 <= byte_val fb <= 0xbf \/ 0xf8 <= byte_val fb) /\
     (len B <= s + 1 \/
      exists lb, byte_at B (s + 1) = Some lb /\ byte_val lb <> 0 /\
                 len B < s + header_size (byte_val fb))).
Proof.
  intros Hok. rewrite ReadSize_read_prefix by exact Hok. split.
  - intros H.
    destruct (read_prefix_err_inv _ _ _ H) as (fb & Hb & Hf); try discriminate.
    rewrite (read_prefix_at_long_tag B s fb Hb Hf) in H.
    exists fb. split; [exact Hb|]. split; [exact Hf|].
    unfold read_prefix_long in H.
    destruct (Z.leb_spec (len B) (s + 1)) as [|Hlt1]; [left; assumption|].
    destruct (byte_at B (s + 1)) as [lb|] eqn:Hlb; [|discriminate].
    right. exists lb. split; [reflexivity|].
    destruct (Z.eqb_spec (header_size (byte_val fb) - 1) 1) as [E|E].
    { destruct (byte_val lb <=? 55); discriminate. }
    destruct (Z.eqb_spec (byte_val lb) 0); [discriminate|].
    destruct (Z.ltb_spec (len B) (s + 1 + (header_size (byte_val fb) - 1)));
      [split; [assumption|lia]|]. cbv zeta in H.
    destruct (_ <=? 55); [discriminate|].
    destruct (GoInt.max_int <? _); discriminate.
  - intros (fb & Hb & Hf & Hc).
    rewrite (read_prefix_at_long_tag B s fb Hb Hf).
    unfold read_prefix_long.
    destruct (Z.leb_spec (len B) (s + 1)) as [|Hlt1]; [reflexivity|].
    destruct Hc as [Hc|(lb & Hlb & Hnz & Hlen)]; [lia|]. rewrite Hlb.
    destruct (Z.eqb_spec (header_size (byte_val fb) - 1) 1) as [E|E]; [lia|].
    destruct (Z.eqb_spec (byte_val lb) 0); [lia|].
    destruct (Z.ltb_spec (len B) (s + 1 + (header_size (byte_val fb) - 1)));
      [reflexivity|lia].
Qed.

Lemma ReadSize_IncompleteInput_iff_witness :
  ReadSize [xb9; x01] 0 = Err ErrIncompleteInput <->
  exists fb,
    byte_at [xb9; x01] 0 = Some fb /\
    (0xb8 <= byte_val fb <= 0xbf \/ 0xf8 <= byte_val fb) /\
    (len [xb9; x01] <= 0 + 1 \/
     exists lb, byte_at [xb9; x01] (0 + 1) = Some lb /\ byte_val lb <> 0 /\
                len [xb9; x01] < 0 + header_size (byte_val fb)).
Proof.
  apply (ReadSize_IncompleteInput_iff [xb9; x01] 0).
  unfold buf_ok, len, GoInt.max_int. simpl. lia.
Defined.

(** ** Headers are the shortest ones *)

(** X7: The header bytes of a list item [ReadSize] accepts are the standard
    header for its payload length. *)
Theorem ReadSize_list_header_canonical B s ds sz :
  buf_ok B -> ReadSize B s = Ok (false, ds, sz) ->
  seg B s ds = rlp_list_header sz.
Proof.
  intros Hok H. apply ReadSize_sound in H; [|exact Hok].
  unfold rlp_list_header.
  destruct (item_at_cases _ _ _ _ _ H) as (fb & Hb & Hc).
  pose proof (byte_val_range fb).
  destruct Hc as [(_ & Hk & _)|[(_ & Hk & _)|[(Hf & _ & -> & ->)|
    (n & lb & base & Hk & Hf & Hn & -> & Hle & Hlb & Hnz & -> & Hv)]]];
    try discriminate.
  - destruct (Z.leb_spec (byte_val fb - 192) 55); [|lia].
    replace (192 + (byte_val fb - 192)) with (byte_val fb) by lia.
    rewrite byte_of_val. apply seg_one. assumption.
  - destruct (Z.leb_spec (be_value (seg B (s + 1) (s + 1 + n))) 55); [lia|].
    destruct Hk as [(Hk & _)|(_ & -> & _)]; [discriminate|].
    symmetry. eapply long_header_bytes; eauto; lia.
Qed.

Lemma ReadSize_list_header_canonical_witness :
  seg [x41; xf9; x01; x00] 1 4 = rlp_list_header 256.
Proof.
  apply (ReadSize_list_header_canonical [x41; xf9; x01; x00] 1 4 256).
  - unfold buf_ok, len, GoInt.max_int. simpl. lia.
  - vm_compute. reflexivity.
Defined.

(** X8: A string item that [ReadSize] delimits within the buffer is the standard
    encoding of its payload, unless it is the tag [0x81] before a byte of at
    most [0x7F]. *)
Theorem ReadSize_string_item_canonical B s ds sz :
  buf_ok B -> ReadSize B s = Ok (true, ds, sz) -> ds + sz <= len B ->
  ~ (exists fb b, byte_at B s = Some fb /\ byte_val fb = 0x81 /\
                  byte_at B (s + 1) = Some b /\ byte_val b <= 0x7f) ->
  seg B s (ds + sz) = rlp_encode_string (seg B ds (ds + sz)).
Proof.
  intros Hok H Hend Hex. apply ReadSize_sound in H; [|exact Hok].
  pose proof (item_at_bounds _ _ _ _ _ H) as (Hb1 & Hb2 & Hb3 & Hb4).
  unfold rlp_encode_string.
  rewrite <- (seg_app B s ds (ds + sz)) by lia. f_equal.
  assert (len (seg B ds (ds + sz)) = sz) as Hlen by (rewrite len_seg; lia).
  destruct (item_at_cases _ _ _ _ _ H) as (fb & Hb & Hc).
  pose proof (byte_val_range fb).
  destruct Hc as [(Hf & _ & -> & ->)|[(Hf & _ & -> & ->)|[(_ & Hk & _)|
    (n & lb & base & Hk & Hf & Hn & -> & Hle & Hlb & Hnz & -> & Hv)]]];
    try discriminate.
  - rewrite seg_empty, (seg_one _ _ _ Hb). unfold rlp_string_header.
    destruct (Z.leb_spec (byte_val fb) 0x7f); [reflexivity|lia].
  - rewrite rlp_string_header_general.
    + rewrite Hlen. destruct (Z.leb_spec (byte_val fb - 128) 55); [|lia].
      replace (128 + (byte_val fb - 128)) with (byte_val fb) by lia.
      rewrite byte_of_val. apply seg_one. exact Hb.
    + destruct (Z.eq_dec (byte_val fb - 128) 1) as [E1|E1]; [|left; lia].
      right.
      destruct (index_in_range B (s + 1)) as (b & _ & Hb'); [lia|].
      exists b. rewrite E1. split; [apply seg_one; exact Hb'|].
      destruct (Z_le_gt_dec (byte_val b) 0x7f) as [Hle|Hgt]; [|lia].
      exfalso. apply Hex. exists fb, b. repeat split; try assumption. lia.
  - rewrite rlp_string_header_general by (left; lia).
    rewrite Hlen.
    destruct (Z.leb_spec (be_value (seg B (s + 1) (s + 1 + n))) 55); [lia|].
    destruct Hk as [(_ & -> & _)|(Hk & _)]; [|discriminate].
    symmetry. eapply long_header_bytes; eauto; lia.
Qed.

Lemma ReadSize_string_item_canonical_witness :
  seg [xc4; x83; x64; x6f; x67] 1 (2 + 3)
  = rlp_encode_string (seg [xc4; x83; x64; x6f; x67] 2 (2 + 3)).
Proof.
  apply (ReadSize_string_item_canonical [xc4; x83; x64; x6f; x67] 1 2 3).
  - unfold buf_ok, len, GoInt.max_int. simpl. lia.
  - vm_compute. reflexivity.
  - unfold len. simpl. lia.
  - intros (fb & b & Hfb & Hv & _). injection Hfb as <-. vm_compute in Hv.
    discriminate Hv.
Defined.

(** ** An item inside a larger buffer *)

Lemma byte_at_embed (P B T : list byte) i b :
  byte_at B i = Some b -> byte_at (P ++ B ++ T) (len P + i) = Some b.
Proof.
  intros H. pose proof (byte_at_range _ _ _ H) as Hr. unfold byte_at in *.
  pose proof (len_nonneg P).
  destruct (Z.leb_spec 0 i); [|lia].
  destruct (Z.leb_spec 0 (len P + i)); [|lia].
  replace (Z.to_nat (len P + i)) with (length P + Z.to_nat i)%nat
    by (unfold len; lia).
  rewrite nth_error_app2 by lia.
  replace (length P + Z.to_nat i - length P)%nat with (Z.to_nat i) by lia.
  rewrite nth_error_app1 by (unfold len in Hr; lia). exact H.
Qed.

Lemma seg_embed (P B T : list byte) lo hi :
  0 <= lo <= hi -> hi <= len B ->
  seg (P ++ B ++ T) (len P + lo) (len P + hi) = seg B lo hi.
Proof.
  intros H1 H2. unfold seg.
  replace (len P + hi - (len P + lo)) with (hi - lo) by lia.
  replace (Z.to_nat (len P + lo)) with (length P + Z.to_nat lo)%nat
    by (unfold len; lia).
  rewrite skipn_app. rewrite skipn_all2 by lia.
  replace (length P + Z.to_nat lo - length P)%nat with (Z.to_nat lo) by lia.
  simpl app. rewrite skipn_app. rewrite firstn_app.
  replace (Z.to_nat (hi - lo) - length (skipn (Z.to_nat lo) B))%nat with 0%nat
    by (rewrite length_skipn; unfold len in H2; lia).
  rewrite firstn_O. apply app_nil_r.
Qed.

Lemma item_at_embed (P B T : list byte) s k ds sz :
  item_at B s k ds sz ->
  item_at (P ++ B ++ T) (len P + s) k (len P + ds) sz.
Proof.
  intros H. pose proof (item_at_bounds _ _ _ _ _ H) as (Hb1 & Hb2 & _).
  destruct H as [fb Hb Hf|fb Hb Hf|fb Hb Hf|fb k n lb Hb Hk Hn Hlb Hnz Hv].
  - eapply item_single; [apply byte_at_embed; exact Hb | exact Hf].
  - replace (len P + (s + 1)) with (len P + s + 1) by lia.
    eapply item_short_string; [apply byte_at_embed; exact Hb | exact Hf].
  - replace (len P + (s + 1)) with (len P + s + 1) by lia.
    eapply item_short_list; [apply byte_at_embed; exact Hb | exact Hf].
  - assert (1 <= n) by (pose proof (byte_val_range fb); lia).
    assert (seg (P ++ B ++ T) (len P + s + 1) (len P + s + 1 + n)
            = seg B (s + 1) (s + 1 + n)) as E.
    { replace (len P + s + 1) with (len P + (s + 1)) by lia.
      replace (len P + (s + 1) + n) with (len P + (s + 1 + n)) by lia.
      apply seg_embed; lia. }
    replace (len P + (s + 1 + n)) with (len P + s + 1 + n) by lia.
    rewrite <- E.
    eapply item_long.
    + apply byte_at_embed; exact Hb.
    + exact Hk.
    + rewrite !len_app. pose proof (len_nonneg T). lia.
    + replace (len P + s + 1) with (len P + (s + 1)) by lia.
      apply byte_at_embed; exact Hlb.
    + exact Hnz.
    + rewrite E. exact Hv.
Qed.

(** X9: Reading a prefix looks at the header bytes only: with bytes put before
    and after the buffer, the same item is found at the shifted index. *)
Theorem ReadSize_embed (P B T : list byte) s k ds sz :
  buf_ok (P ++ B ++ T) -> ReadSize B s = Ok (k, ds, sz) ->
  ReadSize (P ++ B ++ T) (len P + s) = Ok (k, len P + ds, sz).
Proof.
  intros Hok H.
  assert (buf_ok B) as HokB.
  { unfold buf_ok in *. rewrite !len_app in Hok.
    pose proof (len_nonneg P). pose proof (len_nonneg T). lia. }
  apply ReadSize_item_at; [exact Hok|]. apply item_at_embed.
  apply ReadSize_sound; assumption.
Qed.

Lemma ReadSize_embed_witness :
  ReadSize ([xc4] ++ [xb9; x01; x02] ++ [x00]) (len [xc4] + 0)
  = Ok (true, len [xc4] + 3, 258).
Proof.
  apply (ReadSize_embed [xc4] [xb9; x01; x02] [x00] 0 true 3 258).
  - unfold buf_ok, len, GoInt.max_int. simpl. lia.
  - vm_compute. reflexivity.
Defined.

(** ** What the decoders return, by where the payload ends *)

(** The three outcomes of [DecodeString] after a string prefix at index 0. *)
Lemma DecodeString_end_cases B ds L :
  buf_ok B -> ReadSize B 0 = Ok (true, ds, L) -> ds + L <= GoInt.max_int ->
  DecodeString B 0 =
  if len B <? ds + L then Err ErrIncompleteInput
  else if ds + L <? len B then Err ErrInputContainsExtraBytes
  else Ok (seg B ds (len B)).
Proof.
  intros Hok Hr Hmax. unfold DecodeString, bind. rewrite Hr.
  pose proof (ReadSize_sound _ _ _ _ _ Hok Hr) as Hi.
  pose proof (item_at_bounds _ _ _ _ _ Hi) as (Hb1 & Hb2 & Hb3 & Hb4).
  simpl negb. cbv iota.
  destruct ((L =? 1) && (0 =? ds)) eqn:E.
  - apply andb_true_iff in E as [E1 E2]. apply Z.eqb_eq in E1, E2. subst.
    rewrite Z.gtb_ltb.
    destruct (Z.ltb_spec (len B) (0 + 1)); [lia|].
    destruct (Z.ltb_spec 1 (len B)); destruct (Z.ltb_spec (0 + 1) (len B));
      try lia; [reflexivity|].
    destruct (index_in_range B 0) as (b & Hi' & Hb'); [lia|]. rewrite Hi'.
    replace (len B) with (0 + 1) by lia. rewrite (seg_one _ _ _ Hb'). reflexivity.
  - rewrite add_id by (unfold GoInt.in_range, GoInt.min_int; lia).
    rewrite !Z.gtb_ltb.
    destruct (Z.ltb_spec (len B) (ds + L)); [reflexivity|].
    destruct (Z.ltb_spec (ds + L) (len B)); [reflexivity|].
    replace (ds + L) with (len B) by lia.
    apply slice_in_range; lia.
Qed.

(** X10: With a string prefix at index 0 whose end index is an [int],
    [DecodeString] compares the end of the payload with the end of the
    buffer: past it the input is incomplete, before it there are extra
    bytes, at it the payload is returned. *)
Theorem DecodeString_by_payload_end B ds L :
  buf_ok B -> ReadSize B 0 = Ok (true, ds, L) -> ds + L <= GoInt.max_int ->
  DecodeString B 0 =
  if len B <? ds + L then Err ErrIncompleteInput
  else if ds + L <? len B then Err ErrInputContainsExtraBytes
  else Ok (seg B ds (len B)).
Proof.
  exact (DecodeString_end_cases B ds L).
Qed.

Lemma DecodeString_by_payload_end_witness :
  DecodeString [x83; x64; x6f; x67; x01] 0 =
  if len [x83; x64; x6f; x67; x01] <? 1 + 3 then Err ErrIncompleteInput
  else if 1 + 3 <? len [x83; x64; x6f; x67; x01]
       then Err ErrInputContainsExtraBytes
       else Ok (seg [x83; x64; x6f; x67; x01] 1 (len [x83; x64; x6f; x67; x01])).
Proof.
  apply (DecodeString_by_payload_end [x83; x64; x6f; x67; x01] 1 3).
  - unfold buf_ok, len, GoInt.max_int. simpl. lia.
  - vm_compute. reflexivity.
  - unfold GoInt.max_int. lia.
Defined.

(** X11: A single byte of at most [0x7F] is a string of its own only at index 0
    of a one-byte buffer: at any later start index [DecodeString] reports
    extra bytes, even when the byte is the last of the buffer. *)
Theorem DecodeString_single_byte_at_offset B s fb :
  buf_ok B -> 0 < s -> byte_at B s = Some fb -> byte_val fb <= 0x7f ->
  DecodeString B s = Err ErrInputContainsExtraBytes.
Proof.
  intros Hok Hs Hb Hf. pose proof (byte_at_range _ _ _ Hb).
  unfold DecodeString, bind.
  rewrite (proj2 (ReadSize_item_at B s true s 1 Hok) (item_single B s fb Hb Hf)).
  simpl negb. cbv iota. rewrite !Z.eqb_refl. simpl andb. cbv iota.
  rewrite Z.gtb_ltb. destruct (Z.ltb_spec 1 (len B)); [reflexivity|lia].
Qed.

Lemma DecodeString_single_byte_at_offset_witness :
  DecodeString [x00; x41] 1 = Err ErrInputContainsExtraBytes.
Proof.
  apply (DecodeString_single_byte_at_offset [x00; x41] 1 x41).
  - unfold buf_ok, len, GoInt.max_int. simpl. lia.
  - lia.
  - reflexivity.
  - vm_compute. discriminate.
Defined.

(** Once the sub-items read reach the declared end of the list payload
    exactly, [DecodeList] returns them, or reports extra bytes if the buffer
    goes on. *)
Lemma DecodeList_closed B s ds L hs es c :
  buf_ok B -> ReadSize B s = Ok (false, ds, L) ->
  sub_items B ds hs es c -> c - ds = L ->
  DecodeList B s
  = Some (if c <? len B then Err ErrInputContainsExtraBytes else Ok es).
Proof.
  intros Hok Hr Hs HL. loop_reaches Hok Hr Hs.
  destruct (Z.ltb_spec (0 + (c - ds)) L); [lia|].
  replace (0 + (c - ds)) with L by lia. rewrite Z.eqb_refl.
  simpl negb. cbv iota. rewrite Z.gtb_ltb. simpl app.
  destruct (c <? len B); reflexivity.
Qed.

(** X12: When the sub-item that reaches the declared end of the list payload
    ends beyond it, though within the buffer, [DecodeList] reports a list
    size mismatch. *)
Theorem DecodeList_size_mismatch_on_overrun B s ds L hs es c k ds' sz' :
  buf_ok B -> ReadSize B s = Ok (false, ds, L) ->
  sub_items B ds hs es c -> c - ds < L ->
  ReadSize B c = Ok (k, ds', sz') -> ds' + sz' <= len B ->
  L < ds' + sz' - ds ->
  DecodeList B s = Some (Err ErrListSizeMismatch).
Proof.
  intros Hok Hr Hs HL Hc Hend Hover. loop_reaches Hok Hr Hs.
  destruct (Z.ltb_spec (0 + (c - ds)) L); [|lia].
  rewrite Hc.
  pose proof (ReadSize_sound _ _ _ _ _ Hok Hc) as Hi'.
  pose proof (item_at_bounds _ _ _ _ _ Hi') as (Hc1 & Hc2 & Hc3 & Hc4).
  pose proof (buf_ok_len _ Hok).
  rewrite (add_id ds' sz') by int_range.
  rewrite Z.gtb_ltb. destruct (Z.ltb_spec (len B) (ds' + sz')); [lia|].
  rewrite slice_in_range by lia.
  rewrite sub_id by int_range. rewrite add_id by int_range.
  destruct (length B - length es)%nat; cbn [DecodeList_loop];
    (destruct (Z.ltb_spec (0 + (c - ds) + (ds' + sz' - c)) L); [lia|]);
    (destruct (Z.eqb_spec (0 + (c - ds) + (ds' + sz' - c)) L); [lia|]);
    reflexivity.
Qed.

(** ** Decoding what the standard encoder produces *)

Lemma byte_val_of z : 0 <= z < 256 -> byte_val (byte_of z) = z.
Proof.
  intros H. unfold byte_val, byte_of.
  destruct (Byte.of_N (Z.to_N z)) as [b|] eqn:E.
  - apply Byte.to_of_N in E. rewrite E. lia.
  - apply Byte.of_N_None_iff in E. lia.
Qed.

Lemma be_bytes_aux_zero fuel acc : be_bytes_aux fuel 0 acc = acc.
Proof. destruct fuel; reflexivity. Qed.

Lemma be_bytes_aux_spec fuel : forall z acc,
  0 <= z < 256 ^ Z.of_nat fuel ->
  exists l,
    be_bytes_aux fuel z acc = l ++ acc /\ be_value l = z /\
    (length l <= fuel)%nat /\
    (0 < z -> exists x t, l = x :: t /\ byte_val x <> 0).
Proof.
  induction fuel as [|fuel IH]; intros z acc Hz.
  - exists []. change (256 ^ Z.of_nat 0) with 1 in Hz.
    split; [reflexivity|]. split; [change (be_value []) with 0; lia|].
    split; [simpl; lia|]. intros Hpos. lia.
  - cbn [be_bytes_aux]. destruct (Z.leb_spec z 0).
    { exists []. split; [reflexivity|].
      split; [change (be_value []) with 0; lia|].
      split; [simpl; lia|]. intros Hpos. lia. }
    rewrite Nat2Z.inj_succ, Z.pow_succ_r in Hz by lia.
    assert (0 <= z mod 256 < 256) as Hm by (apply Z.mod_pos_bound; lia).
    assert (z = 256 * (z / 256) + z mod 256) as Hd by (apply Z.div_mod; lia).
    assert (0 <= z / 256 < 256 ^ Z.of_nat fuel) as Hq.
    { split; [apply Z.div_pos; lia|]. apply Z.div_lt_upper_bound; lia. }
    destruct (Z.eq_dec (z / 256) 0) as [E0|E0].
    + rewrite E0, be_bytes_aux_zero. exists [byte_of (z mod 256)].
      split; [reflexivity|]. split; [|split].
      * rewrite be_value_single, byte_val_of by lia. lia.
      * simpl. lia.
      * intros _. exists (byte_of (z mod 256)), []. split; [reflexivity|].
        rewrite byte_val_of by lia. lia.
    + destruct (IH (z / 256) (byte_of (z mod 256) :: acc) Hq)
        as (l & El & Ev & Hl & Hh).
      exists (l ++ [byte_of (z mod 256)]). split; [|split; [|split]].
      * rewrite El, <- app_assoc. reflexivity.
      * rewrite be_value_snoc, Ev, byte_val_of by lia. lia.
      * rewrite length_app. simpl. lia.
      * intros _. destruct Hh as (x & t & -> & Hx); [lia|].
        exists x, (t ++ [byte_of (z mod 256)]). split; [reflexivity|exact Hx].
Qed.

(** The length bytes the encoder writes for a length above 55: at most
    eight, no leading zero, and of that value. *)
Lemma be_bytes_spec L :
  55 < L <= GoInt.max_int ->
  1 <= len (be_bytes L) <= 8 /\ be_value (be_bytes L) = L /\
  exists x t, be_bytes L = x :: t /\ byte_val x <> 0.
Proof.
  intros HL. unfold GoInt.max_int in HL. unfold be_bytes.
  destruct (be_bytes_aux_spec 8 L []) as (l & El & Ev & Hl & Hh).
  { change (256 ^ Z.of_nat 8) with 18446744073709551616. lia. }
  rewrite El, app_nil_r. destruct Hh as (x & t & -> & Hx); [lia|].
  split; [|split; [exact Ev|exists x, t; split; [reflexivity|exact Hx]]].
  split.
  - rewrite len_cons. pose proof (len_nonneg t). lia.
  - unfold len. lia.
Qed.

Lemma seg_after_prefix (P B : list byte) :
  seg (P ++ B) (len P) (len P + len B) = B.
Proof.
  pose proof (seg_embed P B [] 0 (len B)) as H.
  rewrite app_nil_r, Z.add_0_r in H.
  rewrite H by (pose proof (len_nonneg B); lia). apply seg_full.
Qed.

Lemma seg_prefix (P B : list byte) : seg (P ++ B) 0 (len P) = P.
Proof.
  pose proof (seg_embed [] P B 0 (len P)) as H. simpl app in H.
  change (len (@nil byte)) with 0 in H. rewrite !Z.add_0_l in H.
  rewrite H by (pose proof (len_nonneg P); lia). apply seg_full.
Qed.

(** The item at the front of [header ++ payload], for the standard string
    header of a payload that is not a single byte of at most [0x7F]. *)
Lemma item_at_string_header p :
  len p <= GoInt.max_int ->
  (len p <> 1 \/ exists b, p = [b] /\ 0x7f < byte_val b) ->
  item_at (rlp_string_header p ++ p) 0 true (len (rlp_string_header p)) (len p).
Proof.
  intros Hmax Hp. rewrite (rlp_string_header_general p Hp).
  pose proof (len_nonneg p) as Hnn.
  destruct (Z.leb_spec (len p) 55) as [Hs|Hl].
  - assert (128 <= byte_val (byte_of (128 + len p)) <= 183) as Hf
      by (rewrite byte_val_of; lia).
    pose proof (item_short_string ([byte_of (128 + len p)] ++ p) 0
                  (byte_of (128 + len p)) eq_refl Hf) as H.
    rewrite byte_val_of in H by lia.
    replace (128 + len p - 128) with (len p) in H by lia. exact H.
  - destruct (be_bytes_spec (len p)) as (Hn & Hv & x & t & Eb & Hx); [lia|].
    set (n := len (be_bytes (len p))) in *.
    set (fb := byte_of (183 + n)).
    assert (seg ((fb :: be_bytes (len p)) ++ p) (0 + 1) (0 + 1 + n)
            = be_bytes (len p)) as Es.
    { pose proof (seg_embed [fb] (be_bytes (len p)) p 0 n) as H.
      change (len [fb]) with 1 in H. simpl app in H |- *.
      replace (0 + 1) with (1 + 0) by lia. replace (1 + 0 + n) with (1 + n) by lia.
      rewrite H by (subst n; lia). apply seg_full. }
    assert (item_at ((fb :: be_bytes (len p)) ++ p) 0 true (0 + 1 + n)
              (be_value (seg ((fb :: be_bytes (len p)) ++ p) (0 + 1) (0 + 1 + n))))
      as H.
    { apply (item_long _ 0 fb true n x).
      + reflexivity.
      + left. subst fb. rewrite byte_val_of by lia. repeat split; lia.
      + rewrite len_app, len_cons. subst n. lia.
      + simpl app. rewrite Eb. reflexivity.
      + exact Hx.
      + rewrite Es, Hv. lia. }
    rewrite Es, Hv in H.
    replace (len (fb :: be_bytes (len p))) with (0 + 1 + n)
      by (rewrite len_cons; subst n; lia).
    exact H.
Qed.

Lemma buf_ok_app_r {A} (P B : list A) : buf_ok (P ++ B) -> buf_ok B.
Proof.
  unfold buf_ok. rewrite len_app. pose proof (len_nonneg P). lia.
Qed.

(** X13: [DecodeString] gives back every payload from its standard encoding. *)
Theorem DecodeString_of_encoded p :
  buf_ok (rlp_encode_string p) ->
  DecodeString (rlp_encode_string p) 0 = Ok p.
Proof.
  intros Hok.
  assert (len p <= GoInt.max_int) as Hmax.
  { apply buf_ok_app_r in Hok. unfold buf_ok in Hok. lia. }
  destruct (Z.eq_dec (len p) 1) as [E1|E1].
  - destruct (len_one_inv p E1) as [b ->].
    destruct (Z_le_gt_dec (byte_val b) 0x7f) as [Hle|Hgt].
    + unfold rlp_encode_string, rlp_string_header.
      destruct (Z.leb_spec (byte_val b) 0x7f); [|lia]. simpl app.
      apply DecodeString_single. exact Hle.
    + unfold rlp_encode_string, rlp_string_header.
      destruct (Z.leb_spec (byte_val b) 0x7f); [lia|].
      change (byte_of (128 + len [b])) with x81. apply DecodeString_short_single.
  - unfold rlp_encode_string in *.
    pose proof (item_at_string_header p Hmax (or_introl E1)) as Hi.
    apply ReadSize_item_at in Hi; [|exact Hok].
    rewrite (DecodeString_end_cases _ _ _ Hok Hi).
    + rewrite len_app.
      destruct (Z.ltb_spec (len (rlp_string_header p) + len p)
                           (len (rlp_string_header p) + len p)); [lia|].
      f_equal. apply seg_after_prefix.
    + unfold buf_ok in Hok. rewrite len_app in Hok. lia.
Qed.

Lemma DecodeString_of_encoded_witness :
  DecodeString (rlp_encode_string [x64; x6f; x67]) 0 = Ok [x64; x6f; x67].
Proof.
  apply (DecodeString_of_encoded [x64; x6f; x67]).
  unfold buf_ok, len, GoInt.max_int. simpl. lia.
Defined.

Lemma item_at_list_header (W : list byte) :
  len W <= GoInt.max_int ->
  item_at (rlp_list_header (len W) ++ W) 0 false
    (len (rlp_list_header (len W))) (len W).
Proof.
  intros Hmax. unfold rlp_list_header. pose proof (len_nonneg W) as Hnn.
  destruct (Z.leb_spec (len W) 55) as [Hs|Hl].
  - assert (192 <= byte_val (byte_of (192 + len W)) <= 247) as Hf
      by (rewrite byte_val_of; lia).
    pose proof (item_short_list ([byte_of (192 + len W)] ++ W) 0
                  (byte_of (192 + len W)) eq_refl Hf) as H.
    rewrite byte_val_of in H by lia.
    replace (192 + len W - 192) with (len W) in H by lia. exact H.
  - destruct (be_bytes_spec (len W)) as (Hn & Hv & x & t & Eb & Hx); [lia|].
    set (n := len (be_bytes (len W))) in *.
    set (fb := byte_of (247 + n)).
    assert (seg ((fb :: be_bytes (len W)) ++ W) (0 + 1) (0 + 1 + n)
            = be_bytes (len W)) as Es.
    { pose proof (seg_embed [fb] (be_bytes (len W)) W 0 n) as H.
      change (len [fb]) with 1 in H. simpl app in H |- *.
      replace (0 + 1) with (1 + 0) by lia. replace (1 + 0 + n) with (1 + n) by lia.
      rewrite H by (subst n; lia). apply seg_full. }
    assert (item_at ((fb :: be_bytes (len W)) ++ W) 0 false (0 + 1 + n)
              (be_value (seg ((fb :: be_bytes (len W)) ++ W) (0 + 1) (0 + 1 + n))))
      as H.
    { apply (item_long _ 0 fb false n x).
      + reflexivity.
      + right. subst fb. rewrite byte_val_of by lia. repeat split; lia.
      + rewrite len_app, len_cons. subst n. lia.
      + simpl app. rewrite Eb. reflexivity.
      + exact Hx.
      + rewrite Es, Hv. lia. }
    rewrite Es, Hv in H.
    replace (len (fb :: be_bytes (len W))) with (0 + 1 + n)
      by (rewrite len_cons; subst n; lia).
    exact H.
Qed.

Lemma sub_items_of_whole_items ws es :
  Forall2 (fun w e => exists k ds sz,
             item_at w 0 k ds sz /\ ds + sz = len w /\ e = seg w ds (len w))
          ws es ->
  forall P T : list byte,
  exists hs,
    sub_items (P ++ concat ws ++ T) (len P) hs es (len P + len (concat ws)).
Proof.
  induction 1 as [|w e ws es (k & ds & sz & Hi & Hend & ->) _ IH]; intros P T.
  - exists []. simpl concat. change (len (@nil byte)) with 0.
    rewrite Z.add_0_r. constructor.
  - destruct (IH (P ++ w) T) as (hs & Hs).
    pose proof (item_at_bounds _ _ _ _ _ Hi) as (Hb1 & Hb2 & Hb3 & Hb4).
    simpl concat.
    replace ((P ++ w) ++ concat ws ++ T) with (P ++ w ++ concat ws ++ T) in Hs
      by (rewrite <- !app_assoc; reflexivity).
    replace (P ++ (w ++ concat ws) ++ T) with (P ++ w ++ concat ws ++ T)
      by (rewrite <- !app_assoc; reflexivity).
    pose proof (item_at_embed P w (concat ws ++ T) 0 k ds sz Hi) as Hi'.
    rewrite Z.add_0_r in Hi'.
    exists (seg (P ++ w ++ concat ws ++ T) (len P) (len P + ds) :: hs).
    rewrite <- (seg_embed P w (concat ws ++ T) ds (len w)) by lia.
    rewrite <- Hend.
    replace (len P + (ds + sz)) with (len P + ds + sz) by lia.
    rewrite len_app in *.
    replace (len P + (len w + len (concat ws)))
      with (len P + len w + len (concat ws)) by lia.
    eapply sub_items_cons.
    + exact Hi'.
    + rewrite !len_app. pose proof (len_nonneg (concat ws)).
      pose proof (len_nonneg T). lia.
    + replace (len P + ds + sz) with (len P + len w) by lia. exact Hs.
Qed.

(** Decoding the concatenation of whole items behind a list header. *)
Lemma DecodeList_encoded_items ws es :
  Forall2 whole_item ws es ->
  buf_ok (rlp_encode_list ws) ->
  DecodeList (rlp_encode_list ws) 0 = Some (Ok es).
Proof.
  intros Hws Hok. unfold rlp_encode_list in *.
  set (W := concat ws) in *. set (H := rlp_list_header (len W)) in *.
  assert (len W <= GoInt.max_int) as Hmax.
  { apply buf_ok_app_r in Hok. unfold buf_ok in Hok. lia. }
  pose proof (item_at_list_header W Hmax) as Hi. fold H in Hi.
  apply ReadSize_item_at in Hi; [|exact Hok].
  assert (Forall2 (fun w e => exists k ds sz,
             item_at w 0 k ds sz /\ ds + sz = len w /\ e = seg w ds (len w))
            ws es) as Hws'.
  { assert (forall w, In w ws -> buf_ok w) as Hin.
    { intros w Hw. unfold buf_ok in *. rewrite len_app in Hok.
      pose proof (len_nonneg H).
      assert (len w <= len W); [|lia]. subst W. clear -Hw.
      induction ws as [|a ws IH]; [contradiction|]. simpl concat.
      rewrite len_app. pose proof (len_nonneg a).
      pose proof (len_nonneg (concat ws)).
      destruct Hw as [->|Hw]; [lia|]. specialize (IH Hw). lia. }
    clear -Hws Hin. induction Hws as [|w e ws es (k & ds & sz & Hr & He) _ IH].
    - constructor.
    - constructor.
      + exists k, ds, sz. split; [|exact He].
        apply ReadSize_sound; [apply Hin; left; reflexivity | exact Hr].
      + apply IH. intros w' Hw'. apply Hin. right. exact Hw'. }
  destruct (sub_items_of_whole_items ws es Hws' H []) as (hs & Hs).
  fold W in Hs. rewrite app_nil_r in Hs.
  rewrite (DecodeList_closed (H ++ W) 0 (len H) (len W) hs es (len H + len W)
             Hok Hi Hs) by lia.
  rewrite len_app.
  destruct (Z.ltb_spec (len H + len W) (len H + len W)); [lia|reflexivity].
Qed.

(** X14: [DecodeList] gives back, from the standard encoding of a list of whole
    items, the payload of each of them in order. *)
Theorem DecodeList_of_encoded ws es :
  Forall2 whole_item ws es ->
  buf_ok (rlp_encode_list ws) ->
  DecodeList (rlp_encode_list ws) 0 = Some (Ok es).
Proof.
  exact (DecodeList_encoded_items ws es).
Qed.

Lemma DecodeList_of_encoded_witness :
  DecodeList (rlp_encode_list [[x83; x64; x6f; x67]; [xc1; x41]; [x05]]) 0
  = Some (Ok [[x64; x6f; x67]; [x41]; [x05]]).
Proof.
  apply (DecodeList_of_encoded
           [[x83; x64; x6f; x67]; [xc1; x41]; [x05]]
           [[x64; x6f; x67]; [x41]; [x05]]).
  - repeat constructor.
    + exists true, 1, 3. repeat split; vm_compute; reflexivity.
    + exists false, 1, 1. repeat split; vm_compute; reflexivity.
    + exists true, 0, 1. repeat split; vm_compute; reflexivity.
  - unfold buf_ok, len, GoInt.max_int. simpl. lia.
Defined.

Lemma whole_item_of_encoded_string p :
  buf_ok (rlp_encode_string p) -> whole_item (rlp_encode_string p) p.
Proof.
  intros Hok. unfold whole_item.
  assert (len p <= GoInt.max_int) as Hmax.
  { apply buf_ok_app_r in Hok. unfold buf_ok in Hok. lia. }
  destruct (Z.eq_dec (len p) 1) as [E1|E1].
  - destruct (len_one_inv p E1) as [b ->].
    destruct (Z_le_gt_dec (byte_val b) 0x7f) as [Hle|Hgt].
    + unfold rlp_encode_string, rlp_string_header.
      destruct (Z.leb_spec (byte_val b) 0x7f); [|lia]. simpl app.
      exists true, 0, 1. split; [|split; reflexivity].
      apply ReadSize_item_at; [apply buf_ok_small; simpl; lia|].
      apply (item_single [b] 0 b); [reflexivity|exact Hle].
    + unfold rlp_encode_string, rlp_string_header.
      destruct (Z.leb_spec (byte_val b) 0x7f); [lia|].
      change (byte_of (128 + len [b])) with x81. simpl app.
      exists true, 1, 1. split; [|split; reflexivity].
      apply ReadSize_item_at; [apply buf_ok_small; simpl; lia|].
      apply (item_short_string [x81; b] 0 x81);
        [reflexivity | vm_compute; split; discriminate].
  - unfold rlp_encode_string in *.
    pose proof (item_at_string_header p Hmax (or_introl E1)) as Hi.
    apply ReadSize_item_at in Hi; [|exact Hok].
    exists true, (len (rlp_string_header p)), (len p).
    split; [exact Hi|]. rewrite len_app. split; [reflexivity|].
    symmetry. apply seg_after_prefix.
Qed.

(** X15: A list of strings, encoded by the standard rules and decoded by
    [DecodeList], gives the strings back. *)
Theorem DecodeList_of_encoded_strings ps :
  buf_ok (rlp_encode_list (map rlp_encode_string ps)) ->
  DecodeList (rlp_encode_list (map rlp_encode_string ps)) 0 = Some (Ok ps).
Proof.
  intros Hok. apply DecodeList_encoded_items; [|exact Hok].
  assert (forall p, In p ps -> buf_ok (rlp_encode_string p)) as Hin.
  { intros p Hp. unfold rlp_encode_list in Hok. apply buf_ok_app_r in Hok.
    unfold buf_ok in *.
    assert (len (rlp_encode_string p) <= len (concat (map rlp_encode_string ps)));
      [|lia].
    clear -Hp. induction ps as [|a ps IH]; [contradiction|]. simpl.
    rewrite len_app. pose proof (len_nonneg (rlp_encode_string a)).
    pose proof (len_nonneg (concat (map rlp_encode_string ps))).
    destruct Hp as [->|Hp]; [lia|]. specialize (IH Hp). lia. }
  clear Hok. induction ps as [|p ps IH]; simpl; constructor.
  - apply whole_item_of_encoded_string. apply Hin. left. reflexivity.
  - apply IH. intros q Hq. apply Hin. right. exact Hq.
Qed.

Lemma DecodeList_of_encoded_strings_witness :
  DecodeList (rlp_encode_list (map rlp_encode_string [[x41; x42]; []; [x05]; [x80]])) 0
  = Some (Ok [[x41; x42]; []; [x05]; [x80]]).
Proof.
  apply (DecodeList_of_encoded_strings [[x41; x42]; []; [x05]; [x80]]).
  unfold buf_ok, len, GoInt.max_int. simpl. lia.
Defined.

(** ** Acceptance by the list decoder *)

(** X16: [DecodeList] accepts a buffer at index 0 exactly when the prefix read
    there is a list whose declared payload ends with the buffer and is
    filled by sub-items; it returns their payloads. *)
Theorem DecodeList_accepts_iff B es :
  buf_ok B ->
  (DecodeList B 0 = Some (Ok es) <->
   exists ds L hs,
     ReadSize B 0 = Ok (false, ds, L) /\ ds + L = len B /\
     sub_items B ds hs es (len B)).
Proof.
  intros Hok. split.
  - intros H. destruct (DecodeList_accept_inv B 0 es Hok H)
      as (ds & L & hs & Hi & Hend & Hs).
    exists ds, L, hs. split; [|split; assumption].
    apply ReadSize_item_at; assumption.
  - intros (ds & L & hs & Hr & Hend & Hs).
    rewrite (DecodeList_closed B 0 ds L hs es (len B) Hok Hr Hs) by lia.
    destruct (Z.ltb_spec (len B) (len B)); [lia|reflexivity].
Qed.

Lemma DecodeList_accepts_iff_witness :
  DecodeList [xc2; x80; x41] 0 = Some (Ok [[]; [x41]]) <->
  exists ds L hs,
    ReadSize [xc2; x80; x41] 0 = Ok (false, ds, L) /\
    ds + L = len [xc2; x80; x41] /\
    sub_items [xc2; x80; x41] ds hs [[]; [x41]] (len [xc2; x80; x41]).
Proof.
  apply (DecodeList_accepts_iff [xc2; x80; x41] [[]; [x41]]).
  unfold buf_ok, len, GoInt.max_int. simpl. lia.
Defined.

(** X17: When the sub-items read reach the declared end of the list payload
    exactly and the buffer goes on, [DecodeList] reports extra bytes. *)
Theorem DecodeList_extra_bytes B s ds L hs es c :
  buf_ok B -> ReadSize B s = Ok (false, ds, L) ->
  sub_items B ds hs es c -> c - ds = L -> c < len B ->
  DecodeList B s = Some (Err ErrInputContainsExtraBytes).
Proof.
  intros Hok Hr Hs HL Hc.
  rewrite (DecodeList_closed B s ds L hs es c Hok Hr Hs HL).
  destruct (Z.ltb_spec c (len B)); [reflexivity|lia].
Qed.

Lemma DecodeList_extra_bytes_witness :
  DecodeList [xc1; x41; x01] 0 = Some (Err ErrInputContainsExtraBytes).
Proof.
  apply (DecodeList_extra_bytes [xc1; x41; x01] 0 1 1 [[]] [[x41]] 2).
  - unfold buf_ok, len, GoInt.max_int. simpl. lia.
  - vm_compute. reflexivity.
  - apply (sub_items_cons [xc1; x41; x01] 1 true 1 1 [] [] 2).
    + apply (item_single [xc1; x41; x01] 1 x41); [reflexivity | vm_compute; discriminate].
    + vm_compute. discriminate.
    + apply sub_items_nil.
  - lia.
  - unfold len. simpl. lia.
Defined.

Lemma DecodeList_size_mismatch_on_overrun_witness :
  DecodeList [xc2; x41; x82; x42; x43] 0 = Some (Err ErrListSizeMismatch).
Proof.
  apply (DecodeList_size_mismatch_on_overrun [xc2; x41; x82; x42; x43] 0 1 2
           [[]] [[x41]] 2 true 3 2).
  - unfold buf_ok, len, GoInt.max_int. simpl. lia.
  - vm_compute. reflexivity.
  - apply (sub_items_cons [xc2; x41; x82; x42; x43] 1 true 1 1 [] [] 2).
    + apply (item_single [xc2; x41; x82; x42; x43] 1 x41);
        [reflexivity | vm_compute; discriminate].
    + vm_compute. discriminate.
    + apply sub_items_nil.
  - lia.
  - vm_compute. reflexivity.
  - unfold len. simpl. lia.
  - lia.
Defined.

Lemma sub_items_payload_size B c hs es c' :
  sub_items B c hs es c' -> 0 <= c ->
  Z.of_nat (length es) <= c' - c /\ len (concat es) <= c' - c.
Proof.
  intros H. induction H as [c|c k ds sz hs es c' Hi Hle Hs IH]; intros Hc.
  - simpl. change (len (@nil byte)) with 0. lia.
  - pose proof (item_at_bounds _ _ _ _ _ Hi) as (Hb1 & Hb2 & Hb3 & Hb4).
    destruct IH as (IH1 & IH2); [lia|].
    simpl concat. simpl length. rewrite len_app, len_seg by lia. lia.
Qed.

(** X18: The elements [DecodeList] returns are fewer, and together shorter, than
    the bytes of the buffer after the start index. *)
Theorem DecodeList_output_size B s es :
  buf_ok B -> DecodeList B s = Some (Ok es) ->
  Z.of_nat (length es) <= len B - s - 1 /\
  len (concat es) <= len B - s - 1.
Proof.
  intros Hok H.
  destruct (DecodeList_accept_inv B s es Hok H) as (ds & L & hs & Hi & Hend & Hs).
  pose proof (item_at_bounds _ _ _ _ _ Hi) as (Hb1 & Hb2 & Hb3 & Hb4).
  destruct (sub_items_payload_size _ _ _ _ _ Hs) as (H1 & H2); [lia|].
  assert (s < ds); [|lia].
  destruct (item_at_cases _ _ _ _ _ Hi) as (fb & Hb & Hc).
  destruct Hc as [(_ & Hk & _)|[?|[?|(n & lb & base & ? & ? & ? & ? & _)]]];
    try discriminate; lia.
Qed.

Lemma DecodeList_output_size_witness :
  Z.of_nat (length [[x41; x42]; [x43]]) <= len [xc4; x82; x41; x42; x43] - 0 - 1 /\
  len (concat [[x41; x42]; [x43]]) <= len [xc4; x82; x41; x42; x43] - 0 - 1.
Proof.
  apply (DecodeList_output_size [xc4; x82; x41; x42; x43] 0 [[x41; x42]; [x43]]).
  - unfold buf_ok, len, GoInt.max_int. simpl. lia.
  - vm_compute. reflexivity.
Defined.

(** X19: The loop of [DecodeList] ends: [len(inp) + 1] iterations are enough for
    every buffer and start index, and allowing more changes nothing. *)
Theorem DecodeList_terminates B s fuel :
  buf_ok B -> (S (length B) <= fuel)%nat ->
  exists r, DecodeList_fuel fuel B s = Some r /\ DecodeList B s = Some r.
Proof.
  intros Hok Hf. destruct (DecodeList_total B s Hok) as [r Hr].
  exists r. split; [|exact Hr].
  replace fuel with (S (length B) + (fuel - S (length B)))%nat by lia.
  apply DecodeList_fuel_mono. exact Hr.
Qed.

Lemma DecodeList_terminates_witness :
  exists r, DecodeList_fuel 100 [xc2; x80; x41] 0 = Some r /\
            DecodeList [xc2; x80; x41] 0 = Some r.
Proof.
  apply (DecodeList_terminates [xc2; x80; x41] 0 100).
  - unfold buf_ok, len, GoInt.max_int. simpl. lia.
  - simpl. lia.
Defined.

(** ** Decoding at a start index *)

Lemma sub_items_embed (P B T : list byte) c hs es c' :
  sub_items B c hs es c' -> 0 <= c ->
  sub_items (P ++ B ++ T) (len P + c) hs es (len P + c').
Proof.
  intros H. induction H as [c|c k ds sz hs es c' Hi Hle Hs IH]; intros Hc.
  - constructor.
  - pose proof (item_at_bounds _ _ _ _ _ Hi) as (Hb1 & Hb2 & Hb3 & Hb4).
    rewrite <- (seg_embed P B T c ds) by lia.
    rewrite <- (seg_embed P B T ds (ds + sz)) by lia.
    replace (len P + (ds + sz)) with (len P + ds + sz) by lia.
    eapply sub_items_cons.
    + apply item_at_embed. exact Hi.
    + rewrite !len_app. pose proof (len_nonneg T). lia.
    + replace (len P + ds + sz) with (len P + (ds + sz)) by lia.
      apply IH. lia.
Qed.

(** X20: The bytes before the start index are not looked at: what the decoders
    return for a buffer at index 0 they return for the buffer behind any
    prefix, at the index after the prefix; a string of a single byte of at
    most [0x7F] apart. *)
Theorem decoders_ignore_bytes_before_start (P B : list byte) :
  buf_ok (P ++ B) ->
  (forall p, DecodeString B 0 = Ok p -> 1 < len B ->
             DecodeString (P ++ B) (len P) = Ok p) /\
  (forall es, DecodeList B 0 = Some (Ok es) ->
              DecodeList (P ++ B) (len P) = Some (Ok es)).
Proof.
  intros Hok. pose proof (buf_ok_app_r _ _ Hok) as HokB.
  pose proof (len_nonneg P) as HP. split.
  - intros p H Hlen.
    destruct (DecodeString_accept_inv B p HokB H)
      as [(fb & -> & _)|(ds & L & Hi & Hds & Hend & ->)].
    { change (len [fb]) with 1 in Hlen. lia. }
    pose proof (item_at_bounds _ _ _ _ _ Hi) as (Hb1 & Hb2 & Hb3 & Hb4).
    pose proof (item_at_embed P B [] 0 true ds L Hi) as Hi'.
    rewrite app_nil_r, Z.add_0_r in Hi'.
    apply ReadSize_item_at in Hi'; [|exact Hok].
    unfold DecodeString, bind. rewrite Hi'. simpl negb. cbv iota.
    destruct ((L =? 1) && (len P =? len P + ds)) eqn:E.
    { apply andb_true_iff in E as [_ E]. apply Z.eqb_eq in E. lia. }
    pose proof (buf_ok_len _ Hok) as Hl. rewrite len_app in Hl.
    rewrite add_id by int_range. rewrite !Z.gtb_ltb, len_app.
    destruct (Z.ltb_spec (len P + len B) (len P + ds + L)); [lia|].
    destruct (Z.ltb_spec (len P + ds + L) (len P + len B)); [lia|].
    rewrite slice_in_range by (rewrite ?len_app; lia). f_equal.
    pose proof (seg_embed P B [] ds (len B)) as Hs. rewrite app_nil_r in Hs.
    replace (len P + ds + L) with (len P + len B) by lia. apply Hs; lia.
  - intros es H.
    destruct (DecodeList_accept_inv B 0 es HokB H) as (ds & L & hs & Hi & Hend & Hs).
    pose proof (item_at_bounds _ _ _ _ _ Hi) as (Hb1 & Hb2 & Hb3 & Hb4).
    pose proof (item_at_embed P B [] 0 false ds L Hi) as Hi'.
    pose proof (sub_items_embed P B [] ds hs es (len B) Hs ltac:(lia)) as Hs'.
    rewrite app_nil_r in Hi', Hs'. rewrite Z.add_0_r in Hi'.
    apply ReadSize_item_at in Hi'; [|exact Hok].
    rewrite (DecodeList_closed (P ++ B) (len P) (len P + ds) L hs es
               (len P + len B) Hok Hi' Hs') by lia.
    rewrite len_app.
    destruct (Z.ltb_spec (len P + len B) (len P + len B)); [lia|reflexivity].
Qed.

Lemma decoders_ignore_bytes_before_start_witness :
  DecodeString ([xff; x00] ++ [x83; x64; x6f; x67]) (len [xff; x00])
  = Ok [x64; x6f; x67] /\
  DecodeList ([xff; x00] ++ [xc2; x80; x41]) (len [xff; x00])
  = Some (Ok [[]; [x41]]).
Proof.
  split.
  - apply (proj1 (decoders_ignore_bytes_before_start [xff; x00] [x83; x64; x6f; x67]
                    ltac:(unfold buf_ok, len, GoInt.max_int; simpl; lia))).
    + vm_compute. reflexivity.
    + unfold len. simpl. lia.
  - apply (proj2 (decoders_ignore_bytes_before_start [xff; x00] [xc2; x80; x41]
                    ltac:(unfold buf_ok, len, GoInt.max_int; simpl; lia))).
    vm_compute. reflexivity.
Defined.

(** ** The ordered map: the Go map, the list and the heap *)

Module SemaFacts.
Import Sema.
Import String.StringSyntax.
Local Delimit Scope string_scope with string.

Section Facts.

Variable V : Type.
Variable nilV : V.

Lemma map_get_In m key p :
  NoDup (map fst m) -> (map_get m key = Some p <-> In (key, p) m).
Proof.
  induction m as [|[k q] m IH]; simpl; intros Hnd.
  - split; [discriminate|contradiction].
  - inversion Hnd as [|? ? Hk Hnd']; subst.
    destruct (String.eqb_spec key k) as [->|Hne].
    + split.
      * intros [= ->]. left. reflexivity.
      * intros [[= ->]|Hin]; [reflexivity|].
        exfalso. apply Hk. apply (in_map fst) in Hin. exact Hin.
    + rewrite IH by exact Hnd'. split.
      * intros H. right. exact H.
      * intros [[= -> ->]|Hin]; [congruence|exact Hin].
Qed.

Lemma map_get_None m key :
  map_get m key = None <-> ~ In key (map fst m).
Proof.
  induction m as [|[k q] m IH]; simpl.
  - split; [intros _ []|reflexivity].
  - destruct (String.eqb_spec key k) as [->|Hne].
    + split; [discriminate|]. intros H. exfalso. apply H. left. reflexivity.
    + rewrite IH. split.
      * intros H [E|Hin]; [congruence|exact (H Hin)].
      * intros H Hin. apply H. right. exact Hin.
Qed.

Lemma map_delete_In m key k p :
  In (k, p) (map_delete m key) <-> In (k, p) m /\ k <> key.
Proof.
  unfold map_delete. rewrite filter_In. simpl.
  destruct (String.eqb_spec key k) as [->|Hne]; simpl.
  - split; [intros [_ [=]]|intros [_ H]; congruence].
  - split; [intros [H _]; split; [exact H|congruence]|intros [H _]; split; [exact H|reflexivity]].
Qed.

Lemma map_delete_keys m key k :
  In k (map fst (map_delete m key)) <-> In k (map fst m) /\ k <> key.
Proof.
  rewrite !in_map_iff. split.
  - intros ([k' p] & E & Hin). simpl in E. subst k'.
    apply map_delete_In in Hin as [Hin Hne]. split; [|exact Hne].
    exists (k, p). split; [reflexivity|exact Hin].
  - intros (([k' p] & E & Hin) & Hne). simpl in E. subst k'.
    exists (k, p). split; [reflexivity|]. apply map_delete_In. split; assumption.
Qed.

Lemma map_delete_NoDup m key :
  NoDup (map fst m) -> NoDup (map fst (map_delete m key)).
Proof.
  induction m as [|[k q] m IH]; simpl; intros Hnd; [constructor|].
  inversion Hnd as [|? ? Hk Hnd']; subst.
  destruct (String.eqb key k); simpl; [apply IH; exact Hnd'|].
  constructor; [|apply IH; exact Hnd'].
  intros Hin. apply map_delete_keys in Hin as [Hin _]. exact (Hk Hin).
Qed.

Lemma map_get_delete_same m key : map_get (map_delete m key) key = None.
Proof.
  apply map_get_None. intros Hin. apply map_delete_keys in Hin as [_ H].
  congruence.
Qed.

Lemma map_get_delete_other m key k :
  k <> key -> map_get (map_delete m key) k = map_get m k.
Proof.
  intros Hne. induction m as [|[k' q] m IH]; simpl; [reflexivity|].
  destruct (String.eqb_spec key k') as [->|Hne']; simpl.
  - destruct (String.eqb_spec k k'); [congruence|exact IH].
  - destruct (String.eqb_spec k k'); [reflexivity|exact IH].
Qed.

Lemma map_delete_absent m key :
  ~ In key (map fst m) -> map_delete m key = m.
Proof.
  induction m as [|[k q] m IH]; simpl; intros H; [reflexivity|].
  destruct (String.eqb_spec key k) as [->|Hne]; simpl.
  - exfalso. apply H. left. reflexivity.
  - rewrite IH; [reflexivity|]. intros Hin. apply H. right. exact Hin.
Qed.

Lemma map_delete_length m key :
  NoDup (map fst m) -> In key (map fst m) ->
  S (length (map_delete m key)) = length m.
Proof.
  induction m as [|[k q] m IH]; simpl; intros Hnd Hin; [contradiction|].
  inversion Hnd as [|? ? Hk Hnd']; subst.
  destruct (String.eqb_spec key k) as [->|Hne]; simpl.
  - rewrite map_delete_absent by exact Hk. reflexivity.
  - destruct Hin as [E|Hin]; [congruence|]. rewrite IH by assumption. reflexivity.
Qed.

Lemma list_remove_In p l q :
  NoDup l -> (In q (list_remove p l) <-> In q l /\ q <> p).
Proof.
  induction l as [|r l IH]; simpl; intros Hnd.
  - split; [contradiction|intros [[] _]].
  - inversion Hnd as [|? ? Hr Hnd']; subst.
    destruct (Nat.eqb_spec r p) as [->|Hne].
    + split.
      * intros Hin. split; [right; exact Hin|]. intros ->. exact (Hr Hin).
      * intros [[E|Hin] Hq]; [congruence|exact Hin].
    + simpl. rewrite IH by exact Hnd'. split.
      * intros [->|[Hin Hq]]; [split; [left; reflexivity|exact Hne]|].
        split; [right; exact Hin|exact Hq].
      * intros [[->|Hin] Hq]; [left; reflexivity|right; split; assumption].
Qed.

Lemma list_remove_NoDup p l : NoDup l -> NoDup (list_remove p l).
Proof.
  induction l as [|r l IH]; simpl; intros Hnd; [constructor|].
  inversion Hnd as [|? ? Hr Hnd']; subst.
  destruct (Nat.eqb_spec r p); [exact Hnd'|].
  constructor; [|apply IH; exact Hnd'].
  intros Hin. apply list_remove_In in Hin as [Hin _]; [|exact Hnd']. exact (Hr Hin).
Qed.

Lemma heap_set_value_length (h : list (Pair V)) p v :
  length (heap_set_value h p v) = length h.
Proof.
  revert p. induction h as [|pr h IH]; intros [|p]; simpl; try reflexivity.
  rewrite IH. reflexivity.
Qed.

Lemma heap_set_value_same (h : list (Pair V)) p v pr :
  nth_error h p = Some pr ->
  nth_error (heap_set_value h p v) p = Some {| Key := Key pr; Value := v |}.
Proof.
  revert p. induction h as [|x h IH]; intros [|p]; simpl; try discriminate.
  - intros [= ->]. reflexivity.
  - apply IH.
Qed.

Lemma heap_set_value_other (h : list (Pair V)) p v q :
  q <> p -> nth_error (heap_set_value h p v) q = nth_error h q.
Proof.
  revert p q. induction h as [|x h IH]; intros [|p] [|q] Hne; simpl;
    try reflexivity; try congruence.
  apply IH. congruence.
Qed.

Lemma nth_error_snoc_old (h : list (Pair V)) x p pr :
  nth_error h p = Some pr -> nth_error (h ++ [x]) p = Some pr.
Proof.
  intros H. rewrite nth_error_app1; [exact H|].
  apply nth_error_Some. congruence.
Qed.

Lemma nth_error_snoc_new (h : list (Pair V)) x :
  nth_error (h ++ [x]) (length h) = Some x.
Proof.
  rewrite nth_error_app2 by lia. rewrite Nat.sub_diag. reflexivity.
Qed.

(** *** The map and the list stay in sync *)

Lemma in_sync_get (om : OrderedMap V) key p :
  in_sync om -> map_get (pairs om) key = Some p ->
  In p (list_ om) /\ exists pr, nth_error (heap om) p = Some pr /\ Key pr = key.
Proof.
  intros (Hk & Hl & Hp & Hq) H. apply Hp. apply map_get_In; assumption.
Qed.

Lemma in_sync_pointer_key (om : OrderedMap V) p pr :
  in_sync om -> In p (list_ om) -> nth_error (heap om) p = Some pr ->
  map_get (pairs om) (Key pr) = Some p.
Proof.
  intros (Hk & Hl & Hp & Hq) Hin Hn.
  destruct (Hq p Hin) as (k & Hkp).
  destruct (Hp k p Hkp) as (_ & pr' & Hn' & <-).
  assert (pr' = pr) by congruence. subst pr'.
  apply map_get_In; assumption.
Qed.

Lemma in_sync_valid (om : OrderedMap V) p :
  in_sync om -> In p (list_ om) -> (p < length (heap om))%nat.
Proof.
  intros (Hk & Hl & Hp & Hq) Hin. destruct (Hq p Hin) as (k & Hkp).
  destruct (Hp k p Hkp) as (_ & pr & Hn & _).
  apply nth_error_Some. congruence.
Qed.

Lemma in_sync_pointer_unique (om : OrderedMap V) k k' p :
  in_sync om -> In (k, p) (pairs om) -> In (k', p) (pairs om) -> k = k'.
Proof.
  intros (Hk & Hl & Hp & Hq) H1 H2.
  destruct (Hp k p H1) as (_ & pr & Hn & <-).
  destruct (Hp k' p H2) as (_ & pr' & Hn' & <-).
  congruence.
Qed.

Lemma in_sync_New (h : list (Pair V)) :
  in_sync (NewStringValueDeclarationOrderedMap h).
Proof.
  unfold in_sync. simpl. repeat split; try constructor; contradiction.
Qed.

Lemma in_sync_Clear (om : OrderedMap V) : in_sync (Clear om).
Proof.
  unfold in_sync. simpl. repeat split; try constructor; contradiction.
Qed.

Lemma in_sync_Set (om : OrderedMap V) key value :
  in_sync om ->
  exists old present om',
    Set_ nilV om key value = Some (old, present, om') /\ in_sync om'.
Proof.
  intros Hs. pose proof Hs as (Hk & Hl & Hp & Hq). unfold Set_.
  destruct (map_get (pairs om) key) as [p|] eqn:Hg.
  - destruct (in_sync_get om key p Hs Hg) as (Hin & pr & Hn & HK).
    rewrite Hn. eexists _, _, _. split; [reflexivity|].
    unfold in_sync. simpl. repeat split; try assumption.
    + apply (Hp k p0). assumption.
    + destruct (Hp k p0 H) as (_ & pr0 & Hn0 & HK0).
      destruct (Nat.eq_dec p0 p) as [->|Hne].
      * rewrite (heap_set_value_same _ _ _ _ Hn). eexists. split; [reflexivity|].
        simpl. congruence.
      * rewrite heap_set_value_other by exact Hne. eauto.
  - eexists _, _, _. split; [reflexivity|].
    apply map_get_None in Hg.
    assert (~ In (length (heap om)) (list_ om)) as Hfresh.
    { intros Hin. apply (in_sync_valid om _ Hs) in Hin. lia. }
    unfold in_sync, map_set. simpl. repeat split.
    + constructor; [|apply map_delete_NoDup; exact Hk].
      intros Hin. apply map_delete_keys in Hin as [_ H]. congruence.
    + apply NoDup_app; [exact Hl| repeat constructor; intros [] |].
      intros x Hx [<-|[]]. exact (Hfresh Hx).
    + destruct H as [[= <- <-]|H]; [apply in_or_app; right; left; reflexivity|].
      apply map_delete_In in H as [H _]. apply in_or_app. left.
      apply (Hp k p). exact H.
    + destruct H as [[= <- <-]|H].
      * rewrite nth_error_snoc_new. eexists. split; reflexivity.
      * apply map_delete_In in H as [H _].
        destruct (Hp k p H) as (_ & pr & Hn & HK).
        exists pr. split; [apply nth_error_snoc_old; exact Hn|exact HK].
    + intros p Hin. apply in_app_or in Hin as [Hin|[<-|[]]].
      * destruct (Hq p Hin) as (k & Hkp). exists k. right.
        apply map_delete_In. split; [exact Hkp|].
        intros ->. apply Hg. apply (in_map fst) in Hkp. exact Hkp.
      * exists key. left. reflexivity.
Qed.

Lemma in_sync_Delete (om : OrderedMap V) key :
  in_sync om ->
  exists old present om',
    Delete nilV om key = Some (old, present, om') /\ in_sync om'.
Proof.
  intros Hs. pose proof Hs as (Hk & Hl & Hp & Hq). unfold Delete.
  destruct (map_get (pairs om) key) as [p|] eqn:Hg.
  2:{ eexists _, _, _. split; [reflexivity|exact Hs]. }
  destruct (in_sync_get om key p Hs Hg) as (Hin & pr & Hn & HK).
  rewrite Hn. eexists _, _, _. split; [reflexivity|].
  apply map_get_In in Hg; [|exact Hk].
  unfold in_sync. simpl. repeat split.
  - apply map_delete_NoDup. exact Hk.
  - apply list_remove_NoDup. exact Hl.
  - apply map_delete_In in H as [H Hne].
    apply list_remove_In; [exact Hl|]. split; [apply (Hp k p0 H)|].
    intros ->. apply Hne. apply (in_sync_pointer_unique om k key p Hs H Hg).
  - apply map_delete_In in H as [H Hne]. destruct (Hp k p0 H) as (_ & Hx). exact Hx.
  - intros q Hq'. apply list_remove_In in Hq' as [Hq' Hne]; [|exact Hl].
    destruct (Hq q Hq') as (k & Hkq). exists k.
    apply map_delete_In. split; [exact Hkq|].
    intros ->. apply Hne.
    apply (proj2 (map_get_In _ _ _ Hk)) in Hkq, Hg. congruence.
Qed.

(** *** The pairs in order *)

Lemma read_pairs_total (h : list (Pair V)) l :
  (forall p, In p l -> (p < length h)%nat) ->
  exists es, read_pairs h l = Some es.
Proof.
  induction l as [|p l IH]; simpl; intros H; [eauto|].
  destruct (nth_error h p) as [pr|] eqn:Hn.
  - destruct IH as (es & ->); [intros q Hq; apply H; right; exact Hq|]. eauto.
  - apply nth_error_None in Hn. specialize (H p (or_introl eq_refl)). lia.
Qed.

Lemma entries_total (om : OrderedMap V) :
  in_sync om -> exists es, entries om = Some es.
Proof.
  intros Hs. apply read_pairs_total. intros p Hp.
  apply (in_sync_valid om p Hs Hp).
Qed.

Lemma read_pairs_In (h : list (Pair V)) l es k v :
  read_pairs h l = Some es ->
  (In (k, v) es <->
   exists p pr, In p l /\ nth_error h p = Some pr /\ Key pr = k /\ Value pr = v).
Proof.
  revert es. induction l as [|q l IH]; simpl; intros es H.
  - injection H as <-. split; [contradiction|intros (p & pr & [] & _)].
  - destruct (nth_error h q) as [pq|] eqn:Hn; [|discriminate].
    destruct (read_pairs h l) as [es'|]; [|discriminate].
    injection H as <-. simpl. rewrite (IH es' eq_refl). split.
    + intros [[= <- <-]|(p & pr & Hin & Hp & HK & HV)].
      * exists q, pq. repeat split; try assumption. left. reflexivity.
      * exists p, pr. repeat split; try assumption. right. exact Hin.
    + intros (p & pr & [->|Hin] & Hp & HK & HV).
      * left. rewrite Hn in Hp. injection Hp as ->. subst. reflexivity.
      * right. exists p, pr. repeat split; assumption.
Qed.

Lemma read_pairs_keys (h : list (Pair V)) l es :
  read_pairs h l = Some es ->
  forall k, In k (map fst es) ->
            exists p pr, In p l /\ nth_error h p = Some pr /\ Key pr = k.
Proof.
  intros H k Hin. apply in_map_iff in Hin as ([k' v] & E & Hin). simpl in E.
  subst k'. apply (read_pairs_In h l es k v H) in Hin as (p & pr & ? & ? & ? & ?).
  eauto.
Qed.

Lemma read_pairs_length (h : list (Pair V)) l es :
  read_pairs h l = Some es -> length es = length l.
Proof.
  revert es. induction l as [|q l IH]; simpl; intros es H.
  - injection H as <-. reflexivity.
  - destruct (nth_error h q); [|discriminate].
    destruct (read_pairs h l) as [es'|]; [|discriminate].
    injection H as <-. simpl. rewrite (IH es' eq_refl). reflexivity.
Qed.

Lemma read_pairs_app (h : list (Pair V)) l1 l2 es1 es2 :
  read_pairs h l1 = Some es1 -> read_pairs h l2 = Some es2 ->
  read_pairs h (l1 ++ l2) = Some (es1 ++ es2).
Proof.
  revert es1. induction l1 as [|q l1 IH]; simpl; intros es1 H1 H2.
  - injection H1 as <-. exact H2.
  - destruct (nth_error h q); [|discriminate].
    destruct (read_pairs h l1) as [es'|]; [|discriminate].
    injection H1 as <-. rewrite (IH es' eq_refl H2). reflexivity.
Qed.

Lemma read_pairs_ext (h h' : list (Pair V)) l :
  (forall p, In p l -> nth_error h' p = nth_error h p) ->
  read_pairs h' l = read_pairs h l.
Proof.
  induction l as [|q l IH]; simpl; intros H; [reflexivity|].
  rewrite H by (left; reflexivity).
  rewrite IH by (intros p Hp; apply H; right; exact Hp). reflexivity.
Qed.

Lemma read_pairs_NoDup (om : OrderedMap V) l es :
  in_sync om -> NoDup l -> incl l (list_ om) ->
  read_pairs (heap om) l = Some es -> NoDup (map fst es).
Proof.
  intros Hs. revert es.
  induction l as [|q l IH]; simpl; intros es Hl Hsub H.
  - injection H as <-. constructor.
  - destruct (nth_error (heap om) q) as [pq|] eqn:Hn; [|discriminate].
    destruct (read_pairs (heap om) l) as [es'|] eqn:Hr; [|discriminate].
    injection H as <-. inversion Hl as [|? ? Hq Hl']; subst. simpl.
    constructor.
    + intros Hin.
      destruct (read_pairs_keys _ _ _ Hr _ Hin) as (p & pr & Hp & Hnp & HK).
      pose proof (in_sync_pointer_key om p pr Hs (Hsub p (or_intror Hp)) Hnp) as E1.
      pose proof (in_sync_pointer_key om q pq Hs (Hsub q (or_introl eq_refl)) Hn) as E2.
      rewrite HK in E1. rewrite E1 in E2. injection E2 as ->. exact (Hq Hp).
    + apply IH; [exact Hl'| |reflexivity].
      intros p Hp. apply Hsub. right. exact Hp.
Qed.

Lemma entries_NoDup (om : OrderedMap V) es :
  in_sync om -> entries om = Some es -> NoDup (map fst es).
Proof.
  intros Hs H. pose proof Hs as (_ & Hl & _).
  apply (read_pairs_NoDup om (list_ om) es Hs Hl); [apply incl_refl|exact H].
Qed.

Lemma pointers_NoDup (om : OrderedMap V) m :
  in_sync om -> NoDup (map fst m) -> incl m (pairs om) -> NoDup (map snd m).
Proof.
  intros Hs. induction m as [|[k p] m IH]; simpl; intros Hk Hsub; [constructor|].
  inversion Hk as [|? ? Hk1 Hk2]; subst. constructor.
  - intros Hin. apply in_map_iff in Hin as ([k' p'] & E & Hin).
    simpl in E. subst p'.
    assert (k = k') as <-.
    { apply (in_sync_pointer_unique om k k' p Hs).
      - apply Hsub. left. reflexivity.
      - apply Hsub. right. exact Hin. }
    apply Hk1. apply (in_map fst) in Hin. exact Hin.
  - apply IH; [exact Hk2|]. intros x Hx. apply Hsub. right. exact Hx.
Qed.

Lemma in_sync_length (om : OrderedMap V) :
  in_sync om -> length (pairs om) = length (list_ om).
Proof.
  intros Hs. pose proof Hs as (Hk & Hl & Hp & Hq).
  rewrite <- (length_map snd (pairs om)).
  apply Nat.le_antisymm.
  - apply NoDup_incl_length.
    + apply (pointers_NoDup om (pairs om) Hs Hk). apply incl_refl.
    + intros p Hin. apply in_map_iff in Hin as ([k p'] & E & Hin).
      simpl in E. subst p'. apply (Hp k p Hin).
  - apply NoDup_incl_length; [exact Hl|].
    intros p Hin. destruct (Hq p Hin) as (k & Hkp).
    apply (in_map snd) in Hkp. exact Hkp.
Qed.

Lemma in_sync_other_key (om : OrderedMap V) p pr q pq :
  in_sync om -> In p (list_ om) -> In q (list_ om) ->
  nth_error (heap om) p = Some pr -> nth_error (heap om) q = Some pq ->
  q <> p -> String.eqb (Key pr) (Key pq) = false.
Proof.
  intros Hs Hp Hq Hnp Hnq Hne.
  destruct (String.eqb_spec (Key pr) (Key pq)) as [E|]; [|reflexivity].
  pose proof (in_sync_pointer_key om p pr Hs Hp Hnp) as E1.
  pose proof (in_sync_pointer_key om q pq Hs Hq Hnq) as E2.
  rewrite E in E1. congruence.
Qed.

Lemma read_pairs_set_value (om : OrderedMap V) p pr value l es :
  in_sync om -> In p (list_ om) -> nth_error (heap om) p = Some pr ->
  incl l (list_ om) -> read_pairs (heap om) l = Some es ->
  read_pairs (heap_set_value (heap om) p value) l
  = Some (map (fun e => if String.eqb (Key pr) (fst e) then (Key pr, value) else e) es).
Proof.
  intros Hs Hp Hn. revert es.
  induction l as [|q l IH]; simpl; intros es Hsub H.
  - injection H as <-. reflexivity.
  - destruct (nth_error (heap om) q) as [pq|] eqn:Hq; [|discriminate].
    destruct (read_pairs (heap om) l) as [es'|] eqn:Hr; [|discriminate].
    injection H as <-.
    rewrite (IH es') by (try reflexivity; intros x Hx; apply Hsub; right; exact Hx).
    simpl. destruct (Nat.eq_dec q p) as [->|Hne].
    + rewrite (heap_set_value_same _ _ _ _ Hn). simpl.
      assert (pq = pr) as -> by congruence.
      rewrite String.eqb_refl. reflexivity.
    + rewrite heap_set_value_other by exact Hne. rewrite Hq.
      rewrite (in_sync_other_key om p pr q pq Hs Hp
                 (Hsub q (or_introl eq_refl)) Hn Hq Hne).
      reflexivity.
Qed.

Lemma filter_keeps_other_keys (om : OrderedMap V) p pr l es :
  in_sync om -> In p (list_ om) -> nth_error (heap om) p = Some pr ->
  incl l (list_ om) -> ~ In p l -> read_pairs (heap om) l = Some es ->
  filter (fun e => negb (String.eqb (Key pr) (fst e))) es = es.
Proof.
  intros Hs Hp Hn. revert es.
  induction l as [|q l IH]; simpl; intros es Hsub Hnin H.
  - injection H as <-. reflexivity.
  - destruct (nth_error (heap om) q) as [pq|] eqn:Hq; [|discriminate].
    destruct (read_pairs (heap om) l) as [es'|] eqn:Hr; [|discriminate].
    injection H as <-. simpl.
    rewrite (in_sync_other_key om p pr q pq Hs Hp (Hsub q (or_introl eq_refl)) Hn Hq)
      by (intros ->; apply Hnin; left; reflexivity).
    simpl. f_equal. apply IH; try reflexivity.
    + intros x Hx. apply Hsub. right. exact Hx.
    + intros Hx. apply Hnin. right. exact Hx.
Qed.

Lemma read_pairs_remove (om : OrderedMap V) p pr l es :
  in_sync om -> In p (list_ om) -> nth_error (heap om) p = Some pr ->
  NoDup l -> incl l (list_ om) -> read_pairs (heap om) l = Some es ->
  read_pairs (heap om) (list_remove p l)
  = Some (filter (fun e => negb (String.eqb (Key pr) (fst e))) es).
Proof.
  intros Hs Hp Hn. revert es.
  induction l as [|q l IH]; simpl; intros es Hnd Hsub H.
  - injection H as <-. reflexivity.
  - destruct (nth_error (heap om) q) as [pq|] eqn:Hq; [|discriminate].
    destruct (read_pairs (heap om) l) as [es'|] eqn:Hr; [|discriminate].
    injection H as <-. inversion Hnd as [|? ? Hq' Hnd']; subst. simpl.
    destruct (Nat.eqb_spec q p) as [->|Hne].
    + assert (pq = pr) as -> by congruence.
      rewrite String.eqb_refl. simpl.
      rewrite (filter_keeps_other_keys om p pr l es' Hs Hp Hn); try assumption.
      intros x Hx. apply Hsub. right. exact Hx.
    + rewrite (in_sync_other_key om p pr q pq Hs Hp (Hsub q (or_introl eq_refl)) Hn Hq Hne).
      simpl. rewrite Hq.
      rewrite (IH es') by (try reflexivity; try assumption;
                           intros x Hx; apply Hsub; right; exact Hx).
      reflexivity.
Qed.

Lemma chain_of_head p (l : list ptr) cs : In p l -> chain_of p (l :: cs) = l.
Proof.
  intros Hin. simpl.
  destruct (existsb (Nat.eqb p) l) eqn:E; [reflexivity|].
  assert (existsb (Nat.eqb p) l = true) as E'.
  { apply existsb_exists. exists p. split; [exact Hin|apply Nat.eqb_refl]. }
  congruence.
Qed.

(** For a pair of the list, [Next] is the element after it there. *)
Lemma Next_in_list (om : OrderedMap V) p :
  In p (list_ om) -> Next om p = list_next p (list_ om).
Proof.
  intros Hin. unfold Next. rewrite chain_of_head by exact Hin. reflexivity.
Qed.

Lemma list_next_split (l1 l2 : list ptr) p :
  ~ In p l1 -> list_next p (l1 ++ p :: l2) = hd_error l2.
Proof.
  induction l1 as [|q l1 IH]; simpl; intros H.
  - rewrite Nat.eqb_refl. reflexivity.
  - destruct (Nat.eqb_spec q p) as [->|Hne]; [exfalso; apply H; left; reflexivity|].
    apply IH. intros Hin. apply H. right. exact Hin.
Qed.

Lemma find_app_first {A} (f : A -> bool) (l1 l2 : list A) :
  find f (l1 ++ l2)
  = match find f l1 with Some x => Some x | None => find f l2 end.
Proof.
  induction l1 as [|x l1 IH]; simpl; [reflexivity|].
  destruct (f x); [reflexivity|exact IH].
Qed.

(** *** What the operations do to the pairs *)

(** X21: A new map and a cleared map are in sync; [Set] and [Delete] on a map in
    sync follow no pointer to no pair and leave the map in sync. *)
Theorem operations_keep_in_sync :
  (forall h : list (Pair V), in_sync (NewStringValueDeclarationOrderedMap h)) /\
  (forall om : OrderedMap V, in_sync (Clear om)) /\
  (forall (om : OrderedMap V) key value,
      in_sync om ->
      exists old present om',
        Set_ nilV om key value = Some (old, present, om') /\ in_sync om') /\
  (forall (om : OrderedMap V) key,
      in_sync om ->
      exists old present om',
        Delete nilV om key = Some (old, present, om') /\ in_sync om').
Proof.
  split; [exact in_sync_New|]. split; [exact in_sync_Clear|].
  split; [exact in_sync_Set|exact in_sync_Delete].
Qed.

(** [Get], [Len] and the keys, on the pairs in order. *)
Lemma Get_entries (om : OrderedMap V) es key :
  in_sync om -> entries om = Some es ->
  Get nilV om key = Some (lookup nilV es key) /\
  NoDup (map fst es) /\ Len om = len es.
Proof.
  intros Hs He. split; [|split].
  - unfold Get, lookup.
    destruct (map_get (pairs om) key) as [p|] eqn:Hg.
    + destruct (in_sync_get om key p Hs Hg) as (Hin & pr & Hn & HK).
      rewrite Hn.
      assert (In (key, Value pr) es) as Hine.
      { apply (read_pairs_In _ _ _ key (Value pr) He). exists p, pr. auto. }
      destruct (find (fun e => String.eqb key (fst e)) es) as [[k v]|] eqn:Hf.
      * apply find_some in Hf as [Hf1 Hf2]. simpl in Hf2.
        apply String.eqb_eq in Hf2. subst k.
        apply (read_pairs_In _ _ _ key v He) in Hf1
          as (p' & pr' & Hin' & Hn' & HK' & HV').
        pose proof (in_sync_pointer_key om p' pr' Hs Hin' Hn') as E.
        rewrite HK', Hg in E. injection E as ->.
        assert (pr' = pr) as -> by congruence. simpl. rewrite HV'. reflexivity.
      * exfalso. pose proof (find_none _ _ Hf _ Hine) as Hx. simpl in Hx.
        rewrite String.eqb_refl in Hx. discriminate.
    + destruct (find (fun e => String.eqb key (fst e)) es) as [[k v]|] eqn:Hf;
        [|reflexivity].
      exfalso. apply find_some in Hf as [Hf1 Hf2]. simpl in Hf2.
      apply String.eqb_eq in Hf2. subst k.
      apply (read_pairs_In _ _ _ key v He) in Hf1
        as (p' & pr' & Hin' & Hn' & HK' & HV').
      pose proof (in_sync_pointer_key om p' pr' Hs Hin' Hn') as E.
      rewrite HK' in E. congruence.
  - exact (entries_NoDup om es Hs He).
  - unfold Len, len. rewrite (in_sync_length om Hs).
    rewrite (read_pairs_length _ _ _ He). reflexivity.
Qed.

(** X22: [Get] returns the value of the one pair with the key, or [nil] and
    [false]; keys are not repeated; [Len] counts the pairs. *)
Theorem Get_reads_the_pairs (om : OrderedMap V) es key :
  in_sync om -> entries om = Some es ->
  Get nilV om key = Some (lookup nilV es key) /\
  NoDup (map fst es) /\ Len om = len es.
Proof.
  exact (Get_entries om es key).
Qed.

(** [Set] on the pairs in order. *)
Lemma Set_entries (om om' : OrderedMap V) es key value old present :
  in_sync om -> entries om = Some es ->
  Set_ nilV om key value = Some (old, present, om') ->
  Get nilV om key = Some (old, present) /\
  entries om' =
  Some (if present
        then map (fun e => if String.eqb key (fst e) then (key, value) else e) es
        else es ++ [(key, value)]).
Proof.
  intros Hs He H. unfold Set_ in H. unfold Get.
  destruct (map_get (pairs om) key) as [p|] eqn:Hg.
  - destruct (in_sync_get om key p Hs Hg) as (Hin & pr & Hn & HK).
    rewrite Hn in *. injection H as <- <- <-. split; [reflexivity|].
    unfold entries. simpl. rewrite <- HK.
    apply (read_pairs_set_value om p pr value (list_ om) es Hs Hin Hn);
      [apply incl_refl|exact He].
  - injection H as <- <- <-. split; [reflexivity|].
    unfold entries. simpl. apply read_pairs_app.
    + rewrite <- He. apply read_pairs_ext. intros q Hq.
      apply nth_error_app1. apply (in_sync_valid om q Hs Hq).
    + simpl. rewrite nth_error_snoc_new. reflexivity.
Qed.

(** X23: [Set] returns what [Get] gave for the key before.  For a key already
    there it replaces the value where the pair is; for a new key it puts the
    pair last. *)
Theorem Set_on_the_pairs (om om' : OrderedMap V) es key value old present :
  in_sync om -> entries om = Some es ->
  Set_ nilV om key value = Some (old, present, om') ->
  Get nilV om key = Some (old, present) /\
  entries om' =
  Some (if present
        then map (fun e => if String.eqb key (fst e) then (key, value) else e) es
        else es ++ [(key, value)]).
Proof.
  exact (Set_entries om om' es key value old present).
Qed.

(** [Delete] on the pairs in order. *)
Lemma Delete_entries (om om' : OrderedMap V) es key old present :
  in_sync om -> entries om = Some es ->
  Delete nilV om key = Some (old, present, om') ->
  Get nilV om key = Some (old, present) /\
  entries om' = Some (filter (fun e => negb (String.eqb key (fst e))) es).
Proof.
  intros Hs He H. unfold Delete in H. unfold Get.
  pose proof Hs as (Hk & Hl & Hp & Hq).
  destruct (map_get (pairs om) key) as [p|] eqn:Hg.
  - destruct (in_sync_get om key p Hs Hg) as (Hin & pr & Hn & HK).
    rewrite Hn in *. injection H as <- <- <-. split; [reflexivity|].
    unfold entries. simpl. rewrite <- HK.
    apply (read_pairs_remove om p pr (list_ om) es Hs Hin Hn Hl);
      [apply incl_refl|exact He].
  - injection H as <- <- <-. split; [reflexivity|]. rewrite He. f_equal.
    symmetry. clear Hk Hl Hp Hq. unfold entries in He.
    assert (forall e, In e es -> negb (String.eqb key (fst e)) = true) as Hall.
    { intros [k v] Hin. simpl.
      apply (read_pairs_In _ _ _ k v He) in Hin as (p & pr & Hin & Hn & HK & _).
      pose proof (in_sync_pointer_key om p pr Hs Hin Hn) as E. rewrite HK in E.
      destruct (String.eqb_spec key k) as [->|]; [congruence|reflexivity]. }
    clear He. induction es as [|e es IH]; simpl; [reflexivity|].
    rewrite (Hall e (or_introl eq_refl)). f_equal.
    apply IH. intros x Hx. apply Hall. right. exact Hx.
Qed.

(** X24: [Delete] returns what [Get] gave for the key before, and takes the pair
    with the key out; the other pairs keep their order. *)
Theorem Delete_on_the_pairs (om om' : OrderedMap V) es key old present :
  in_sync om -> entries om = Some es ->
  Delete nilV om key = Some (old, present, om') ->
  Get nilV om key = Some (old, present) /\
  entries om' = Some (filter (fun e => negb (String.eqb key (fst e))) es).
Proof.
  exact (Delete_entries om om' es key old present).
Qed.

(** X25: After [Set], [Get] gives the value set for the key, and for any other
    key what it gave before. *)
Theorem Get_after_Set (om om' : OrderedMap V) key value old present :
  in_sync om -> Set_ nilV om key value = Some (old, present, om') ->
  Get nilV om' key = Some (value, true) /\
  forall k, k <> key -> Get nilV om' k = Get nilV om k.
Proof.
  intros Hs H. destruct (entries_total om Hs) as (es & He).
  destruct (in_sync_Set om key value Hs) as (o & pz & om2 & H2 & Hs').
  rewrite H in H2. injection H2 as <- <- <-.
  destruct (Set_entries om om' es key value old present Hs He H) as (_ & He').
  pose proof (entries_NoDup om es Hs He) as Hnd.
  assert (forall k, Get nilV om k = Some (lookup nilV es k)) as HG
    by (intros k; apply (Get_entries om es k Hs He)).
  assert (forall k es', entries om' = Some es' ->
                        Get nilV om' k = Some (lookup nilV es' k)) as HG'
    by (intros k es' E; apply (Get_entries om' es' k Hs' E)).
  assert (present = true -> In key (map fst es)) as Hpres.
  { intros ->. destruct (Get_entries om es key Hs He) as (G & _).
    unfold Set_, Get in *.
    destruct (map_get (pairs om) key) as [p|] eqn:Hg; [|discriminate].
    destruct (in_sync_get om key p Hs Hg) as (Hin & pr & Hn & HK).
    apply in_map_iff. exists (key, Value pr). split; [reflexivity|].
    apply (read_pairs_In _ _ _ key (Value pr) He). exists p, pr. auto. }
  assert (present = false -> ~ In key (map fst es)) as Habs.
  { intros -> Hin.
    unfold Set_ in H. destruct (map_get (pairs om) key) as [p|] eqn:Hg.
    - destruct (nth_error (heap om) p); discriminate.
    - destruct (read_pairs_keys _ _ _ He _ Hin) as (p & pr & Hp & Hn & HK).
      pose proof (in_sync_pointer_key om p pr Hs Hp Hn) as E. rewrite HK in E.
      congruence. }
  split.
  - rewrite (HG' key _ He'). f_equal. unfold lookup.
    destruct present.
    + specialize (Hpres eq_refl). clear -Hpres.
      induction es as [|[k v] es IH]; simpl in *; [contradiction|].
      destruct (String.eqb_spec key k) as [->|Hne]; simpl.
      * rewrite String.eqb_refl. reflexivity.
      * destruct (String.eqb_spec key k); [congruence|].
        apply IH. destruct Hpres; [congruence|assumption].
    + specialize (Habs eq_refl). rewrite find_app_first.
      destruct (find (fun e => String.eqb key (fst e)) es) as [[k v]|] eqn:Hf.
      * exfalso. apply find_some in Hf as [Hf1 Hf2]. simpl in Hf2.
        apply String.eqb_eq in Hf2. subst k. apply Habs.
        apply (in_map fst) in Hf1. exact Hf1.
      * simpl. rewrite String.eqb_refl. reflexivity.
  - intros k Hne. rewrite (HG' k _ He'), HG. f_equal. unfold lookup.
    destruct present.
    + clear -Hne. induction es as [|[k' v'] es IH]; simpl; [reflexivity|].
      destruct (String.eqb_spec key k') as [->|Hne']; simpl.
      * destruct (String.eqb_spec k k'); [congruence|]. exact IH.
      * destruct (String.eqb_spec k k'); [reflexivity|exact IH].
    + rewrite find_app_first.
      destruct (find (fun e => String.eqb k (fst e)) es); [reflexivity|].
      simpl. destruct (String.eqb_spec k key); [congruence|reflexivity].
Qed.

(** X26: After [Delete], [Get] finds nothing under the key, and for any other key
    what it gave before. *)
Theorem Get_after_Delete (om om' : OrderedMap V) key old present :
  in_sync om -> Delete nilV om key = Some (old, present, om') ->
  Get nilV om' key = Some (nilV, false) /\
  forall k, k <> key -> Get nilV om' k = Get nilV om k.
Proof.
  intros Hs H. destruct (entries_total om Hs) as (es & He).
  destruct (in_sync_Delete om key Hs) as (o & pz & om2 & H2 & Hs').
  rewrite H in H2. injection H2 as <- <- <-.
  destruct (Delete_entries om om' es key old present Hs He H) as (_ & He').
  split.
  - rewrite (proj1 (Get_entries om' _ key Hs' He')). f_equal.
    unfold lookup. clear.
    induction es as [|[k v] es IH]; simpl; [reflexivity|].
    destruct (String.eqb_spec key k) as [->|Hne]; simpl; [exact IH|].
    destruct (String.eqb_spec key k); [congruence|exact IH].
  - intros k Hne.
    rewrite (proj1 (Get_entries om' _ k Hs' He')).
    rewrite (proj1 (Get_entries om es k Hs He)). f_equal.
    unfold lookup. clear -Hne.
    induction es as [|[k' v'] es IH]; simpl; [reflexivity|].
    destruct (String.eqb_spec key k') as [->|Hne']; simpl.
    + destruct (String.eqb_spec k k'); [congruence|exact IH].
    + destruct (String.eqb_spec k k'); [reflexivity|exact IH].
Qed.

Lemma Foreach_loop_fold {A : Type} (om : OrderedMap V)
    (f : String.string -> V -> A -> A) :
  NoDup (list_ om) ->
  forall l2 l1 es2 a fuel,
    list_ om = l1 ++ l2 -> read_pairs (heap om) l2 = Some es2 ->
    (length l2 < fuel)%nat ->
    Foreach_loop fuel om f (hd_error l2) a
    = Some (Some (fold_left (fun a e => f (fst e) (snd e) a) es2 a)).
Proof.
  intros Hnd. induction l2 as [|p l2 IH]; intros l1 es2 a fuel Hl Hr Hf.
  - simpl in Hr. injection Hr as <-. destruct fuel; reflexivity.
  - destruct fuel as [|fuel]; [simpl in Hf; lia|].
    simpl in Hr |- *.
    destruct (nth_error (heap om) p) as [pr|]; [|discriminate].
    destruct (read_pairs (heap om) l2) as [es'|] eqn:Hr'; [|discriminate].
    injection Hr as <-. simpl.
    assert (~ In p l1) as Hp.
    { rewrite Hl in Hnd. apply NoDup_remove_2 in Hnd.
      intros Hin. apply Hnd. apply in_or_app. left. exact Hin. }
    replace (Next om p) with (hd_error l2)
      by (rewrite (Next_in_list om p) by (rewrite Hl; apply in_elt);
          rewrite Hl; symmetry; apply list_next_split; exact Hp).
    apply (IH (l1 ++ [p])); [| reflexivity | simpl in Hf; lia].
    rewrite Hl, <- app_assoc. reflexivity.
Qed.

Lemma ForeachWithError_loop_fold {A E : Type} (om : OrderedMap V)
    (f : String.string -> V -> A -> A + E) :
  NoDup (list_ om) ->
  forall l2 l1 es2 a fuel,
    list_ om = l1 ++ l2 -> read_pairs (heap om) l2 = Some es2 ->
    (length l2 < fuel)%nat ->
    ForeachWithError_loop fuel om f (hd_error l2) a
    = Some (Some (fold_until f es2 a)).
Proof.
  intros Hnd. induction l2 as [|p l2 IH]; intros l1 es2 a fuel Hl Hr Hf.
  - simpl in Hr. injection Hr as <-. destruct fuel; reflexivity.
  - destruct fuel as [|fuel]; [simpl in Hf; lia|].
    simpl in Hr |- *.
    destruct (nth_error (heap om) p) as [pr|]; [|discriminate].
    destruct (read_pairs (heap om) l2) as [es'|] eqn:Hr'; [|discriminate].
    injection Hr as <-. simpl.
    destruct (f (Key pr) (Value pr) a) as [a'|err]; [|reflexivity].
    assert (~ In p l1) as Hp.
    { rewrite Hl in Hnd. apply NoDup_remove_2 in Hnd.
      intros Hin. apply Hnd. apply in_or_app. left. exact Hin. }
    replace (Next om p) with (hd_error l2)
      by (rewrite (Next_in_list om p) by (rewrite Hl; apply in_elt);
          rewrite Hl; symmetry; apply list_next_split; exact Hp).
    apply (IH (l1 ++ [p])); [| reflexivity | simpl in Hf; lia].
    rewrite Hl, <- app_assoc. reflexivity.
Qed.

(** X27: [Foreach] ends and calls the function once for each pair, oldest first;
    [ForeachWithError] does the same up to the first error, which it
    returns. *)
Theorem Foreach_visits_in_order {A E : Type} (om : OrderedMap V) es
    (f : String.string -> V -> A -> A)
    (g : String.string -> V -> A -> A + E) (a : A) :
  in_sync om -> entries om = Some es ->
  Foreach om f a = Some (Some (fold_left (fun a e => f (fst e) (snd e) a) es a)) /\
  ForeachWithError om g a = Some (Some (fold_until g es a)).
Proof.
  intros (_ & Hnd & _) He. split.
  - apply (Foreach_loop_fold om f Hnd (list_ om) []);
      [reflexivity | exact He | lia].
  - apply (ForeachWithError_loop_fold om g Hnd (list_ om) []);
      [reflexivity | exact He | lia].
Qed.

Lemma last_default_irrelevant {A} (l : list A) (a d d' : A) :
  last (a :: l) d = last (a :: l) d'.
Proof.
  revert a. induction l as [|b l IH]; intros a; [reflexivity|].
  change (last (a :: b :: l) d) with (last (b :: l) d).
  change (last (a :: b :: l) d') with (last (b :: l) d'). apply IH.
Qed.

Lemma last_cons_head {A} (l : list A) (a d : A) : last (a :: l) d = last l a.
Proof.
  destruct l as [|b l]; [reflexivity|].
  change (last (a :: b :: l) d) with (last (b :: l) d).
  apply last_default_irrelevant.
Qed.

Lemma read_pairs_last (h : list (Pair V)) l : forall p e es,
  read_pairs h (p :: l) = Some (e :: es) ->
  match nth_error h (last l p) with
  | Some pr => Some (Key pr, Value pr)
  | None => None
  end = Some (last es e).
Proof.
  induction l as [|q l IH]; intros p e es H.
  - simpl in H |- *. destruct (nth_error h p); [|discriminate].
    injection H as <- <-. reflexivity.
  - cbn [read_pairs] in H.
    destruct (nth_error h p) as [pp|]; [|discriminate].
    destruct (nth_error h q) as [pq|] eqn:Hq; [|discriminate].
    destruct (read_pairs h l) as [es'|] eqn:Hr; [|discriminate].
    injection H as <- <-.
    rewrite !last_cons_head.
    apply IH. cbn [read_pairs]. rewrite Hq, Hr. reflexivity.
Qed.

(** X28: [Oldest] is the first pair and [Newest] the last, [nil] for both when
    there is none. *)
Theorem Oldest_and_Newest (om : OrderedMap V) es :
  entries om = Some es ->
  pair_at om (Oldest om) = hd_error es /\
  pair_at om (Newest om) = match es with [] => None | e :: es' => Some (last es' e) end.
Proof.
  unfold entries, pair_at, Oldest, Newest. intros He.
  destruct (list_ om) as [|p l].
  - simpl in He. injection He as <-. split; reflexivity.
  - destruct es as [|e es].
    { simpl in He. destruct (nth_error (heap om) p); [|discriminate].
      destruct (read_pairs (heap om) l); discriminate. }
    split; [|apply (read_pairs_last _ _ _ _ _ He)].
    simpl in He |- *. destruct (nth_error (heap om) p); [|discriminate].
    destruct (read_pairs (heap om) l); [|discriminate].
    injection He as <- <-. reflexivity.
Qed.

End Facts.

(** A map with the keys ["a"] and ["b"], set in this order. *)
Example two_keys_in_sync :
  in_sync
    {| heap := [ {| Key := "a"%string; Value := 1 |};
                 {| Key := "b"%string; Value := 2 |} ];
       pairs := [("b"%string, 1%nat); ("a"%string, 0%nat)];
       list_ := [0%nat; 1%nat]; dropped := [] |}.
Proof.
  unfold in_sync. simpl. split; [|split; [|split]].
  - repeat constructor; simpl; intuition discriminate.
  - repeat constructor; simpl; intuition discriminate.
  - intros k p [[= <- <-]|[[= <- <-]|[]]];
      (split; [simpl; tauto | eexists; split; reflexivity]).
  - intros p [<-|[<-|[]]]; eexists; simpl; eauto.
Qed.

(** The links of pairs that left the list: after [Clear] the two pairs are
    still linked to each other, though the list is empty; after [Delete] the
    pair taken out has no neighbour and the one left has no previous pair. *)
Example links_of_pairs_out_of_the_list :
  let om := {| heap := [ {| Key := "a"%string; Value := 1 |};
                         {| Key := "b"%string; Value := 2 |} ];
               pairs := [("b"%string, 1%nat); ("a"%string, 0%nat)];
               list_ := [0%nat; 1%nat]; dropped := [] |} in
  Oldest (Clear om) = None /\
  Next (Clear om) 0%nat = Some 1%nat /\
  Prev (Clear om) 1%nat = Some 0%nat /\
  Next (Clear om) 1%nat = None /\
  match Delete 0 om "a"%string with
  | Some (_, _, om') =>
      Next om' 0%nat = None /\ Prev om' 0%nat = None /\ Prev om' 1%nat = None
  | None => False
  end.
Proof. repeat split. Qed.

Lemma operations_keep_in_sync_witness :
  exists old present om',
    Set_ 0 {| heap := [ {| Key := "a"%string; Value := 1 |};
                        {| Key := "b"%string; Value := 2 |} ];
              pairs := [("b"%string, 1%nat); ("a"%string, 0%nat)];
              list_ := [0%nat; 1%nat]; dropped := [] |} "c"%string 3
    = Some (old, present, om') /\ in_sync om'.
Proof.
  apply (proj1 (proj2 (proj2 (operations_keep_in_sync Z 0)))).
  exact two_keys_in_sync.
Defined.

Lemma Get_reads_the_pairs_witness :
  Get 0 {| heap := [ {| Key := "a"%string; Value := 1 |};
                     {| Key := "b"%string; Value := 2 |} ];
           pairs := [("b"%string, 1%nat); ("a"%string, 0%nat)];
           list_ := [0%nat; 1%nat]; dropped := [] |} "b"%string
  = Some (lookup 0 [("a"%string, 1); ("b"%string, 2)] "b"%string) /\
  NoDup (map fst [("a"%string, 1); ("b"%string, 2)]) /\
  Len {| heap := [ {| Key := "a"%string; Value := 1 |};
                   {| Key := "b"%string; Value := 2 |} ];
         pairs := [("b"%string, 1%nat); ("a"%string, 0%nat)];
         list_ := [0%nat; 1%nat]; dropped := [] |}
  = len [("a"%string, 1); ("b"%string, 2)].
Proof.
  apply (Get_reads_the_pairs Z 0).
  - exact two_keys_in_sync.
  - reflexivity.
Defined.

Lemma Set_on_the_pairs_witness :
  Get 0 {| heap := [ {| Key := "a"%string; Value := 1 |};
                     {| Key := "b"%string; Value := 2 |} ];
           pairs := [("b"%string, 1%nat); ("a"%string, 0%nat)];
           list_ := [0%nat; 1%nat]; dropped := [] |} "a"%string
  = Some (1, true) /\
  entries {| heap := [ {| Key := "a"%string; Value := 7 |};
                       {| Key := "b"%string; Value := 2 |} ];
             pairs := [("b"%string, 1%nat); ("a"%string, 0%nat)];
             list_ := [0%nat; 1%nat]; dropped := [] |}
  = Some (if true
          then map (fun e => if String.eqb "a" (fst e) then ("a"%string, 7) else e)
                   [("a"%string, 1); ("b"%string, 2)]
          else [("a"%string, 1); ("b"%string, 2)] ++ [("a"%string, 7)]).
Proof.
  apply (Set_on_the_pairs Z 0
           {| heap := [ {| Key := "a"%string; Value := 1 |};
                        {| Key := "b"%string; Value := 2 |} ];
              pairs := [("b"%string, 1%nat); ("a"%string, 0%nat)];
              list_ := [0%nat; 1%nat]; dropped := [] |}).
  - exact two_keys_in_sync.
  - reflexivity.
  - reflexivity.
Defined.

Lemma Delete_on_the_pairs_witness :
  Get 0 {| heap := [ {| Key := "a"%string; Value := 1 |};
                     {| Key := "b"%string; Value := 2 |} ];
           pairs := [("b"%string, 1%nat); ("a"%string, 0%nat)];
           list_ := [0%nat; 1%nat]; dropped := [] |} "a"%string
  = Some (1, true) /\
  entries {| heap := [ {| Key := "a"%string; Value := 1 |};
                       {| Key := "b"%string; Value := 2 |} ];
             pairs := [("b"%string, 1%nat)];
             list_ := [1%nat]; dropped := [] |}
  = Some (filter (fun e => negb (String.eqb "a" (fst e)))
                 [("a"%string, 1); ("b"%string, 2)]).
Proof.
  apply (Delete_on_the_pairs Z 0
           {| heap := [ {| Key := "a"%string; Value := 1 |};
                        {| Key := "b"%string; Value := 2 |} ];
              pairs := [("b"%string, 1%nat); ("a"%string, 0%nat)];
              list_ := [0%nat; 1%nat]; dropped := [] |}).
  - exact two_keys_in_sync.
  - reflexivity.
  - reflexivity.
Defined.

Lemma Get_after_Set_witness :
  Get 0 {| heap := [ {| Key := "a"%string; Value := 1 |};
                     {| Key := "b"%string; Value := 2 |};
                     {| Key := "c"%string; Value := 3 |} ];
           pairs := [("c"%string, 2%nat); ("b"%string, 1%nat); ("a"%string, 0%nat)];
           list_ := [0%nat; 1%nat; 2%nat]; dropped := [] |} "c"%string
  = Some (3, true) /\
  forall k, k <> "c"%string ->
    Get 0 {| heap := [ {| Key := "a"%string; Value := 1 |};
                       {| Key := "b"%string; Value := 2 |};
                       {| Key := "c"%string; Value := 3 |} ];
             pairs := [("c"%string, 2%nat); ("b"%string, 1%nat); ("a"%string, 0%nat)];
             list_ := [0%nat; 1%nat; 2%nat]; dropped := [] |} k
    = Get 0 {| heap := [ {| Key := "a"%string; Value := 1 |};
                         {| Key := "b"%string; Value := 2 |} ];
               pairs := [("b"%string, 1%nat); ("a"%string, 0%nat)];
               list_ := [0%nat; 1%nat]; dropped := [] |} k.
Proof.
  apply (Get_after_Set Z 0
           {| heap := [ {| Key := "a"%string; Value := 1 |};
                        {| Key := "b"%string; Value := 2 |} ];
              pairs := [("b"%string, 1%nat); ("a"%string, 0%nat)];
              list_ := [0%nat; 1%nat]; dropped := [] |} _ "c"%string 3 0 false).
  - exact two_keys_in_sync.
  - reflexivity.
Defined.

Lemma Get_after_Delete_witness :
  Get 0 {| heap := [ {| Key := "a"%string; Value := 1 |};
                     {| Key := "b"%string; Value := 2 |} ];
           pairs := [("b"%string, 1%nat)];
           list_ := [1%nat]; dropped := [] |} "a"%string
  = Some (0, false) /\
  forall k, k <> "a"%string ->
    Get 0 {| heap := [ {| Key := "a"%string; Value := 1 |};
                       {| Key := "b"%string; Value := 2 |} ];
             pairs := [("b"%string, 1%nat)];
             list_ := [1%nat]; dropped := [] |} k
    = Get 0 {| heap := [ {| Key := "a"%string; Value := 1 |};
                         {| Key := "b"%string; Value := 2 |} ];
               pairs := [("b"%string, 1%nat); ("a"%string, 0%nat)];
               list_ := [0%nat; 1%nat]; dropped := [] |} k.
Proof.
  apply (Get_after_Delete Z 0
           {| heap := [ {| Key := "a"%string; Value := 1 |};
                        {| Key := "b"%string; Value := 2 |} ];
              pairs := [("b"%string, 1%nat); ("a"%string, 0%nat)];
              list_ := [0%nat; 1%nat]; dropped := [] |} _ "a"%string 1 true).
  - exact two_keys_in_sync.
  - reflexivity.
Defined.

Lemma Foreach_visits_in_order_witness :
  Foreach {| heap := [ {| Key := "a"%string; Value := 1 |};
                       {| Key := "b"%string; Value := 2 |} ];
             pairs := [("b"%string, 1%nat); ("a"%string, 0%nat)];
             list_ := [0%nat; 1%nat]; dropped := [] |}
          (fun k v acc => acc * 10 + v) 0
  = Some (Some (fold_left (fun a e => (fun k v acc => acc * 10 + v) (fst e) (snd e) a)
                  [("a"%string, 1); ("b"%string, 2)] 0)) /\
  ForeachWithError
          {| heap := [ {| Key := "a"%string; Value := 1 |};
                       {| Key := "b"%string; Value := 2 |} ];
             pairs := [("b"%string, 1%nat); ("a"%string, 0%nat)];
             list_ := [0%nat; 1%nat]; dropped := [] |}
          (fun k v acc => if v =? 1 then inr k else inl (acc + v)) 0
  = Some (Some (fold_until (fun k v acc => if v =? 1 then inr k else inl (acc + v))
                  [("a"%string, 1); ("b"%string, 2)] 0)).
Proof.
  apply (Foreach_visits_in_order Z).
  - exact two_keys_in_sync.
  - reflexivity.
Defined.

Lemma Oldest_and_Newest_witness :
  pair_at {| heap := [ {| Key := "a"%string; Value := 1 |};
                       {| Key := "b"%string; Value := 2 |} ];
             pairs := [("b"%string, 1%nat); ("a"%string, 0%nat)];
             list_ := [0%nat; 1%nat]; dropped := [] |}
          (Oldest {| heap := [ {| Key := "a"%string; Value := 1 |};
                               {| Key := "b"%string; Value := 2 |} ];
                     pairs := [("b"%string, 1%nat); ("a"%string, 0%nat)];
                     list_ := [0%nat; 1%nat]; dropped := [] |})
  = hd_error [("a"%string, 1); ("b"%string, 2)] /\
  pair_at {| heap := [ {| Key := "a"%string; Value := 1 |};
                       {| Key := "b"%string; Value := 2 |} ];
             pairs := [("b"%string, 1%nat); ("a"%string, 0%nat)];
             list_ := [0%nat; 1%nat]; dropped := [] |}
          (Newest {| heap := [ {| Key := "a"%string; Value := 1 |};
                               {| Key := "b"%string; Value := 2 |} ];
                     pairs := [("b"%string, 1%nat); ("a"%string, 0%nat)];
                     list_ := [0%nat; 1%nat]; dropped := [] |})
  = Some (last [("b"%string, 2)] ("a"%string, 1)).
Proof.
  apply (Oldest_and_Newest Z
           {| heap := [ {| Key := "a"%string; Value := 1 |};
                        {| Key := "b"%string; Value := 2 |} ];
              pairs := [("b"%string, 1%nat); ("a"%string, 0%nat)];
              list_ := [0%nat; 1%nat]; dropped := [] |} [("a"%string, 1); ("b"%string, 2)]).
  reflexivity.
Defined.

End SemaFacts.

(** ** ByteValueToByte *)

Module InterpreterFacts.
Import Interpreter.

(** X29: [ByteValueToByte] returns a byte exactly for a number between 0 and 255,
    and then the byte of that value: the conversion [byte(integer)] never
    drops bits.  The error for a value that is no integer is told apart from
    the one for a number out of range. *)
Theorem ByteValueToByte_exact v :
  (forall b,
      ByteValueToByte v = inl b <->
      exists x, (v = BigNumberValue x \/ v = NumberValue x) /\
                0 <= x <= 255 /\ byte_val b = x) /\
  (ByteValueToByte v = inr ErrNotAnInteger <-> v = OtherValue) /\
  (ByteValueToByte v = inr ErrNotInByteRange <->
   exists x, (v = BigNumberValue x \/ v = NumberValue x) /\ (x < 0 \/ 255 < x)).
Proof.
  assert (forall x, 0 <= x <= 255 -> byte_val (to_byte x) = x) as Hto.
  { intros x Hx. unfold to_byte. rewrite Z.mod_small by lia.
    apply byte_val_of. lia. }
  assert (forall x b, 0 <= x <= 255 -> byte_val b = x -> to_byte x = b) as Hfrom.
  { intros x b Hx <-. unfold to_byte. rewrite Z.mod_small by lia.
    apply byte_of_val. }
  destruct v as [x|x|]; unfold ByteValueToByte, IsUint64, MaxUint8, GoInt.modulus.
  - destruct (Z.leb_spec 0 x); simpl.
    2:{ split; [|split].
        - intros b. split; [discriminate|].
          intros (y & [[= <-]|[=]] & Hy & _). lia.
        - split; discriminate.
        - split; [|reflexivity]. intros _. exists x. split; [left; reflexivity|lia]. }
    destruct (Z.ltb_spec x 18446744073709551616); simpl.
    2:{ split; [|split].
        - intros b. split; [discriminate|].
          intros (y & [[= <-]|[=]] & Hy & _). lia.
        - split; discriminate.
        - split; [|reflexivity]. intros _. exists x. split; [left; reflexivity|lia]. }
    rewrite uwrap_id by (unfold GoInt.modulus; lia). rewrite Z.gtb_ltb.
    destruct (Z.ltb_spec 255 x).
    + split; [|split].
      * intros b. split; [discriminate|].
        intros (y & [[= <-]|[=]] & Hy & _). lia.
      * split; discriminate.
      * split; [|reflexivity]. intros _. exists x. split; [left; reflexivity|lia].
    + split; [|split].
      * intros b. split.
        -- intros [= <-]. exists x. split; [left; reflexivity|].
           split; [lia|]. apply Hto. lia.
        -- intros (y & [[= <-]|[=]] & Hy & Hb). f_equal. apply Hfrom; assumption.
      * split; discriminate.
      * split; [discriminate|]. intros (y & [[= <-]|[=]] & Hy). lia.
  - rewrite Z.gtb_ltb.
    destruct (Z.ltb_spec x 0); simpl.
    { split; [|split].
      - intros b. split; [discriminate|].
        intros (y & [[=]|[= <-]] & Hy & _). lia.
      - split; discriminate.
      - split; [|reflexivity]. intros _. exists x. split; [right; reflexivity|lia]. }
    destruct (Z.ltb_spec 255 x).
    + split; [|split].
      * intros b. split; [discriminate|].
        intros (y & [[=]|[= <-]] & Hy & _). lia.
      * split; discriminate.
      * split; [|reflexivity]. intros _. exists x. split; [right; reflexivity|lia].
    + split; [|split].
      * intros b. split.
        -- intros [= <-]. exists x. split; [right; reflexivity|].
           split; [lia|]. apply Hto. lia.
        -- intros (y & [[=]|[= <-]] & Hy & Hb). f_equal. apply Hfrom; assumption.
      * split; discriminate.
      * split; [discriminate|]. intros (y & [[=]|[= <-]] & Hy). lia.
  - split; [|split].
    + intros b. split; [discriminate|]. intros (y & [[=]|[=]] & _).
    + split; reflexivity.
    + split; [discriminate|]. intros (y & [[=]|[=]] & _).
Qed.

Lemma ByteValueToByte_exact_witness :
  ByteValueToByte (NumberValue 65) = inl x41 <->
  exists x, (NumberValue 65 = BigNumberValue x \/ NumberValue 65 = NumberValue x) /\
            0 <= x <= 255 /\ byte_val x41 = x.
Proof.
  apply (proj1 (ByteValueToByte_exact (NumberValue 65)) x41).
Defined.

End InterpreterFacts.
